(** * mailer: local email cache and relational archive

    A shallow embedding of the storage core of the mailer package:

    - [Types]    : [mailer/types.py], the pydantic records, together with
                   the JSON documents pydantic writes and reads for them;
    - [Storage]  : [mailer/storage.py], the file-per-message cache
                   [EmailStorage] and its sidecar index;
    - [Re]       : the fragment of Python's backtracking [re] engine that
                   the pattern of [extract_email_parts] needs;
    - [Database] : [mailer/database.py], the SQLite archive: the schema and
                   triggers of [create_database], [extract_email_parts],
                   [insert_email], [insert_emails], [search_emails], the
                   queries by sender, by domain and by time, and
                   [get_stats].

    Python code that mutates objects, files or tables is written in a
    state-and-exception monad: a computation takes the state, and returns
    either a value or the exception raised, with the state reached. *)

From Stdlib Require Import ZArith Lia Ascii String List Permutation Sorted.
From stdpp Require Import base option list gmap sets strings sorting.

Set Warnings "-register-all,-clear-no-such-hyp".

Local Open Scope Z_scope.

(** ** Python results: values and raised exceptions *)

Module Py.

Inductive exn : Type :=
| AttributeError (attr : string)
| TypeError
| JSONDecodeError
| ValidationError
| IntegrityError
| OSError.

Inductive result (A : Type) : Type :=
| Ok (a : A)
| Raise (e : exn).

Arguments Ok {A} a.
Arguments Raise {A} e.

(** A computation over a state [S]: it always reaches a state, also when
    it raises (what was written before the exception stays written). *)
Definition M (S A : Type) : Type := S -> result A * S.

Definition ret {S A} (a : A) : M S A := fun s => (Ok a, s).

Definition raise {S A} (e : exn) : M S A := fun s => (Raise e, s).

Definition bind {S A B} (c : M S A) (k : A -> M S B) : M S B :=
  fun s => match c s with
           | (Ok a, s') => k a s'
           | (Raise e, s') => (Raise e, s')
           end.

Definition get {S} : M S S := fun s => (Ok s, s).

Definition modify {S} (f : S -> S) : M S unit := fun s => (Ok tt, f s).

End Py.

Import Py.

Notation "x <~ c ;; k" := (Py.bind c (fun x => k))
  (at level 100, c at next level, right associativity).
Notation "c ;;; k" := (Py.bind c (fun _ => k))
  (at level 100, right associativity).

(** ** mailer/types.py *)

Module Types.

(** JSON documents. A file or a TEXT column that holds JSON is modelled by
    the document its text denotes; text that [json] cannot decode is
    [Garbled]. Numbers with a fraction or an exponent occur in no document
    this package writes and have no constructor. *)
Inductive json : Type :=
| JNull
| JBool (b : bool)
| JInt (n : Z)
| JStr (s : string)
| JArr (l : list json)
| JObj (kv : list (string * json)).

Inductive text : Type :=
| Json (j : json)
| Garbled (s : string).

(** [class GmailMessage(BaseModel)], fields in declaration order. *)
Record GmailMessage : Type := {
  id : string;
  thread_id : string;
  label_ids : list string;
  snippet : string;
  from_email : string;
  to : list string;
  subject : string;
  body : string;
  timestamp : Z
}.

(** [class GmailAttachment(BaseModel)]; [data] is never read by the
    modules embedded here. *)
Record GmailAttachment : Type := {
  filename : string;
  mime_type : string;
  size : Z;
  attachment_id : option string
}.

(** [json.dumps] of a list of strings. *)
Definition json_dumps (l : list string) : json := JArr (JStr <$> l).

(** [model_dump_json]: one key per declared field, in declaration order;
    an empty list is written as the empty array and an empty string as
    the empty string. *)
Definition model_dump (m : GmailMessage) : json :=
  JObj [ ("id", JStr (id m));
         ("thread_id", JStr (thread_id m));
         ("label_ids", json_dumps (label_ids m));
         ("snippet", JStr (snippet m));
         ("from_email", JStr (from_email m));
         ("to", json_dumps (to m));
         ("subject", JStr (subject m));
         ("body", JStr (body m));
         ("timestamp", JInt (timestamp m)) ].

(** The value of key [k] in an object; as in Python, the last occurrence
    of a repeated key wins. *)
Fixpoint obj_get (k : string) (kv : list (string * json)) : option json :=
  match kv with
  | [] => None
  | (k', v) :: rest =>
      match obj_get k rest with
      | Some v' => Some v'
      | None => if decide (k' = k) then Some v else None
      end
  end.

Definition as_str (j : json) : option string :=
  match j with JStr s => Some s | _ => None end.

Definition as_int (j : json) : option Z :=
  match j with JInt n => Some n | _ => None end.

Definition as_str_list (j : json) : option (list string) :=
  match j with JArr l => mapM as_str l | _ => None end.

(** A field with a default: absent keys take the default, present keys
    must validate. *)
Definition field {A} (dec : json -> option A) (dflt : A)
    (k : string) (kv : list (string * json)) : option A :=
  match obj_get k kv with
  | None => Some dflt
  | Some j => dec j
  end.

Definition required {A} (dec : json -> option A)
    (k : string) (kv : list (string * json)) : option A :=
  obj_get k kv ≫= dec.

(** Validation of a decoded document against [GmailMessage]: [id] and
    [thread_id] are required, the other fields default, unknown keys are
    ignored ([None] is pydantic's ValidationError). The coercions of
    pydantic's lax mode (an integer written as a numeric string) apply
    only to documents [model_dump_json] never writes and are left out:
    such a document is rejected here. *)
Definition model_validate (j : json) : option GmailMessage :=
  match j with
  | JObj kv =>
      i ← required as_str "id" kv;
      t ← required as_str "thread_id" kv;
      l ← field as_str_list [] "label_ids" kv;
      sn ← field as_str EmptyString "snippet" kv;
      f ← field as_str EmptyString "from_email" kv;
      tos ← field as_str_list [] "to" kv;
      su ← field as_str EmptyString "subject" kv;
      b ← field as_str EmptyString "body" kv;
      ts ← field as_int 0 "timestamp" kv;
      Some {| id := i; thread_id := t; label_ids := l; snippet := sn;
              from_email := f; to := tos; subject := su; body := b;
              timestamp := ts |}
  | _ => None
  end.

(** [GmailMessage.model_validate_json] on the text of a file. *)
Definition model_validate_json (t : text) : result GmailMessage :=
  match t with
  | Json j =>
      match model_validate j with
      | Some m => Ok m
      | None => Raise ValidationError
      end
  | Garbled _ => Raise ValidationError
  end.

End Types.

(** ** mailer/storage.py *)

Module Storage.
Import Types.

(** [class StorageIndex(BaseModel)]. *)
Record StorageIndex : Type := {
  version : Z;
  last_sync : string;
  message_ids : gset string;
  total_messages : Z
}.

(** [StorageIndex()], every field at its default. *)
Definition new_index : StorageIndex :=
  {| version := 1; last_sync := EmptyString; message_ids := ∅;
     total_messages := 0 |}.

Definition with_message_ids (s : gset string) (ix : StorageIndex) :=
  {| version := version ix; last_sync := last_sync ix; message_ids := s;
     total_messages := total_messages ix |}.

Definition with_total_messages (n : Z) (ix : StorageIndex) :=
  {| version := version ix; last_sync := last_sync ix;
     message_ids := message_ids ix; total_messages := n |}.

Definition with_last_sync (t : string) (ix : StorageIndex) :=
  {| version := version ix; last_sync := t;
     message_ids := message_ids ix; total_messages := total_messages ix |}.

(** [len(s)] of a set. *)
Definition len (s : gset string) : Z := Z.of_nat (base.size s).

(** What an [EmailStorage] object can see and change: the files under its
    directory, the clock ([ticks] counts the calls of [datetime.now] so
    far), the paths written so far, oldest first, and its own lazily
    loaded [_index] attribute. *)
Record State : Type := {
  files : gmap string text;
  ticks : nat;
  written : list string;
  _index : option StorageIndex
}.

Definition set_index (o : option StorageIndex) (st : State) : State :=
  {| files := files st; ticks := ticks st; written := written st;
     _index := o |}.

(** The characters of a string, each as a string of length one. *)
Fixpoint chars (s : string) : list string :=
  match s with
  | EmptyString => []
  | String c s' => String c EmptyString :: chars s'
  end.

(** [set(v)] for a decoded JSON value [v], followed by the validation of
    the result as [set[str]]: unhashable elements and values that cannot
    be iterated raise TypeError in [set]; a string is iterated by
    character and a dict by key; an element that is not a string fails
    validation. *)
Definition hashable (j : json) : bool :=
  match j with JArr _ | JObj _ => false | _ => true end.

Definition set_of_json (j : json) : result (gset string) :=
  match j with
  | JArr l =>
      if forallb hashable l then
        match mapM as_str l with
        | Some ids => Ok (list_to_set ids)
        | None => Raise ValidationError
        end
      else Raise TypeError
  | JStr s => Ok (list_to_set (chars s))
  | JObj kv => Ok (list_to_set (fst <$> kv))
  | JNull | JBool _ | JInt _ => Raise TypeError
  end.

(** The body of the [index] property when the file exists:
    [json.loads], [data.get], [set] and the validation of the result by
    the [StorageIndex] constructor (as for [model_validate], without the
    coercions of the lax mode). *)
Definition load_index (t : text) : result StorageIndex :=
  match t with
  | Garbled _ => Raise JSONDecodeError
  | Json (JObj kv) =>
      match set_of_json (default (JArr []) (obj_get "message_ids" kv)) with
      | Raise e => Raise e
      | Ok ids =>
          match field as_int 1 "version" kv,
                field as_str EmptyString "last_sync" kv,
                field as_int 0 "total_messages" kv with
          | Some v, Some ls, Some n =>
              Ok {| version := v; last_sync := ls; message_ids := ids;
                    total_messages := n |}
          | _, _, _ => Raise ValidationError
          end
      end
  | Json _ => Raise (AttributeError "get")
  end.

(** [json.dumps(data)] in [_save_index]: the dumped model with the set
    turned into a list. *)
Definition index_dump (ix : StorageIndex) : json :=
  JObj [ ("version", JInt (version ix));
         ("last_sync", JStr (last_sync ix));
         ("message_ids", json_dumps (elements (message_ids ix)));
         ("total_messages", JInt (total_messages ix)) ].

(** [get_stats] returns a dict with these three keys. *)
Record Stats : Type := {
  stats_storage_dir : string;
  stats_total_messages : Z;
  stats_last_sync : string
}.

Fixpoint strip_prefix (p s : string) : option string :=
  match p, s with
  | EmptyString, _ => Some s
  | String a p', String b s' =>
      if decide (a = b) then strip_prefix p' s' else None
  | String _ _, EmptyString => None
  end.

Fixpoint has_slash (s : string) : bool :=
  match s with
  | EmptyString => false
  | String c s' => if decide (c = "/"%char) then true else has_slash s'
  end.

Fixpoint has_nul (s : string) : bool :=
  match s with
  | EmptyString => false
  | String c s' => if decide (c = "000"%char) then true else has_nul s'
  end.

(** The bytes of a string in a path, which is encoded in UTF-8: a code
    point below 128 takes one byte, the others of the model two. *)
Fixpoint byte_length (s : string) : nat :=
  match s with
  | EmptyString => 0%nat
  | String c s' =>
      ((if nat_of_ascii c <? 128 then 1 else 2) + byte_length s')%nat
  end.

(** The bytes of the longest component of a path; [cur] counts those of
    the component being read. *)
Fixpoint longest_name (cur : nat) (p : string) : nat :=
  match p with
  | EmptyString => cur
  | String c p' =>
      if decide (c = "/"%char) then Nat.max cur (longest_name 0 p')
      else longest_name (cur + byte_length (String c EmptyString)) p'
  end.

Fixpoint ends_with_json (s : string) : bool :=
  match s with
  | EmptyString => false
  | String c s' =>
      if decide (s = ".json") then true else ends_with_json s'
  end.

Section EmailStorage.

(** [self.storage_dir], fixed by [__init__]; paths are compared as
    the strings [pathlib] builds with [/], byte by byte, as a POSIX file
    system compares names. Two such strings name two files when the id in
    them is a file name ([plain_id] below): an id with a [/] adds
    components to the path, which the file system resolves, and the
    statements about the files of ids leave such ids out. *)
Variable storage_dir : string.

(** [clock n] is what the [n]-th call of
    [datetime.now().isoformat()] returns. *)
Variable clock : nat -> string.

Definition index_file : string := storage_dir +:+ "/index.json".
Definition messages_dir : string := storage_dir +:+ "/messages".
Definition msg_file (message_id : string) : string :=
  messages_dir +:+ "/" +:+ message_id +:+ ".json".

(** [EmailStorage(storage_dir)] over the files [fs]. *)
Definition init (fs : gmap string text) : State :=
  {| files := fs; ticks := 0%nat; written := []; _index := None |}.

(** [p.write_text(t)] where the file system takes the path: the
    directories of the object exist since [__init__], so it does for the
    file of an id that is a file name ([plain_id] below). *)
Definition write_text (p : string) (t : text) : M State unit :=
  modify (fun st =>
    {| files := <[p := t]> (files st); ticks := ticks st;
       written := written st ++ [p]; _index := _index st |}).

Definition now : M State string := fun st =>
  (Ok (clock (ticks st)),
   {| files := files st; ticks := S (ticks st); written := written st;
      _index := _index st |}).

(** The [index] property. *)
Definition index : M State StorageIndex := fun st =>
  match _index st with
  | Some ix => (Ok ix, st)
  | None =>
      match files st !! index_file with
      | Some t =>
          match load_index t with
          | Ok ix => (Ok ix, set_index (Some ix) st)
          | Raise e => (Raise e, st)
          end
      | None => (Ok new_index, set_index (Some new_index) st)
      end
  end.

(** An in-place update of the object [self.index] returns. *)
Definition update_index (f : StorageIndex -> StorageIndex)
  : M State unit :=
  ix <~ index ;; modify (set_index (Some (f ix))).

Definition _save_index : M State unit :=
  ix <~ index ;; write_text index_file (Json (index_dump ix)).

Definition has_message (message_id : string) : M State bool :=
  ix <~ index ;; ret (bool_decide (message_id ∈ message_ids ix)).

(** The comprehension reads [self.index] once per element. *)
Fixpoint get_new_message_ids (ids : list string)
  : M State (list string) :=
  match ids with
  | [] => ret []
  | mid :: rest =>
      ix <~ index ;;
      new <~ get_new_message_ids rest ;;
      ret (if decide (mid ∈ message_ids ix) then new else mid :: new)
  end.

Definition store_message (message : GmailMessage) : M State unit :=
  write_text (msg_file (id message)) (Json (model_dump message)) ;;;
  update_index (fun ix =>
    with_message_ids ({[ id message ]} ∪ message_ids ix) ix) ;;;
  ix <~ index ;;
  update_index (with_total_messages (len (message_ids ix))).

Fixpoint store_loop (messages : list GmailMessage) (stored : Z)
  : M State Z :=
  match messages with
  | [] => ret stored
  | msg :: rest =>
      known <~ has_message (id msg) ;;
      if known then store_loop rest stored
      else store_message msg ;;; store_loop rest (stored + 1)
  end.

Definition store_messages (messages : list GmailMessage) : M State Z :=
  stored <~ store_loop messages 0 ;;
  t <~ now ;;
  update_index (with_last_sync t) ;;;
  _save_index ;;;
  ret stored.

(** The limits of the file system, in bytes: the longest name of a file
    ([NAME_MAX]) and the length a path stays under ([PATH_MAX]). The
    directories of the object exist, so a name of the path that is too
    long is met when the path is resolved. *)
Variable name_max : nat.
Variable path_max : nat.

Definition too_long (p : string) : bool :=
  (path_max <=? byte_length p)%nat || (name_max <? longest_name 0 p)%nat.

(** [p.exists()] is [os.stat(p)], of which pathlib turns into [False] the
    errors of a file that is not there and the [ValueError] of a NUL in
    the path; the [OSError] of a path that is too long ([ENAMETOOLONG]) is
    not among them and is raised. *)
Definition path_exists (p : string) : M State bool := fun st =>
  if has_nul p then (Ok false, st)
  else if too_long p then (Raise OSError, st)
  else (Ok (bool_decide (is_Some (files st !! p))), st).

(** [p.read_text()]; a missing file is [FileNotFoundError], an
    [OSError]. *)
Definition read_text (p : string) : M State text := fun st =>
  match files st !! p with
  | Some t => (Ok t, st)
  | None => (Raise OSError, st)
  end.

Definition load_message (message_id : string)
  : M State (option GmailMessage) :=
  found <~ path_exists (msg_file message_id) ;;
  if found then
    t <~ read_text (msg_file message_id) ;;
    match model_validate_json t with
    | Ok m => ret (Some m)
    | Raise e => raise e
    end
  else ret None.

(** An id that is a file name of the messages directory: it holds no [/],
    so that its path has no further component and names a file of its own,
    and its path holds no NUL and is not too long for the file system.
    These are the ids [store_message] can write a file for. *)
Definition plain_id (message_id : string) : Prop :=
  has_slash message_id = false
  /\ has_nul (msg_file message_id) = false
  /\ too_long (msg_file message_id) = false.

(** [messages_dir.glob("*.json")]: the files directly under
    [messages_dir] whose name ends in [.json]. *)
Definition is_message_file (p : string) : bool :=
  match strip_prefix (messages_dir +:+ "/") p with
  | Some name => negb (has_slash name) && ends_with_json name
  | None => false
  end.

Definition load_all_messages : M State (list GmailMessage) := fun st =>
  (Ok (omap (fun '(p, t) =>
               if is_message_file p then
                 match model_validate_json t with
                 | Ok m => Some m
                 | Raise _ => None
                 end
               else None)
            (map_to_list (files st))), st).

Definition get_stats : M State Stats :=
  ix <~ index ;;
  ix' <~ index ;;
  ret {| stats_storage_dir := storage_dir;
         stats_total_messages := total_messages ix;
         stats_last_sync := last_sync ix' |}.

(** *** Vocabulary of the statements about the cache *)

(** The records of a batch that [store_messages] stores when the index
    knows the ids [K]: a record is skipped when its id is known by the
    time the loop reaches it. *)
Fixpoint newly_stored (K : gset string) (messages : list GmailMessage)
  : list GmailMessage :=
  match messages with
  | [] => []
  | msg :: rest =>
      if decide (id msg ∈ K) then newly_stored K rest
      else msg :: newly_stored ({[ id msg ]} ∪ K) rest
  end.

(** The index after one more id, and the files after one more record. *)
Definition add_message (ix : StorageIndex) (m : GmailMessage)
  : StorageIndex :=
  let ids := {[ id m ]} ∪ message_ids ix in
  with_total_messages (len ids) (with_message_ids ids ix).

Definition put_file (fs : gmap string text) (m : GmailMessage)
  : gmap string text :=
  <[msg_file (id m) := Json (model_dump m)]> fs.

(** The invariant of an index. *)
Definition index_ok (ix : StorageIndex) : Prop :=
  total_messages ix = len (message_ids ix).

(** The index a state holds: the one the [index] property returns
    there. A state satisfies the invariant when that index does. *)
Definition invariant (st : State) : Prop :=
  forall ix st0, index st = (Ok ix, st0) -> index_ok ix.

(** The methods of [EmailStorage], as operations on a state. *)
Inductive operation : Type :=
| HasMessage (message_id : string)
| GetNewMessageIds (ids : list string)
| StoreMessage (message : GmailMessage)
| StoreMessages (messages : list GmailMessage)
| LoadMessage (message_id : string)
| LoadAllMessages
| GetStats
| SaveIndex.

(** The state an operation leaves, whether it returns or raises. *)
Definition step (o : operation) (st : State) : State :=
  match o with
  | HasMessage i => (has_message i st).2
  | GetNewMessageIds ids => (get_new_message_ids ids st).2
  | StoreMessage m => (store_message m st).2
  | StoreMessages ms => (store_messages ms st).2
  | LoadMessage i => (load_message i st).2
  | LoadAllMessages => (load_all_messages st).2
  | GetStats => (get_stats st).2
  | SaveIndex => (_save_index st).2
  end.

(** Computations that touch nothing but the [_index] attribute. *)
Definition index_only {A} (c : M State A) : Prop :=
  forall st, exists o, (c st).2 = set_index o st.

(** The state a batch leaves when the index can be read. *)
Definition after_batch (messages : list GmailMessage) (st : State)
    (ix : StorageIndex) : State :=
  let new := newly_stored (message_ids ix) messages in
  let ix' := with_last_sync (clock (ticks st)) (foldl add_message ix new) in
  {| files := <[index_file := Json (index_dump ix')]>
                (foldl put_file (files st) new);
     ticks := S (ticks st);
     written := written st ++ (msg_file ∘ id <$> new) ++ [index_file];
     _index := Some ix' |}.

(** What [load_all_messages] makes of one file. *)
Definition read_file (pt : string * text) : option GmailMessage :=
  if is_message_file pt.1 then
    match model_validate_json pt.2 with
    | Ok m => Some m
    | Raise _ => None
    end
  else None.

End EmailStorage.

(** *** Sample data for the examples *)

(** A clock for the examples. *)
Definition clock0 (n : nat) : string :=
  match n with
  | O => "2024-01-01T00:00:00"
  | _ => "2024-01-02T00:00:00"
  end.

Definition msg (i subj : string) : GmailMessage :=
  {| id := i; thread_id := "t1"; label_ids := []; snippet := EmptyString;
     from_email := "a@example.com"; to := []; subject := subj;
     body := EmptyString; timestamp := 0 |}.

(** The limits of a Linux file system. *)
Definition NAME_MAX : nat := 255.
Definition PATH_MAX : nat := 4096.

(** An id of 300 letters: with its suffix, a file name over [NAME_MAX]. *)
Definition long_id : string :=
  Nat.iter 300 (String "a"%char) EmptyString.

(** A cache whose index file cannot be decoded. *)
Definition broken : State :=
  init {[ index_file "cache" := Garbled "{" ]}.

End Storage.

(** ** Python strings and the [re] engine

    A [str] is modelled by a [string] of 8-bit characters; whitespace and
    case are those of the ASCII range (code points above 127 are opaque:
    neither spaces nor letters). On the strings of ASCII characters
    ([is_ascii]) the functions below are Python's. *)

Module Str.

Definition dquote : ascii := "034"%char.
Definition newline : ascii := "010"%char.

(** [str.isspace] on one character, also the class [\s] of [re]:
    TAB, LF, VT, FF, CR, the separators FS, GS, RS, US, and the space. *)
Definition isspace (c : ascii) : bool :=
  let n := nat_of_ascii c in
  ((9 <=? n) && (n <=? 13) || (28 <=? n) && (n <=? 32))%nat.

Fixpoint lstrip (s : string) : string :=
  match s with
  | EmptyString => EmptyString
  | String c s' => if isspace c then lstrip s' else s
  end.

Fixpoint rstrip (s : string) : string :=
  match s with
  | EmptyString => EmptyString
  | String c s' =>
      match rstrip s' with
      | EmptyString => if isspace c then EmptyString else String c EmptyString
      | t => String c t
      end
  end.

(** [s.strip()] *)
Definition strip (s : string) : string := rstrip (lstrip s).

Definition lower_char (c : ascii) : ascii :=
  let n := nat_of_ascii c in
  if ((65 <=? n) && (n <=? 90))%nat then ascii_of_nat (n + 32) else c.

(** [s.lower()] *)
Fixpoint lower (s : string) : string :=
  match s with
  | EmptyString => EmptyString
  | String c s' => String (lower_char c) (lower s')
  end.

(** [c in s] for a single character [c]. *)
Fixpoint contains (c : ascii) (s : string) : bool :=
  match s with
  | EmptyString => false
  | String a s' => if decide (a = c) then true else contains c s'
  end.

(** [s.split(sep)] for a single-character separator: never empty. *)
Fixpoint split (sep : ascii) (s : string) : list string :=
  match s with
  | EmptyString => [EmptyString]
  | String c s' =>
      if decide (c = sep) then EmptyString :: split sep s'
      else match split sep s' with
           | h :: t => String c h :: t
           | [] => [String c EmptyString]
           end
  end.

(** Every character of [s] is in the class [p]. *)
Fixpoint all (p : ascii -> bool) (s : string) : bool :=
  match s with
  | EmptyString => true
  | String c s' => p c && all p s'
  end.

(** [s.isascii()] *)
Definition is_ascii (s : string) : bool :=
  all (fun c => (nat_of_ascii c <? 128)%nat) s.

(** [s] without its double quotes. *)
Fixpoint unquote (s : string) : string :=
  match s with
  | EmptyString => EmptyString
  | String c s' => if decide (c = dquote) then unquote s'
                   else String c (unquote s')
  end.

(** [l[-1]] of a list of strings that is not empty. *)
Definition last_item (l : list string) : string :=
  List.last l EmptyString.

(** [s.lstrip(chars)]: [s] without its leading characters that occur in
    [chars]. *)
Fixpoint lstrip_chars (chars s : string) : string :=
  match s with
  | EmptyString => EmptyString
  | String a s' => if contains a chars then lstrip_chars chars s' else s
  end.

End Str.

Module Re.
Import Str.

(** The pattern nodes [extract_email_parts] uses. A quantifier applies to
    a single character or character class, given by its predicate; all
    quantifiers are greedy. *)
Inductive node : Type :=
| Bol                          (* ^ *)
| Eol                          (* $ *)
| Lit (c : ascii)              (* a literal character *)
| Opt (p : ascii -> bool)      (* x? *)
| Star (p : ascii -> bool)     (* x* *)
| Plus (p : ascii -> bool)     (* x+ *)
| Open (g : nat)               (* ( of group g *)
| Close (g : nat).             (* ) of group g *)

Definition regex : Type := list node.

(** Group marks set while matching, most recent first: the group, whether
    the mark is its closing bracket, and the position in the subject. *)
Definition marks : Type := list (nat * bool * nat).

(** [greedy p k s pos]: consume as many characters of class [p] as
    possible, then continue with [k]; when [k] fails, give one back and
    retry. *)
Fixpoint greedy (p : ascii -> bool) (k : string -> nat -> option marks)
    (s : string) (pos : nat) : option marks :=
  match s with
  | String a s' =>
      if p a then
        match greedy p k s' (S pos) with
        | Some m => Some m
        | None => k s pos
        end
      else k s pos
  | EmptyString => k s pos
  end.

(** The backtracking matcher: [run r s pos m] matches [r] against the
    rest [s] of the subject, at position [pos], with marks [m]. *)
Fixpoint run (r : regex) (s : string) (pos : nat) (m : marks)
  : option marks :=
  match r with
  | [] => Some m
  | Bol :: r' => if decide (pos = 0%nat) then run r' s pos m else None
  | Eol :: r' =>
      if decide (s = EmptyString \/ s = String newline EmptyString)
      then run r' s pos m else None
  | Lit c :: r' =>
      match s with
      | String a s' => if decide (a = c) then run r' s' (S pos) m else None
      | EmptyString => None
      end
  | Opt p :: r' =>
      match s with
      | String a s' =>
          if p a then
            match run r' s' (S pos) m with
            | Some m' => Some m'
            | None => run r' s pos m
            end
          else run r' s pos m
      | EmptyString => run r' s pos m
      end
  | Star p :: r' => greedy p (fun s' pos' => run r' s' pos' m) s pos
  | Plus p :: r' =>
      match s with
      | String a s' =>
          if p a then greedy p (fun s'' pos' => run r' s'' pos' m) s' (S pos)
          else None
      | EmptyString => None
      end
  | Open g :: r' => run r' s pos ((g, false, pos) :: m)
  | Close g :: r' => run r' s pos ((g, true, pos) :: m)
  end.

(** A match object: the subject and the marks of the successful run. *)
Record Match : Type := { subject : string; spans : marks }.

(** [re.match(pattern, s)] *)
Definition match_ (r : regex) (s : string) : option Match :=
  match run r s 0 [] with
  | Some m => Some {| subject := s; spans := m |}
  | None => None
  end.

Fixpoint mark (g : nat) (closing : bool) (m : marks) : option nat :=
  match m with
  | [] => None
  | (g', b, pos) :: m' =>
      if decide (g' = g /\ b = closing) then Some pos else mark g closing m'
  end.

(** [m.group(g)] for a group that took part in the match. *)
Definition group (mo : Match) (g : nat) : string :=
  match mark g false (spans mo), mark g true (spans mo) with
  | Some i, Some j => String.substring i (j - i) (subject mo)
  | _, _ => EmptyString
  end.

(** What it means for a pattern to match, without the search: [matches r
    s pos m m'] when [r] matches a prefix of [s], read from position [pos]
    with marks [m], and leaves the marks [m']. *)
Inductive matches : regex -> string -> nat -> marks -> marks -> Prop :=
| matches_nil s pos m :
    matches [] s pos m m
| matches_bol r s m m' :
    matches r s 0 m m' -> matches (Bol :: r) s 0 m m'
| matches_eol r s pos m m' :
    s = EmptyString \/ s = String newline EmptyString ->
    matches r s pos m m' -> matches (Eol :: r) s pos m m'
| matches_lit c r s pos m m' :
    matches r s (S pos) m m' -> matches (Lit c :: r) (String c s) pos m m'
| matches_opt_take p r a s pos m m' :
    p a = true ->
    matches r s (S pos) m m' -> matches (Opt p :: r) (String a s) pos m m'
| matches_opt_skip p r s pos m m' :
    matches r s pos m m' -> matches (Opt p :: r) s pos m m'
| matches_star p r u v pos m m' :
    all p u = true ->
    matches r v (pos + String.length u) m m' ->
    matches (Star p :: r) (u +:+ v) pos m m'
| matches_plus p r a u v pos m m' :
    p a = true -> all p u = true ->
    matches r v (S pos + String.length u) m m' ->
    matches (Plus p :: r) (String a (u +:+ v)) pos m m'
| matches_open g r s pos m m' :
    matches r s pos ((g, false, pos) :: m) m' ->
    matches (Open g :: r) s pos m m'
| matches_close g r s pos m m' :
    matches r s pos ((g, true, pos) :: m) m' ->
    matches (Close g :: r) s pos m m'.

End Re.

(** ** mailer/database.py *)

Module Database.
Import Types Str.

(** *** extract_email_parts *)

(** The pattern of [re.match], node by node: the start of the string; an
    optional double quote; group 1, any number of characters other than
    a double quote and [<]; an optional double quote; any number of
    whitespace characters; [<]; group 2, one or more characters other
    than [>]; [>]; the end of the string. *)
Definition is_quote (c : ascii) : bool := bool_decide (c = dquote).
Definition name_char (c : ascii) : bool :=
  negb (bool_decide (c = dquote)) && negb (bool_decide (c = "<"%char)).
Definition addr_char (c : ascii) : bool := negb (bool_decide (c = ">"%char)).

Definition from_pattern : Re.regex :=
  [ Re.Bol; Re.Opt is_quote; Re.Open 1; Re.Star name_char; Re.Close 1;
    Re.Opt is_quote; Re.Star isspace; Re.Lit "<"; Re.Open 2;
    Re.Plus addr_char; Re.Close 2; Re.Lit ">"; Re.Eol ].

(** The last piece of [email.split] at the at-sign when the address has
    one, the empty string otherwise. *)
Definition domain_of (email : string) : string :=
  if contains "@" email then last_item (split "@" email) else EmptyString.

Definition extract_email_parts (from_header : string)
  : string * string * string :=
  let '(name, email) :=
    match Re.match_ from_pattern (strip from_header) with
    | Some mo => (strip (Re.group mo 1), lower (Re.group mo 2))
    | None => (EmptyString, lower (strip from_header))
    end in
  (email, name, domain_of email).

(** The headers the pattern accepts: an optional double quote, a name
    without double quote or [<], an optional double quote, whitespace, and
    an address without [>], not empty, between [<] and [>]. *)
Inductive address_form : string -> string -> string -> Prop :=
| AddressForm q1 name q2 ws addr :
    q1 = EmptyString \/ q1 = String dquote EmptyString ->
    q2 = EmptyString \/ q2 = String dquote EmptyString ->
    all name_char name = true ->
    all isspace ws = true ->
    addr ≠ EmptyString ->
    all addr_char addr = true ->
    address_form (q1 +:+ name +:+ q2 +:+ ws +:+ "<" +:+ addr +:+ ">")
                 name addr.

(** *** The schema of create_database

    One record per table, one field per column, under the SQL names. *)

Module Emails.
Record row : Type := {
  rowid : Z;
  id : string;
  thread_id : string;
  from_email : string;
  from_name : string;
  from_domain : string;
  to_emails : json;
  cc_emails : json;
  subject : string;
  body : string;
  body_html : string;
  snippet : string;
  label_ids : json;
  date_header : string;
  timestamp : Z;
  size_estimate : Z;
  has_attachments : Z;
  created_at : string;
  updated_at : string
}.
End Emails.

Module Attachments.
Record row : Type := {
  id : Z;
  message_id : string;
  attachment_id : string;
  filename : string;
  mime_type : string;
  size : Z
}.
End Attachments.

(** The entries of the full-text index [emails_fts]: the index is an
    external-content one ([content='emails']), it holds what the triggers
    fed it, under the rowid they gave. *)
Module EmailsFts.
Record row : Type := {
  rowid : Z;
  subject : string;
  body : string;
  from_email : string
}.
End EmailsFts.

(** The tables; [sqlite_sequence] is the row SQLite keeps for
    [attachments]: the largest AUTOINCREMENT id handed out so far. *)
Record Tables : Type := {
  emails : list Emails.row;
  attachments : list Attachments.row;
  sqlite_sequence : Z;
  emails_fts : list EmailsFts.row
}.

Definition no_tables : Tables :=
  {| emails := []; attachments := []; sqlite_sequence := 0;
     emails_fts := [] |}.

(** A connection: the tables as this connection sees them, the tables as
    last committed, and the clock ([ticks] counts the calls of
    [datetime.now] so far). *)
Record Connection : Type := {
  tables : Tables;
  committed : Tables;
  ticks : nat
}.

(** [create_database(db_path)]: every statement of the script is
    [IF NOT EXISTS], so a database that exists keeps its rows and a new
    one starts empty. *)
Definition create_database (file : option Tables) : Connection :=
  let t := default no_tables file in
  {| tables := t; committed := t; ticks := 0%nat |}.

(** The object handed to [insert_email]. Its declared type is
    [GmailMessage]; the function also probes attributes that type does
    not declare, each modelled by an option: [None] when the object has
    no such attribute. *)
Record EmailObject : Type := {
  fields : GmailMessage;
  attr_cc : option (list string);
  attr_body_html : option string;
  attr_date : option string;
  attr_size_estimate : option Z;
  attr_attachments : option (list GmailAttachment)
}.

(** A value of the declared type: none of the extra attributes. *)
Definition of_message (m : GmailMessage) : EmailObject :=
  {| fields := m; attr_cc := None; attr_body_html := None;
     attr_date := None; attr_size_estimate := None;
     attr_attachments := None |}.

(** [obj.name] for an attribute that may be missing. *)
Definition getattr {S A} (name : string) (a : option A) : M S A :=
  match a with
  | Some v => ret v
  | None => raise (AttributeError name)
  end.

(** Truth value of a list. *)
Definition truthy {A} (l : list A) : bool :=
  match l with [] => false | _ => true end.

(** The rows of the two aggregate queries of [get_stats], and the dict it
    returns, one field per key. *)
Module TopDomains.
Record row : Type := {
  from_domain : string;
  count : Z
}.
End TopDomains.

Module TopSenders.
Record row : Type := {
  from_email : string;
  from_name : string;
  count : Z
}.
End TopSenders.

Record Stats : Type := {
  total_emails : Z;
  total_threads : Z;
  unique_domains : Z;
  top_domains : list TopDomains.row;
  top_senders : list TopSenders.row
}.

Section Engine.

(** [clock n]: the [n]-th [datetime.now().isoformat()]. *)
Variable clock : nat -> string.

(** [current_timestamp n]: SQLite's CURRENT_TIMESTAMP after [n] calls
    of [datetime.now]. *)
Variable current_timestamp : nat -> string.

(** PRAGMA recursive_triggers of the connection. The module never sets
    it; SQLite's default is off. When REPLACE deletes a row to resolve
    a conflict, delete triggers fire if and only if it is on. *)
Variable recursive_triggers : bool.

(** The full-text engine: whether an index entry matches a MATCH query,
    and the order [ORDER BY rank] puts the matching entries in. *)
Variable fts_match : string -> EmailsFts.row -> bool.
Variable order_by_rank :
  string -> list EmailsFts.row -> list EmailsFts.row.

Definition set_tables (t : Tables) (c : Connection) : Connection :=
  {| tables := t; committed := committed c; ticks := ticks c |}.

Definition execute (f : Tables -> Tables) : M Connection unit :=
  modify (fun c => set_tables (f (tables c)) c).

Definition now : M Connection string := fun c =>
  (Ok (clock (ticks c)),
   {| tables := tables c; committed := committed c;
      ticks := S (ticks c) |}).

(** [conn.commit()] *)
Definition commit : M Connection unit :=
  modify (fun c =>
    {| tables := tables c; committed := tables c; ticks := ticks c |}).

Definition with_emails_fts (l : list EmailsFts.row) (t : Tables) :=
  {| emails := emails t; attachments := attachments t;
     sqlite_sequence := sqlite_sequence t; emails_fts := l |}.

Definition with_emails (l : list Emails.row) (t : Tables) :=
  {| emails := l; attachments := attachments t;
     sqlite_sequence := sqlite_sequence t; emails_fts := emails_fts t |}.

Definition fts_entry (r : Emails.row) : EmailsFts.row :=
  {| EmailsFts.rowid := Emails.rowid r;
     EmailsFts.subject := Emails.subject r;
     EmailsFts.body := Emails.body r;
     EmailsFts.from_email := Emails.from_email r |}.

(** Trigger [emails_ai]: AFTER INSERT, add the new row to the index. *)
Definition emails_ai (new : Emails.row) (t : Tables) : Tables :=
  with_emails_fts (emails_fts t ++ [fts_entry new]) t.

(** The ['delete'] command of the index: drop the entry of a rowid. *)
Definition fts_delete (old : Emails.row) (l : list EmailsFts.row)
  : list EmailsFts.row :=
  filter (fun d => EmailsFts.rowid d ≠ Emails.rowid old) l.

(** Trigger [emails_ad]: AFTER DELETE, drop the old row from the
    index. *)
Definition emails_ad (old : Emails.row) (t : Tables) : Tables :=
  with_emails_fts (fts_delete old (emails_fts t)) t.

(** Trigger [emails_au]: AFTER UPDATE, drop the old row from the index
    and add the new one. No statement of this module is an UPDATE. *)
Definition emails_au (old new : Emails.row) (t : Tables) : Tables :=
  with_emails_fts (fts_delete old (emails_fts t) ++ [fts_entry new]) t.

(** The rowid SQLite gives a row inserted without one: one more than
    the largest rowid in the table, 1 in an empty table. *)
Definition next_rowid (l : list Emails.row) : Z :=
  1 + foldr Z.max 0 (Emails.rowid <$> l).

(** [SELECT id FROM emails WHERE id = ?] followed by
    [fetchone() is not None]. *)
Definition id_exists (i : string) (t : Tables) : bool :=
  bool_decide (Exists (fun r => Emails.id r = i) (emails t)).

(** [INSERT OR REPLACE INTO emails (...) VALUES (...)]: [new] carries
    the seventeen values of the statement. The rowid is drawn first;
    the rows in conflict on the primary key [id] are deleted (their
    delete trigger fires only under recursive triggers); the row is
    inserted with [created_at] at its default, and [emails_ai]
    fires. *)
Definition insert_or_replace_email (ts : string) (new : Emails.row)
    (t : Tables) : Tables :=
  let rid := next_rowid (emails t) in
  let old := filter (fun r => Emails.id r = Emails.id new) (emails t) in
  let kept := filter (fun r => Emails.id r ≠ Emails.id new) (emails t) in
  let t1 := with_emails kept t in
  let t2 := if recursive_triggers then foldr emails_ad t1 old else t1 in
  let row :=
    {| Emails.rowid := rid;
       Emails.id := Emails.id new;
       Emails.thread_id := Emails.thread_id new;
       Emails.from_email := Emails.from_email new;
       Emails.from_name := Emails.from_name new;
       Emails.from_domain := Emails.from_domain new;
       Emails.to_emails := Emails.to_emails new;
       Emails.cc_emails := Emails.cc_emails new;
       Emails.subject := Emails.subject new;
       Emails.body := Emails.body new;
       Emails.body_html := Emails.body_html new;
       Emails.snippet := Emails.snippet new;
       Emails.label_ids := Emails.label_ids new;
       Emails.date_header := Emails.date_header new;
       Emails.timestamp := Emails.timestamp new;
       Emails.size_estimate := Emails.size_estimate new;
       Emails.has_attachments := Emails.has_attachments new;
       Emails.created_at := ts;
       Emails.updated_at := Emails.updated_at new |} in
  emails_ai row (with_emails (emails t2 ++ [row]) t2).

(** [INSERT OR REPLACE INTO attachments (...) VALUES (...)] with an
    [attachment_id] that is not NULL: the rows in conflict on
    UNIQUE(message_id, attachment_id) are deleted, and the new row takes
    the next AUTOINCREMENT id. *)
Definition replace_attachment (message_id aid : string)
    (att : GmailAttachment) (t : Tables) : Tables :=
  let same (r : Attachments.row) :=
    Attachments.message_id r = message_id
    /\ Attachments.attachment_id r = aid in
  let kept := filter (fun r => ¬ same r) (attachments t) in
  let new_id :=
    1 + Z.max (sqlite_sequence t)
              (foldr Z.max 0 (Attachments.id <$> attachments t)) in
  {| emails := emails t;
     attachments :=
       kept ++ [ {| Attachments.id := new_id;
                    Attachments.message_id := message_id;
                    Attachments.attachment_id := aid;
                    Attachments.filename := Types.filename att;
                    Attachments.mime_type := Types.mime_type att;
                    Attachments.size := Types.size att |} ];
     sqlite_sequence := new_id;
     emails_fts := emails_fts t |}.

(** The statement executed for one attachment: a NULL [attachment_id]
    violates NOT NULL and aborts it. *)
Definition insert_or_replace_attachment (message_id : string)
    (att : GmailAttachment) : M Connection unit :=
  match Types.attachment_id att with
  | None => raise IntegrityError
  | Some aid => execute (replace_attachment message_id aid att)
  end.

Fixpoint insert_attachments (message_id : string)
    (atts : list GmailAttachment) : M Connection unit :=
  match atts with
  | [] => ret tt
  | att :: rest =>
      insert_or_replace_attachment message_id att ;;;
      insert_attachments message_id rest
  end.

(** The values bound to the first statement of [insert_email], but for
    the two that are read from the environment: whether the object has
    attachments, and the time of the call. The attributes the declared
    type lacks are probed with [hasattr] and defaulted. *)
Definition email_values (email : EmailObject) (has_att : Z)
    (updated : string) : Emails.row :=
  let '(email_addr, name, domain) :=
    extract_email_parts (Types.from_email (fields email)) in
  {| Emails.rowid := 0;
     Emails.id := Types.id (fields email);
     Emails.thread_id := Types.thread_id (fields email);
     Emails.from_email := email_addr;
     Emails.from_name := name;
     Emails.from_domain := domain;
     Emails.to_emails := json_dumps (Types.to (fields email));
     Emails.cc_emails := match attr_cc email with
                         | Some l => json_dumps l
                         | None => JArr []
                         end;
     Emails.subject := Types.subject (fields email);
     Emails.body := Types.body (fields email);
     Emails.body_html := default EmptyString (attr_body_html email);
     Emails.snippet := Types.snippet (fields email);
     Emails.label_ids := json_dumps (Types.label_ids (fields email));
     Emails.date_header := default EmptyString (attr_date email);
     Emails.timestamp := Types.timestamp (fields email);
     Emails.size_estimate := default 0 (attr_size_estimate email);
     Emails.has_attachments := has_att;
     Emails.created_at := EmptyString;
     Emails.updated_at := updated |}.

(** [insert_email(conn, email)]. The arguments of the first
    [conn.execute] are evaluated left to right before the statement runs:
    [email.attachments] is read while the tuple is built, and the clock
    after it. *)
Definition insert_email (email : EmailObject) : M Connection bool :=
  c <~ get ;;
  let exists_ := id_exists (Types.id (fields email)) (tables c) in
  atts <~ getattr "attachments" (attr_attachments email) ;;
  let has_att := if truthy atts then 1 else 0 in
  updated <~ now ;;
  c' <~ get ;;
  execute (insert_or_replace_email (current_timestamp (ticks c'))
             (email_values email has_att updated)) ;;;
  atts1 <~ getattr "attachments" (attr_attachments email) ;;
  (if truthy atts1 then
     atts2 <~ getattr "attachments" (attr_attachments email) ;;
     insert_attachments (Types.id (fields email)) atts2
   else ret tt) ;;;
  ret (negb exists_).

Fixpoint insert_loop (emails : list EmailObject) (new_count : Z)
  : M Connection Z :=
  match emails with
  | [] => ret new_count
  | email :: rest =>
      is_new <~ insert_email email ;;
      insert_loop rest (if is_new then new_count + 1 else new_count)
  end.

Definition insert_emails (emails : list EmailObject) : M Connection Z :=
  new_count <~ insert_loop emails 0 ;;
  commit ;;;
  ret new_count.

(** [LIMIT n]: a negative limit is no limit. *)
Definition sql_limit {A} (n : Z) (l : list A) : list A :=
  if n <? 0 then l else take (Z.to_nat n) l.

(** [search_emails(conn, query, limit)]: the matching index entries, in
    rank order, each joined with the rows of [emails] under its
    rowid. This is what the statement returns for a query the engine
    takes ([simple_query] below is enough for that) and a limit that is an
    integer of SQLite; for another query [execute] can raise
    [OperationalError], a syntax error of the query language. *)
Definition search_emails (query : string) (limit : Z) (c : Connection)
  : list Emails.row :=
  sql_limit limit
    (order_by_rank query (filter (fun d => fts_match query d = true)
                                 (emails_fts (tables c)))
     ≫= fun d => filter (fun e => Emails.rowid e = EmailsFts.rowid d)
                        (emails (tables c))).

(** *** Vocabulary of the statements about the archive *)

(** The integers a column of SQLite holds: 64 bits, signed. Binding a
    Python [int] outside this range raises [OverflowError]; the statements
    that say what a call does are for integers within it. *)
Definition sqlite_int (z : Z) : Prop := - 2 ^ 63 <= z < 2 ^ 63.

(** The integers [insert_email] binds for an object and its attachments
    are integers of SQLite. *)
Definition binds_ints (email : EmailObject) (atts : list GmailAttachment)
  : Prop :=
  sqlite_int (Types.timestamp (fields email))
  /\ sqlite_int (default 0 (attr_size_estimate email))
  /\ Forall (fun a => sqlite_int (Types.size a)) atts.

(** Queries the full-text engine takes whatever its tokenizer: words of
    letters and digits, each a term, separated by spaces, none of them an
    operator of the query language. An empty query, or one with other
    punctuation, can be a syntax error, for which [execute] raises
    [OperationalError]. *)
Definition word_char (c : ascii) : bool :=
  let n := nat_of_ascii c in
  ((48 <=? n) && (n <=? 57) || (65 <=? n) && (n <=? 90)
   || (97 <=? n) && (n <=? 122))%nat.

Definition query_words (query : string) : list string :=
  filter (fun w => w ≠ EmptyString) (split " " query).

Definition simple_query (query : string) : bool :=
  bool_decide (query_words query ≠ [])
  && forallb (fun w => all word_char w
                       && bool_decide (w ∉ ["AND"; "OR"; "NOT"; "NEAR"]))
       (query_words query).

(** A row of [emails] without what the engine and the clock put in it:
    the rowid and the two time columns. *)
Definition email_content (r : Emails.row) : Emails.row :=
  {| Emails.rowid := 0;
     Emails.id := Emails.id r;
     Emails.thread_id := Emails.thread_id r;
     Emails.from_email := Emails.from_email r;
     Emails.from_name := Emails.from_name r;
     Emails.from_domain := Emails.from_domain r;
     Emails.to_emails := Emails.to_emails r;
     Emails.cc_emails := Emails.cc_emails r;
     Emails.subject := Emails.subject r;
     Emails.body := Emails.body r;
     Emails.body_html := Emails.body_html r;
     Emails.snippet := Emails.snippet r;
     Emails.label_ids := Emails.label_ids r;
     Emails.date_header := Emails.date_header r;
     Emails.timestamp := Emails.timestamp r;
     Emails.size_estimate := Emails.size_estimate r;
     Emails.has_attachments := Emails.has_attachments r;
     Emails.created_at := EmptyString;
     Emails.updated_at := EmptyString |}.

(** The connection after the first statement of [insert_email]. *)
Definition after_insert (email : EmailObject) (atts : list GmailAttachment)
    (c : Connection) : Connection :=
  {| tables :=
       insert_or_replace_email (current_timestamp (S (ticks c)))
         (email_values email (if truthy atts then 1 else 0)
            (clock (ticks c)))
         (tables c);
     committed := committed c;
     ticks := S (ticks c) |}.

(** The attachments of a call, each with its id; one without id is left
    out (the call raises on it). *)
Definition keyed (atts : list GmailAttachment)
  : list (string * GmailAttachment) :=
  omap (fun a => (fun aid => (aid, a)) <$> Types.attachment_id a) atts.

(** The attachment statements of a call, on the rows without their ids:
    [aid_atts] pairs each attachment with its (non NULL) id. *)
Definition same_key (mid aid : string) (r : Attachments.row) : Prop :=
  Attachments.message_id r = mid /\ Attachments.attachment_id r = aid.

Definition content_row (mid : string) (p : string * GmailAttachment)
  : Attachments.row :=
  {| Attachments.id := 0;
     Attachments.message_id := mid;
     Attachments.attachment_id := p.1;
     Attachments.filename := Types.filename p.2;
     Attachments.mime_type := Types.mime_type p.2;
     Attachments.size := Types.size p.2 |}.

Definition content_put (mid : string) (l : list Attachments.row)
    (p : string * GmailAttachment) : list Attachments.row :=
  filter (fun r => ¬ same_key mid p.1 r) l ++ [content_row mid p].

Definition hit (mid : string) (ps : list (string * GmailAttachment))
    (r : Attachments.row) : Prop :=
  Attachments.message_id r = mid /\ Attachments.attachment_id r ∈ ps.*1.

(** A row of [attachments] without its AUTOINCREMENT id. *)
Definition attachment_content (r : Attachments.row) : Attachments.row :=
  {| Attachments.id := 0;
     Attachments.message_id := Attachments.message_id r;
     Attachments.attachment_id := Attachments.attachment_id r;
     Attachments.filename := Attachments.filename r;
     Attachments.mime_type := Attachments.mime_type r;
     Attachments.size := Attachments.size r |}.

(** *** The queries on emails

    The rows are those this module writes: no column of a row is NULL.
    A returned row stands for the dict of its columns. *)

(** [ORDER BY key DESC] on an integer key. SQL leaves the order of rows
    with equal keys to the engine. *)
Variable order_by_desc : forall A : Type, (A -> Z) -> list A -> list A.

(** The row an aggregate query reads a bare column from: one row of the
    group, which one is up to the engine. The group is given by its first
    row and the others. *)
Variable bare_row : Emails.row -> list Emails.row -> Emails.row.

(** [get_emails_by_domain(conn, domain, limit)] *)
Definition get_emails_by_domain (domain : string) (limit : Z)
    (c : Connection) : list Emails.row :=
  sql_limit limit
    (order_by_desc _ Emails.timestamp
       (filter (fun e => Emails.from_domain e
                         = lstrip_chars "@" (lower domain))
               (emails (tables c)))).

(** [get_emails_by_sender(conn, email, limit)] *)
Definition get_emails_by_sender (email : string) (limit : Z)
    (c : Connection) : list Emails.row :=
  sql_limit limit
    (order_by_desc _ Emails.timestamp
       (filter (fun e => Emails.from_email e = lower email)
               (emails (tables c)))).

(** [get_all_emails(conn, limit)] *)
Definition get_all_emails (limit : Z) (c : Connection) : list Emails.row :=
  sql_limit limit (order_by_desc _ Emails.timestamp (emails (tables c))).

(** [COUNT(DISTINCT key)] *)
Definition count_distinct (key : Emails.row -> string)
    (l : list Emails.row) : Z :=
  Z.of_nat (length (remove_dups (key <$> l))).

(** The group of a key value under [GROUP BY key]. *)
Definition group_of (key : Emails.row -> string) (k : string)
    (l : list Emails.row) : list Emails.row :=
  filter (fun e => key e = k) l.

(** [get_stats(conn)] *)
Definition get_stats (c : Connection) : Stats :=
  let rows := emails (tables c) in
  {| total_emails := Z.of_nat (length rows);
     total_threads := count_distinct Emails.thread_id rows;
     unique_domains := count_distinct Emails.from_domain rows;
     top_domains :=
       sql_limit 10
         (order_by_desc _ TopDomains.count
            ((fun d =>
                {| TopDomains.from_domain := d;
                   TopDomains.count :=
                     Z.of_nat (length (group_of Emails.from_domain d rows))
                |})
             <$> remove_dups (Emails.from_domain <$> rows)));
     top_senders :=
       sql_limit 10
         (order_by_desc _ TopSenders.count
            ((fun a =>
                let g := group_of Emails.from_email a rows in
                {| TopSenders.from_email := a;
                   TopSenders.from_name :=
                     match g with
                     | r :: g' => Emails.from_name (bare_row r g')
                     | [] => EmptyString
                     end;
                   TopSenders.count := Z.of_nat (length g) |})
             <$> remove_dups (Emails.from_email <$> rows))) |}.

(** *** Vocabulary of the statements about the queries *)

(** The keys of a table: [id] is the PRIMARY KEY of [emails], and every
    row has a rowid of its own. *)
Definition keys_ok (t : Tables) : Prop :=
  NoDup (Emails.id <$> emails t) /\ NoDup (Emails.rowid <$> emails t).

(** The full-text index serves the table: every row has its entry, an
    entry under the rowid of a row is the entry of that row, no two
    entries share a rowid, and no entry has a rowid the table has yet to
    hand out. Entries under rowids no row has any more may remain. *)
Definition fts_serves (t : Tables) : Prop :=
  (forall r, r ∈ emails t -> fts_entry r ∈ emails_fts t)
  /\ (forall d r, d ∈ emails_fts t -> r ∈ emails t ->
        EmailsFts.rowid d = Emails.rowid r -> d = fts_entry r)
  /\ NoDup (EmailsFts.rowid <$> emails_fts t)
  /\ (forall d, d ∈ emails_fts t ->
        EmailsFts.rowid d < next_rowid (emails t)).

(** The connections a program reaches from a new database file with the
    functions of this module, each call returning or raising; a
    connection opened on the file later finds what was committed. *)
Inductive built : Connection -> Prop :=
| built_create :
    built (create_database None)
| built_insert_email email c :
    built c -> built (insert_email email c).2
| built_insert_emails batch c :
    built c -> built (insert_emails batch c).2
| built_commit c :
    built c -> built (commit c).2
| built_reopen c :
    built c -> built (create_database (Some (committed c))).

(** The ids of a table, and of a batch. *)
Definition table_ids (t : Tables) : gset string :=
  list_to_set (Emails.id <$> emails t).

Definition batch_ids (batch : list EmailObject) : gset string :=
  list_to_set ((Types.id ∘ fields) <$> batch).

(** Sorted by a key, largest first. *)
Definition sorted_desc {A} (key : A -> Z) (l : list A) : Prop :=
  StronglySorted (fun x y => key y <= key x) l.

End Engine.

(** *** Sample data for the examples *)

Definition sample_attachment : GmailAttachment :=
  {| Types.filename := "report.pdf"; Types.mime_type := "application/pdf";
     Types.size := 1024; Types.attachment_id := Some "att1" |}.

(** A quoted name with blanks inside the quotes. *)
Definition padded_header : string :=
  String dquote (" John " +:+ String dquote " <A@b.c>").

(** An object with the declared fields of [m] and an [attachments]
    attribute. *)
Definition with_attachments (m : GmailMessage)
    (atts : list GmailAttachment) : EmailObject :=
  {| fields := m; attr_cc := None; attr_body_html := None;
     attr_date := None; attr_size_estimate := None;
     attr_attachments := Some atts |}.

(** An engine for the examples: a sort that keeps rows with equal keys
    in table order, and bare columns read from the last row of a
    group. *)
Fixpoint insert_desc {A} (key : A -> Z) (x : A) (l : list A) : list A :=
  match l with
  | [] => [x]
  | y :: l' => if key y <=? key x then x :: l else y :: insert_desc key x l'
  end.

Definition sort_desc (A : Type) (key : A -> Z) (l : list A) : list A :=
  foldr (insert_desc key) [] l.

Definition last_row (r : Emails.row) (g : list Emails.row) : Emails.row :=
  List.last g r.

(** An attachment without an id. *)
Definition inline_attachment : GmailAttachment :=
  {| Types.filename := "logo.png"; Types.mime_type := "image/png";
     Types.size := 10; Types.attachment_id := None |}.

(** A message from a sender written with a name and capitals. *)
Definition from_jane (i : string) (ts : Z) : GmailMessage :=
  {| Types.id := i; Types.thread_id := "t1"; Types.label_ids := [];
     Types.snippet := EmptyString;
     Types.from_email := "Jane Roe <Jane@Example.COM>"; Types.to := [];
     Types.subject := "hello"; Types.body := EmptyString;
     Types.timestamp := ts |}.

(** A full-text engine for the examples: a query matches the entries
    whose subject it is, in index order. *)
Definition subject_is (query : string) (d : EmailsFts.row) : bool :=
  bool_decide (EmailsFts.subject d = query).

Definition index_order (query : string) (l : list EmailsFts.row)
  : list EmailsFts.row := l.

(** Three messages, the second the most recent. *)
Definition three : Connection :=
  (insert_emails Storage.clock0 Storage.clock0 false
     [with_attachments (from_jane "m1" 10) [];
      with_attachments (from_jane "m2" 30) [];
      with_attachments (from_jane "m3" 20) []]
     (create_database None)).2.

End Database.

(** * Statements and proofs *)

(** ** Strings *)

Module StrSpec.
Import Str.
Local Open Scope nat_scope.

Lemma string_app_cons x (a b : string) : String x a +:+ b = String x (a +:+ b).
Proof. reflexivity. Qed.

Lemma string_app_nil_l (a : string) : EmptyString +:+ a = a.
Proof. reflexivity. Qed.

Lemma string_app_nil_r (a : string) : a +:+ EmptyString = a.
Proof. induction a as [|x a IH]; [done|]. by rewrite string_app_cons, IH. Qed.

Lemma string_app_assoc (a b c : string) : (a +:+ b) +:+ c = a +:+ (b +:+ c).
Proof. induction a as [|x a IH]; [done|]. by rewrite !string_app_cons, IH. Qed.

Lemma string_length_app (a b : string) :
  String.length (a +:+ b) = String.length a + String.length b.
Proof. induction a as [|x a IH]; [done|]. rewrite string_app_cons. cbn. by rewrite IH. Qed.

Lemma all_app p (a b : string) : all p (a +:+ b) = all p a && all p b.
Proof.
  induction a as [|x a IH]; [done|]. rewrite string_app_cons. cbn.
  rewrite IH. by rewrite andb_assoc.
Qed.

Lemma substring_app (a b c : string) :
  String.substring (String.length a) (String.length b) (a +:+ b +:+ c) = b.
Proof.
  induction a as [|x a IH]; [|by rewrite string_app_cons].
  rewrite string_app_nil_l. cbn [String.length].
  induction b as [|y b IHb].
  - by destruct c.
  - rewrite string_app_cons. cbn. by rewrite IHb.
Qed.

Lemma list_ascii_of_string_app (s t : string) :
  list_ascii_of_string (s +:+ t)
  = (list_ascii_of_string s ++ list_ascii_of_string t)%list.
Proof.
  induction s as [|x s IH]; [done|].
  rewrite string_app_cons. cbn. by rewrite IH.
Qed.

Lemma string_app_inv_tail (a b c : string) : a +:+ c = b +:+ c -> a = b.
Proof.
  intros H.
  apply (f_equal list_ascii_of_string) in H.
  rewrite !list_ascii_of_string_app in H.
  apply app_inv_tail in H.
  rewrite <- (string_of_list_ascii_of_string a),
          <- (string_of_list_ascii_of_string b). by rewrite H.
Qed.

End StrSpec.

(** ** The pattern matcher *)

Module ReSpec.
Import Str Re StrSpec.
Local Open Scope nat_scope.

(** *** The search finds a match exactly when there is one *)

Lemma greedy_sound p k (s : string) pos x :
  greedy p k s pos = Some x ->
  exists u v, s = u +:+ v /\ all p u = true
              /\ k v (pos + String.length u) = Some x.
Proof.
  revert pos. induction s as [|a s IH]; intros pos; cbn.
  - intros H. exists EmptyString, EmptyString. by rewrite Nat.add_0_r.
  - destruct (p a) eqn:Hp.
    + destruct (greedy p k s (S pos)) as [y|] eqn:Hg.
      * intros [= <-]. destruct (IH _ Hg) as (u & v & -> & Hu & Hk).
        exists (String a u), v. rewrite string_app_cons. cbn. rewrite Hp, Hu.
        split; [done|]. split; [done|].
        by rewrite <- Nat.add_succ_comm.
      * intros H. exists EmptyString, (String a s). by rewrite Nat.add_0_r.
    + intros H. exists EmptyString, (String a s). by rewrite Nat.add_0_r.
Qed.

Lemma greedy_complete p k (u v : string) pos :
  all p u = true ->
  is_Some (k v (pos + String.length u)) ->
  is_Some (greedy p k (u +:+ v) pos).
Proof.
  revert pos. induction u as [|a u IH]; intros pos Hu Hk.
  - rewrite string_app_nil_l. cbn in Hk. rewrite Nat.add_0_r in Hk.
    destruct v as [|b v]; cbn; [done|].
    destruct (p b); [|done]. by destruct (greedy p k v (S pos)).
  - rewrite string_app_cons. cbn in *. apply andb_prop in Hu as [Ha Hu].
    rewrite Ha. rewrite Nat.add_succ_r in Hk.
    destruct (IH (S pos) Hu Hk) as [y ->]. done.
Qed.

Lemma run_sound (r : regex) (s : string) pos m m' :
  run r s pos m = Some m' -> matches r s pos m m'.
Proof.
  revert s pos m. induction r as [|nd r IH]; intros s pos m; cbn.
  - intros [= <-]. constructor.
  - destruct nd as [| |c|p|p|p|g|g].
    + destruct (decide (pos = 0)) as [->|]; [|done].
      intros H. constructor. by apply IH.
    + destruct (decide _) as [Hs|]; [|done].
      intros H. constructor; [done|]. by apply IH.
    + destruct s as [|a s]; [done|].
      destruct (decide (a = c)) as [->|]; [|done].
      intros H. constructor. by apply IH.
    + destruct s as [|a s].
      * intros H. apply matches_opt_skip. by apply IH.
      * destruct (p a) eqn:Hp.
        -- destruct (run r s (S pos) m) as [y|] eqn:Hr.
           ++ intros [= <-]. apply matches_opt_take; [done|]. by apply IH.
           ++ intros H. apply matches_opt_skip. by apply IH.
        -- intros H. apply matches_opt_skip. by apply IH.
    + intros (u & v & -> & Hu & Hk)%greedy_sound.
      apply matches_star; [done|]. by apply IH.
    + destruct s as [|a s]; [done|].
      destruct (p a) eqn:Hp; [|done].
      intros (u & v & -> & Hu & Hk)%greedy_sound.
      apply matches_plus; [done..|]. by apply IH.
    + intros H. constructor. by apply IH.
    + intros H. constructor. by apply IH.
Qed.

Lemma run_complete (r : regex) (s : string) pos m m' :
  matches r s pos m m' -> is_Some (run r s pos m).
Proof.
  induction 1; cbn.
  - done.
  - done.
  - by rewrite decide_True.
  - by rewrite decide_True.
  - rewrite H. by destruct (run r s (S pos) m).
  - destruct s as [|a s]; [done|].
    destruct (p a); [|done]. by destruct (run r s (S pos) m).
  - by apply greedy_complete.
  - rewrite H. by apply greedy_complete.
  - done.
  - done.
Qed.

(** *** Reading a match back, node by node *)

Lemma matches_bol_inv r (s : string) pos m m' :
  matches (Bol :: r) s pos m m' -> pos = 0 /\ matches r s 0 m m'.
Proof. by inversion 1. Qed.

Lemma matches_eol_inv r (s : string) pos m m' :
  matches (Eol :: r) s pos m m' ->
  (s = EmptyString \/ s = String newline EmptyString)
  /\ matches r s pos m m'.
Proof. by inversion 1. Qed.

Lemma matches_lit_inv c r (s : string) pos m m' :
  matches (Lit c :: r) s pos m m' ->
  exists s', s = String c s' /\ matches r s' (S pos) m m'.
Proof. inversion 1; subst. by eexists. Qed.

Lemma matches_opt_inv p r (s : string) pos m m' :
  matches (Opt p :: r) s pos m m' ->
  exists q s', s = q +:+ s'
    /\ (q = EmptyString \/ exists a, q = String a EmptyString /\ p a = true)
    /\ matches r s' (pos + String.length q) m m'.
Proof.
  inversion 1; subst.
  - exists (String a EmptyString), s0. split; [done|].
    split; [right; by exists a|]. cbn. by rewrite Nat.add_1_r.
  - exists EmptyString, s. split; [done|]. split; [by left|].
    cbn. by rewrite Nat.add_0_r.
Qed.

Lemma matches_star_inv p r (s : string) pos m m' :
  matches (Star p :: r) s pos m m' ->
  exists u v, s = u +:+ v /\ all p u = true
    /\ matches r v (pos + String.length u) m m'.
Proof. inversion 1; subst. by eexists _, _. Qed.

Lemma matches_plus_inv p r (s : string) pos m m' :
  matches (Plus p :: r) s pos m m' ->
  exists u v, s = u +:+ v /\ u ≠ EmptyString /\ all p u = true
    /\ matches r v (pos + String.length u) m m'.
Proof.
  inversion 1 as [| | | | | | |p0 r0 a u v pos0 m0 m0' Ha Hu Hm| |]; subst.
  exists (String a u), v. split; [done|].
  split; [done|]. cbn. split; [by rewrite Ha, Hu|].
  by rewrite Nat.add_succ_r.
Qed.

Lemma matches_open_inv g r (s : string) pos m m' :
  matches (Open g :: r) s pos m m' ->
  matches r s pos ((g, false, pos) :: m) m'.
Proof. by inversion 1. Qed.

Lemma matches_close_inv g r (s : string) pos m m' :
  matches (Close g :: r) s pos m m' ->
  matches r s pos ((g, true, pos) :: m) m'.
Proof. by inversion 1. Qed.

Lemma matches_nil_inv (s : string) pos m m' :
  matches [] s pos m m' -> m' = m.
Proof. by inversion 1. Qed.

End ReSpec.

Module ParsingSpec.
Import Str Re StrSpec ReSpec Database.
Local Open Scope nat_scope.

Lemma quote_cases (q : string) :
  (q = EmptyString \/
   exists a, q = String a EmptyString /\ is_quote a = true) ->
  q = EmptyString \/ q = String dquote EmptyString.
Proof.
  intros [->|(a & -> & Ha)]; [by left|right].
  unfold is_quote in Ha. apply bool_decide_eq_true in Ha. by subst.
Qed.

Lemma group_spans (t : string) p1 p2 p3 p4 :
  let mo := {| subject := t;
               spans := [(2, true, p4); (2, false, p3);
                         (1, true, p2); (1, false, p1)] |} in
  group mo 1 = String.substring p1 (p2 - p1) t
  /\ group mo 2 = String.substring p3 (p4 - p3) t.
Proof. split; reflexivity. Qed.

(** What a match of the pattern says about the subject and the groups. *)
Lemma from_pattern_inv (t : string) m' :
  matches from_pattern t 0 [] m' ->
  exists q1 name q2 ws addr tail,
    t = q1 +:+ name +:+ q2 +:+ ws +:+ "<" +:+ addr +:+ ">" +:+ tail
    /\ (q1 = EmptyString \/ q1 = String dquote EmptyString)
    /\ (q2 = EmptyString \/ q2 = String dquote EmptyString)
    /\ all name_char name = true
    /\ all isspace ws = true
    /\ addr ≠ EmptyString
    /\ all addr_char addr = true
    /\ (tail = EmptyString \/ tail = String newline EmptyString)
    /\ group {| subject := t; spans := m' |} 1 = name
    /\ group {| subject := t; spans := m' |} 2 = addr.
Proof.
  unfold from_pattern. intros H.
  apply matches_bol_inv in H as [_ H].
  apply matches_opt_inv in H as (q1 & t1 & -> & Hq1 & H).
  apply matches_open_inv in H.
  apply matches_star_inv in H as (name & t2 & -> & Hname & H).
  apply matches_close_inv in H.
  apply matches_opt_inv in H as (q2 & t3 & -> & Hq2 & H).
  apply matches_star_inv in H as (ws & t4 & -> & Hws & H).
  apply matches_lit_inv in H as (t5 & -> & H).
  apply matches_open_inv in H.
  apply matches_plus_inv in H as (addr & t6 & -> & Hne & Haddr & H).
  apply matches_close_inv in H.
  apply matches_lit_inv in H as (tail & -> & H).
  apply matches_eol_inv in H as [Htail H].
  apply matches_nil_inv in H. subst m'.
  exists q1, name, q2, ws, addr, tail.
  split; [done|]. split; [by apply quote_cases|].
  split; [by apply quote_cases|]. do 5 (split; [done|]).
  match goal with |- group {| subject := ?t; spans := [(_, _, ?p4);
      (_, _, ?p3); (_, _, ?p2); (_, _, ?p1)] |} _ = _ /\ _ =>
    destruct (group_spans t p1 p2 p3 p4) as [-> ->]
  end.
  split.
  - replace (0 + String.length q1 + String.length name
             - (0 + String.length q1)) with (String.length name) by lia.
    cbn [Nat.add]. apply substring_app.
  - set (pre := q1 +:+ name +:+ q2 +:+ ws +:+ "<").
    replace (q1 +:+ name +:+ q2 +:+ ws +:+ String "<" (addr +:+ String ">" tail))
      with (pre +:+ addr +:+ String ">" tail)
      by (subst pre; by rewrite !string_app_assoc).
    match goal with |- String.substring ?i ?n _ = _ =>
      assert (Hn : n = String.length addr) by lia;
      assert (Hi : i = String.length pre)
        by (subst pre; rewrite !string_length_app; cbn; lia);
      rewrite Hn, Hi
    end.
    apply substring_app.
Qed.

(** A header of the accepted form is matched. *)
Lemma from_pattern_intro (q1 name q2 ws addr : string) :
  q1 = EmptyString \/ q1 = String dquote EmptyString ->
  q2 = EmptyString \/ q2 = String dquote EmptyString ->
  all name_char name = true ->
  all isspace ws = true ->
  addr ≠ EmptyString ->
  all addr_char addr = true ->
  exists m',
    matches from_pattern
      (q1 +:+ name +:+ q2 +:+ ws +:+ "<" +:+ addr +:+ ">") 0 [] m'.
Proof.
  intros Hq1 Hq2 Hname Hws Hne Haddr.
  assert (Hopt : forall q r (s : string) pos m m',
             q = EmptyString \/ q = String dquote EmptyString ->
             matches r s (pos + String.length q) m m' ->
             matches (Opt is_quote :: r) (q +:+ s) pos m m').
  { intros q r s pos m m' [->| ->] H; cbn in H.
    - rewrite Nat.add_0_r in H. by apply matches_opt_skip.
    - rewrite Nat.add_1_r in H. by apply matches_opt_take. }
  destruct addr as [|a addr]; [done|]. cbn in Haddr.
  apply andb_prop in Haddr as [Ha Haddr].
  eexists. unfold from_pattern.
  apply matches_bol, Hopt; [done|]. apply matches_open.
  apply matches_star; [done|]. apply matches_close.
  apply Hopt; [done|]. apply matches_star; [done|].
  apply (matches_lit "<"). apply matches_open.
  rewrite string_app_cons. apply matches_plus; [done..|].
  apply matches_close. apply (matches_lit ">").
  apply matches_eol; [by left|]. apply matches_nil.
Qed.

(** *** Stripped strings *)

Lemma snoc_inj (a a' : string) c c' :
  a +:+ String c EmptyString = a' +:+ String c' EmptyString ->
  a = a' /\ c = c'.
Proof.
  revert a'. induction a as [|x a IH]; intros [|x' a']; rewrite ?string_app_cons;
    cbn; intros H; inversion H; subst.
  - done.
  - by destruct a'.
  - by destruct a.
  - by destruct (IH _ H2) as [-> ->].
Qed.

Lemma rstrip_last (x a : string) c :
  rstrip x = a +:+ String c EmptyString -> isspace c = false.
Proof.
  revert a. induction x as [|y x IH]; intros a; cbn.
  - by destruct a.
  - destruct (rstrip x) as [|z t] eqn:E.
    + destruct (isspace y) eqn:Hy; [by destruct a|].
      intros H. destruct a as [|a0 a]; [by inversion H; subst|].
      rewrite string_app_cons in H. inversion H. by destruct a.
    + intros H. destruct a as [|a0 a]; [by inversion H|].
      rewrite string_app_cons in H. inversion H; subst. by eapply IH.
Qed.

Lemma lstrip_all_space (w : string) :
  all isspace w = true -> lstrip w = EmptyString.
Proof.
  induction w as [|c w IH]; [done|]. cbn.
  intros [-> H]%andb_prop. by apply IH.
Qed.

Lemma rstrip_all_space (w : string) :
  all isspace w = true -> rstrip w = EmptyString.
Proof.
  induction w as [|c w IH]; [done|]. cbn.
  intros [-> H]%andb_prop. by rewrite IH.
Qed.

Lemma rstrip_app_space (x w : string) :
  all isspace w = true -> rstrip (x +:+ w) = rstrip x.
Proof.
  intros Hw. induction x as [|c x IH].
  - by apply rstrip_all_space.
  - rewrite string_app_cons. cbn. by rewrite IH.
Qed.

Lemma strip_app_space (x w : string) :
  all isspace w = true -> strip (x +:+ w) = strip x.
Proof.
  intros Hw. unfold strip. induction x as [|c x IH].
  - rewrite string_app_nil_l, lstrip_all_space by done. done.
  - rewrite string_app_cons. cbn. destruct (isspace c); [done|].
    by rewrite <- string_app_cons, rstrip_app_space.
Qed.

(** *** A header has one reading *)

Lemma split_first c (u u' v v' : string) :
  u +:+ String c v = u' +:+ String c v' ->
  contains c u = false -> contains c u' = false ->
  u = u' /\ v = v'.
Proof.
  revert u'. induction u as [|x u IH]; intros [|x' u']; rewrite ?string_app_cons;
    cbn; intros H Hu Hu'; inversion H; subst.
  - done.
  - by rewrite decide_True in Hu'.
  - by rewrite decide_True in Hu.
  - destruct (decide (x' = c)); [done|].
    by destruct (IH _ H2 Hu Hu') as [-> ->].
Qed.

Lemma contains_app c (a b : string) :
  contains c (a +:+ b) = contains c a || contains c b.
Proof.
  induction a as [|x a IH]; [done|]. rewrite string_app_cons. cbn.
  by destruct (decide (x = c)).
Qed.

Lemma contains_all c p (a : string) :
  p c = false -> all p a = true -> contains c a = false.
Proof.
  intros Hc. induction a as [|x a IH]; [done|]. cbn.
  intros [Hx Ha]%andb_prop. destruct (decide (x = c)) as [->|]; [congruence|].
  by apply IH.
Qed.

Lemma unquote_app (a b : string) :
  unquote (a +:+ b) = unquote a +:+ unquote b.
Proof.
  induction a as [|x a IH]; [done|]. rewrite string_app_cons. cbn.
  destruct (decide (x = dquote)); [done|]. by rewrite string_app_cons, IH.
Qed.

Lemma unquote_id (a : string) : contains dquote a = false -> unquote a = a.
Proof.
  induction a as [|x a IH]; [done|]. cbn.
  destruct (decide (x = dquote)); [done|]. intros H. by rewrite IH.
Qed.

Lemma unquote_quote (q : string) :
  q = EmptyString \/ q = String dquote EmptyString ->
  unquote q = EmptyString /\ contains "<" q = false.
Proof. by intros [->| ->]. Qed.

Lemma address_form_unique (t name addr name' addr' : string) :
  address_form t name addr -> address_form t name' addr' ->
  addr' = addr /\ strip name' = strip name.
Proof.
  intros H H'. destruct H as [q1 name q2 ws addr Hq1 Hq2 Hn Hw Hne Ha].
  inversion H' as [q1' n' q2' ws' a' Hq1' Hq2' Hn' Hw' Hne' Ha' Ht];
    subst n' a'. clear H'.
  assert (Hlt : forall q1 n q2 w : string,
            (q1 = EmptyString \/ q1 = String dquote EmptyString) ->
            (q2 = EmptyString \/ q2 = String dquote EmptyString) ->
            all name_char n = true -> all isspace w = true ->
            contains "<" (q1 +:+ n +:+ q2 +:+ w) = false
            /\ strip (unquote (q1 +:+ n +:+ q2 +:+ w)) = strip n).
  { intros p1 n p2 w Hp1 Hp2 Hn0 Hw0.
    destruct (unquote_quote _ Hp1) as [U1 C1].
    destruct (unquote_quote _ Hp2) as [U2 C2].
    split.
    - rewrite !contains_app, C1, C2.
      rewrite (contains_all "<" name_char n), (contains_all "<" isspace w);
        done.
    - rewrite !unquote_app, U1, U2, !string_app_nil_l.
      rewrite (unquote_id n), (unquote_id w).
      + by apply strip_app_space.
      + by apply (contains_all dquote isspace).
      + by apply (contains_all dquote name_char). }
  destruct (Hlt q1 name q2 ws Hq1 Hq2 Hn Hw) as [C S].
  destruct (Hlt q1' name' q2' ws' Hq1' Hq2' Hn' Hw') as [C' S'].
  assert (E : (q1' +:+ name' +:+ q2' +:+ ws') +:+ String "<" (addr' +:+ ">")
              = (q1 +:+ name +:+ q2 +:+ ws) +:+ String "<" (addr +:+ ">")).
  { rewrite !string_app_assoc. exact Ht. }
  destruct (split_first _ _ _ _ _ E C' C) as [EP EA].
  split.
  - by apply string_app_inv_tail in EA.
  - by rewrite <- S', EP, S.
Qed.

(** *** The domain *)

Lemma split_no_sep c (s : string) :
  contains c s = false -> split c s = [s].
Proof.
  induction s as [|x s IH]; [done|]. cbn.
  destruct (decide (x = c)); [done|]. intros H. by rewrite IH.
Qed.

Lemma split_sep c (s : string) :
  contains c s = true -> exists h t0 t, split c s = h :: t0 :: t.
Proof.
  induction s as [|x s IH]; [done|]. cbn.
  destruct (decide (x = c)) as [->|].
  - intros _. destruct (contains c s) eqn:E.
    + destruct (IH eq_refl) as (h & t0 & t & ->). by eexists _, _, _.
    + rewrite split_no_sep by done. by eexists _, _, _.
  - intros H. destruct (IH H) as (h & t0 & t & ->). by eexists _, _, _.
Qed.

Lemma last_split_cons c x (s : string) :
  contains c s = true ->
  last_item (split c (String x s)) = last_item (split c s).
Proof.
  intros H. destruct (split_sep c s H) as (h & t0 & t & E).
  cbn. rewrite E. by destruct (decide (x = c)).
Qed.

Lemma domain_of_after_last (u d : string) :
  contains "@" d = false -> domain_of (u +:+ "@" +:+ d) = d.
Proof.
  intros Hd. unfold domain_of.
  assert (Hc : forall u0 : string,
             contains "@" (u0 +:+ "@" +:+ d) = true).
  { intros u0. rewrite contains_app. cbn. apply orb_true_r. }
  rewrite Hc. induction u as [|x u IH].
  - rewrite string_app_nil_l. change ("@" +:+ d) with (String "@" d).
    cbn. by rewrite split_no_sep.
  - rewrite string_app_cons, last_split_cons; [exact IH|apply Hc].
Qed.

Lemma domain_of_no_at (e : string) :
  contains "@" e = false -> domain_of e = EmptyString.
Proof. unfold domain_of. by intros ->. Qed.

(** *** extract_email_parts *)

Lemma stripped_tail (s pre tail : string) :
  strip s = pre +:+ String ">" tail ->
  tail = EmptyString \/ tail = String newline EmptyString ->
  tail = EmptyString.
Proof.
  intros Hs [->| ->]; [done|]. exfalso.
  change (pre +:+ String ">" (String newline EmptyString))
    with (pre +:+ (String ">" EmptyString +:+ String newline EmptyString))
    in Hs.
  rewrite <- string_app_assoc in Hs. unfold strip in Hs.
  by apply rstrip_last in Hs.
Qed.

(** Whether the pattern matches decides the form of the stripped header. *)
Lemma match_from_pattern (s : string) :
  match match_ from_pattern (strip s) with
  | Some mo =>
      exists name addr,
        address_form (strip s) name addr
        /\ group mo 1 = name /\ group mo 2 = addr
  | None => forall name addr, ¬ address_form (strip s) name addr
  end.
Proof.
  unfold match_. destruct (run from_pattern (strip s) 0 []) as [m'|] eqn:E.
  - apply run_sound, from_pattern_inv in E
      as (q1 & name & q2 & ws & addr & tail & Ht & Hq1 & Hq2 & Hn & Hw
          & Hne & Ha & Htail & G1 & G2).
    assert (tail = EmptyString) as ->.
    { apply (stripped_tail s (q1 +:+ name +:+ q2 +:+ ws +:+ "<" +:+ addr));
        [|done]. rewrite Ht. by rewrite !string_app_assoc. }
    exists name, addr. split; [|done]. rewrite Ht. by constructor.
  - intros name addr H.
    inversion H as [q1 n q2 ws a Hq1 Hq2 Hn Hw Hne Ha Ht]; subst n a.
    destruct (from_pattern_intro q1 name q2 ws addr) as [m' Hm]; [done..|].
    apply run_complete in Hm as [m'' Hm]. rewrite Ht in Hm.
    congruence.
Qed.


Lemma padded_header_form :
  address_form (strip padded_header) " John " "A@b.c".
Proof.
  apply (AddressForm (String dquote EmptyString) " John "
           (String dquote EmptyString) " " "A@b.c"); try done; by right.
Qed.



End ParsingSpec.

(** ** The file cache *)

Module StorageSpec.
Import Types Storage StrSpec.

Section Facts.
Variable storage_dir : string.
Variable clock : nat -> string.

Abbreviation index := (index storage_dir).
Abbreviation msg_file := (msg_file storage_dir).
Abbreviation index_file := (index_file storage_dir).
Abbreviation put_file := (put_file storage_dir).

Lemma msg_file_inj i j : msg_file i = msg_file j -> i = j.
Proof.
  unfold Storage.msg_file. intros H.
  apply (inj (String.app _)) in H. apply (inj (String.app _)) in H.
  by apply string_app_inv_tail in H.
Qed.

Lemma msg_file_not_index i : msg_file i ≠ index_file.
Proof.
  unfold Storage.msg_file, Storage.index_file, messages_dir. intros H.
  rewrite string_app_assoc in H.
  apply (inj (String.app _)) in H. discriminate H.
Qed.

(** What a successful read of the [index] property leaves behind. *)
Lemma index_ok_inv st ix st0 :
  index st = (Ok ix, st0) ->
  st0 = set_index (Some ix) st /\ index st0 = (Ok ix, st0).
Proof.
  unfold Storage.index. destruct st as [fs tk wr [ix0|]]; cbn.
  - intros [= -> <-]. done.
  - destruct (fs !! index_file) as [t|].
    + destruct (load_index t); intros [= -> <-]; done.
    + intros [= <- <-]. done.
Qed.

Lemma index_cached st ix : _index st = Some ix -> index st = (Ok ix, st).
Proof. unfold Storage.index. by intros ->. Qed.

Lemma get_new_message_ids_run ids st ix :
  _index st = Some ix ->
  get_new_message_ids storage_dir ids st
  = (Ok (filter (fun mid => mid ∉ message_ids ix) ids), st).
Proof.
  intros Hix. induction ids as [|mid ids IH]; [done|].
  cbn [get_new_message_ids]. unfold bind at 1.
  rewrite (index_cached _ _ Hix). unfold bind at 1. rewrite IH.
  unfold ret. rewrite filter_cons.
  destruct (decide (mid ∈ message_ids ix)), (decide (mid ∉ message_ids ix));
    done.
Qed.

Lemma get_new_message_ids_lazy (ids : list string) st ix st0 :
  index st = (Ok ix, st0) ->
  get_new_message_ids storage_dir ids st
  = (Ok (filter (fun mid => mid ∉ message_ids ix) ids),
     match ids with [] => st | _ => st0 end).
Proof.
  intros Hix. destruct ids as [|mid ids]; [done|].
  destruct (index_ok_inv _ _ _ Hix) as [Hst0 Hix0].
  assert (H0 : _index st0 = Some ix) by (by rewrite Hst0).
  pose proof (get_new_message_ids_run (mid :: ids) st0 ix H0) as Hrun.
  cbn [get_new_message_ids] in *. unfold bind at 1.
  unfold bind at 1 in Hrun. rewrite Hix. by rewrite Hix0 in Hrun.
Qed.

(** C1. When the index read by [get_new_message_ids] knows the ids [K], the
    result is the list of the candidates that are not in [K], in input
    order. As a set it is the candidates minus [K]: it is empty when [K]
    covers the candidates, and it is the whole input when [K] is empty. (The
    index is read once per candidate: it is loaded, if it was not, as soon as
    there is one.) *)
Theorem get_new_message_ids_spec (ids : list string) st ix st0 :
  index st = (Ok ix, st0) ->
  let K := message_ids ix in
  let new := filter (fun mid => mid ∉ K) ids in
  get_new_message_ids storage_dir ids st
    = (Ok new, match ids with [] => st | _ => st0 end)
  /\ (list_to_set new : gset string) = list_to_set ids ∖ K
  /\ (list_to_set ids ⊆ K -> new = [])
  /\ (K = ∅ -> new = ids).
Proof.
  intros Hix K new. split; [|split; [|split]].
  - by apply get_new_message_ids_lazy.
  - apply set_eq. intros x. subst new.
    rewrite elem_of_list_to_set, list_elem_of_filter, elem_of_difference,
      elem_of_list_to_set. tauto.
  - intros Hsub. subst new. induction ids as [|mid ids IH]; [done|].
    rewrite filter_cons. destruct (decide (mid ∉ K)) as [Hn|_].
    + exfalso. apply Hn, Hsub. set_solver.
    + apply IH. set_solver.
  - intros HK. subst new. induction ids as [|mid ids IH]; [done|].
    rewrite filter_cons. destruct (decide (mid ∉ K)) as [_|Hn].
    + by rewrite IH.
    + exfalso. apply Hn. rewrite HK. set_solver.
Qed.

Section Reading.
Variable name_max : nat.
Variable path_max : nat.

Abbreviation too_long := (too_long name_max path_max).
Abbreviation plain_id := (plain_id storage_dir name_max path_max).
Abbreviation load_message := (load_message storage_dir name_max path_max).
Abbreviation step := (step storage_dir clock name_max path_max).

(** The state [load_message] leaves is the state it found. *)
Lemma load_message_state (message_id : string) st :
  (load_message message_id st).2 = st.
Proof.
  unfold Storage.load_message, bind, path_exists, read_text.
  destruct (has_nul _); [done|]. destruct (too_long _); [done|].
  destruct (files st !! msg_file message_id) as [t|] eqn:E.
  - rewrite bool_decide_eq_true_2 by (by eexists). rewrite E.
    by destruct (model_validate_json t).
  - rewrite bool_decide_eq_false_2; [done|]. by intros [? ?].
Qed.

(** C9 (amended). When the id of a message holds no [/] and its path is
    not too long for the file system, and the file of the id does not
    exist, [load_message] returns [None] and raises nothing, whatever the
    index holds (it is not read), so also when the index lists the id. *)
Theorem load_message_missing_file (message_id : string) st :
  has_slash message_id = false ->
  too_long (msg_file message_id) = false ->
  files st !! msg_file message_id = None ->
  load_message message_id st = (Ok None, st).
Proof.
  intros _ Hlen Hnone.
  unfold Storage.load_message, bind, path_exists.
  destruct (has_nul _); [done|]. rewrite Hlen, Hnone.
  rewrite bool_decide_eq_false_2; [done|]. by intros [? ?].
Qed.

End Reading.

Lemma mapM_as_str (l : list string) : mapM as_str (JStr <$> l) = Some l.
Proof.
  induction l as [|x l IH]; [done|].
  rewrite fmap_cons. cbn. by rewrite IH.
Qed.

Lemma model_validate_dump (m : GmailMessage) :
  model_validate (model_dump m) = Some m.
Proof.
  destruct m as [i t l sn f tos su b ts].
  unfold model_validate, model_dump, required, field.
  cbn [id thread_id label_ids snippet from_email to subject body timestamp].
  set (kv := _ :: _).
  assert (obj_get "id" kv = Some (JStr i)) as -> by reflexivity.
  assert (obj_get "thread_id" kv = Some (JStr t)) as -> by reflexivity.
  assert (obj_get "label_ids" kv = Some (json_dumps l)) as -> by reflexivity.
  assert (obj_get "snippet" kv = Some (JStr sn)) as -> by reflexivity.
  assert (obj_get "from_email" kv = Some (JStr f)) as -> by reflexivity.
  assert (obj_get "to" kv = Some (json_dumps tos)) as -> by reflexivity.
  assert (obj_get "subject" kv = Some (JStr su)) as -> by reflexivity.
  assert (obj_get "body" kv = Some (JStr b)) as -> by reflexivity.
  assert (obj_get "timestamp" kv = Some (JInt ts)) as -> by reflexivity.
  unfold json_dumps, as_str_list. cbn. rewrite !mapM_as_str. reflexivity.
Qed.

Lemma index_only_ret {A} (a : A) : index_only (ret a).
Proof. intros st. exists (_index st). by destruct st. Qed.

Lemma index_only_bind {A B} (c : M State A) (k : A -> M State B) :
  index_only c -> (forall a, index_only (k a)) -> index_only (bind c k).
Proof.
  intros Hc Hk st. unfold bind. destruct (Hc st) as [o Ho].
  destruct (c st) as [[a|e] st1]; cbn in Ho; subst st1.
  - destruct (Hk a (set_index o st)) as [o' Ho']. exists o'.
    by rewrite Ho'.
  - by exists o.
Qed.

Lemma index_only_index : index_only index.
Proof.
  intros st. unfold Storage.index. destruct (_index st) as [ix|] eqn:E.
  - exists (Some ix). by destruct st; cbn in *; subst.
  - destruct (files st !! index_file) as [t|].
    + destruct (load_index t) as [ix|e]; [by exists (Some ix)|].
      exists None. by destruct st; cbn in *; subst.
    + by exists (Some new_index).
Qed.

Lemma index_only_update f : index_only (update_index storage_dir f).
Proof.
  apply index_only_bind; [apply index_only_index|].
  intros ix st. by exists (Some (f ix)).
Qed.

Lemma index_only_files {A} (c : M State A) st :
  index_only c -> files (c st).2 = files st.
Proof. intros H. destruct (H st) as [o ->]. done. Qed.

Lemma store_message_files (m : GmailMessage) st :
  files (store_message storage_dir m st).2
  = <[msg_file (id m) := Json (model_dump m)]> (files st).
Proof.
  unfold store_message. unfold bind at 1. unfold write_text at 1, modify.
  set (st1 := Build_State _ _ _ _).
  transitivity (files st1); [|reflexivity].
  apply index_only_files.
  apply index_only_bind; [apply index_only_update|]. intros _.
  apply index_only_bind; [apply index_only_index|]. intros ix.
  apply index_only_update.
Qed.

Section RoundTrip.
Variable name_max : nat.
Variable path_max : nat.

Abbreviation too_long := (too_long name_max path_max).
Abbreviation plain_id := (plain_id storage_dir name_max path_max).
Abbreviation load_message := (load_message storage_dir name_max path_max).
Abbreviation step := (step storage_dir clock name_max path_max).

(** C6. For a record [r] whose id is a file name of the messages
    directory, after [store_message r], [load_message] of the id of [r]
    returns a record equal to [r] in every field: empty lists and empty
    strings come back as they are. This holds in the state [store_message]
    leaves, also when it raises after writing the file because the index
    cannot be read. *)
Theorem load_message_store_message (r : GmailMessage) st :
  plain_id (id r) ->
  let st' := (store_message storage_dir r st).2 in
  load_message (id r) st' = (Ok (Some r), st').
Proof.
  intros (_ & Hnul & Hlen) st'.
  unfold Storage.load_message, bind, path_exists, read_text.
  rewrite Hnul, Hlen. subst st'.
  rewrite store_message_files, lookup_insert_eq.
  rewrite bool_decide_eq_true_2 by (by eexists).
  rewrite store_message_files, lookup_insert_eq.
  unfold model_validate_json. by rewrite model_validate_dump.
Qed.

End RoundTrip.

(** *** store_messages *)

Lemma store_message_run (m : GmailMessage) st ix :
  _index st = Some ix ->
  store_message storage_dir m st
  = (Ok tt, {| files := put_file (files st) m; ticks := ticks st;
               written := written st ++ [msg_file (id m)];
               _index := Some (add_message ix m) |}).
Proof.
  intros Hix. destruct st as [fs tk wr o]. cbn in Hix. subst o.
  reflexivity.
Qed.

Lemma has_message_run i st ix :
  _index st = Some ix ->
  has_message storage_dir i st = (Ok (bool_decide (i ∈ message_ids ix)), st).
Proof.
  intros Hix. unfold has_message, bind. by rewrite (index_cached _ _ Hix).
Qed.

Lemma store_loop_run (messages : list GmailMessage) st ix (n : Z) :
  _index st = Some ix ->
  let new := newly_stored (message_ids ix) messages in
  store_loop storage_dir messages n st
  = (Ok (n + Z.of_nat (length new)),
     {| files := foldl put_file (files st) new; ticks := ticks st;
        written := written st ++ (msg_file ∘ id <$> new);
        _index := Some (foldl add_message ix new) |}).
Proof.
  revert st ix n. induction messages as [|m rest IH]; intros st ix n Hix.
  - cbn. unfold ret. rewrite Z.add_0_r, app_nil_r.
    destruct st; cbn in *; by subst.
  - cbn [store_loop newly_stored]. unfold bind at 1.
    rewrite (has_message_run _ _ _ Hix).
    destruct (decide (id m ∈ message_ids ix)) as [Hin|Hnin].
    + rewrite bool_decide_eq_true_2 by done. by apply IH.
    + rewrite bool_decide_eq_false_2 by done. unfold bind at 1.
      rewrite (store_message_run _ _ _ Hix).
      rewrite (IH _ (add_message ix m)) by done.
      cbn [files ticks written message_ids add_message with_message_ids
           with_total_messages length foldl fmap list_fmap].
      rewrite <- app_assoc. do 2 f_equal. lia.
Qed.

Lemma store_messages_run (messages : list GmailMessage) st ix :
  _index st = Some ix ->
  let new := newly_stored (message_ids ix) messages in
  let ix' := with_last_sync (clock (ticks st)) (foldl add_message ix new) in
  store_messages storage_dir clock messages st
  = (Ok (Z.of_nat (length new)),
     {| files := <[index_file := Json (index_dump ix')]>
                   (foldl put_file (files st) new);
        ticks := S (ticks st);
        written := written st ++ (msg_file ∘ id <$> new) ++ [index_file];
        _index := Some ix' |}).
Proof.
  intros Hix new ix'. unfold store_messages. unfold bind at 1.
  rewrite (store_loop_run _ _ _ _ Hix). cbn. rewrite <- app_assoc. done.
Qed.

(** Reading the index first changes nothing to what a batch does. *)
Lemma store_messages_lazy (messages : list GmailMessage) st ix st0 :
  index st = (Ok ix, st0) ->
  store_messages storage_dir clock messages st
  = store_messages storage_dir clock messages st0.
Proof.
  intros Hix. destruct st as [fs tk wr [ix0|]].
  { cbn in Hix. by inversion Hix. }
  unfold Storage.index in Hix. cbn in Hix.
  destruct messages as [|m rest];
    cbv [store_messages store_loop bind ret now update_index has_message
         Storage.index modify _index files ticks written];
    destruct (fs !! index_file) as [t|];
    [destruct (load_index t)| |destruct (load_index t)|];
    inversion Hix; subst; reflexivity.
Qed.

Lemma newly_stored_fresh K (messages : list GmailMessage) m :
  m ∈ newly_stored K messages -> id m ∉ K.
Proof.
  revert K. induction messages as [|x rest IH]; intros K; cbn.
  - by intros ?%elem_of_nil.
  - destruct (decide (id x ∈ K)); [by apply IH|].
    intros [->|Hin]%elem_of_cons; [done|].
    apply IH in Hin. set_solver.
Qed.

Lemma newly_stored_NoDup K (messages : list GmailMessage) :
  NoDup (id <$> newly_stored K messages).
Proof.
  revert K. induction messages as [|x rest IH]; intros K; cbn.
  - constructor.
  - destruct (decide (id x ∈ K)); [by apply IH|].
    rewrite fmap_cons. constructor; [|by apply IH].
    intros (m & Hid & Hin)%list_elem_of_fmap.
    apply newly_stored_fresh in Hin. set_solver.
Qed.

Lemma newly_stored_sublist K (messages : list GmailMessage) :
  sublist (newly_stored K messages) messages.
Proof.
  revert K. induction messages as [|x rest IH]; intros K; cbn; [done|].
  destruct (decide (id x ∈ K)).
  - by apply sublist_cons.
  - by apply sublist_skip.
Qed.

Lemma newly_stored_ids K (messages : list GmailMessage) :
  K ∪ list_to_set (id <$> newly_stored K messages)
  = K ∪ list_to_set (id <$> messages).
Proof.
  revert K. induction messages as [|x rest IH]; intros K; cbn; [done|].
  destruct (decide (id x ∈ K)).
  - rewrite IH. set_solver.
  - cbn. specialize (IH ({[id x]} ∪ K)). set_solver.
Qed.

Lemma foldl_add_message_ids ix (new : list GmailMessage) :
  message_ids (foldl add_message ix new)
  = message_ids ix ∪ list_to_set (id <$> new).
Proof.
  revert ix. induction new as [|x rest IH]; intros ix; cbn.
  - set_solver.
  - rewrite IH. cbn. set_solver.
Qed.

Lemma foldl_put_file_other fs (new : list GmailMessage) p :
  (forall m, m ∈ new -> msg_file (id m) ≠ p) ->
  foldl put_file fs new !! p = fs !! p.
Proof.
  revert fs. induction new as [|x rest IH]; intros fs Hp; cbn; [done|].
  rewrite IH by (intros m Hm; apply Hp; set_solver).
  unfold Storage.put_file. apply lookup_insert_ne. apply Hp. set_solver.
Qed.

Lemma foldl_put_file_in fs (new : list GmailMessage) m :
  NoDup (id <$> new) -> m ∈ new ->
  foldl put_file fs new !! msg_file (id m) = Some (Json (model_dump m)).
Proof.
  revert fs. induction new as [|x rest IH]; intros fs Hnd Hin; cbn.
  - by apply elem_of_nil in Hin.
  - rewrite fmap_cons in Hnd. apply NoDup_cons in Hnd as [Hx Hnd].
    apply elem_of_cons in Hin as [->|Hin]; [|by apply IH].
    rewrite foldl_put_file_other.
    + unfold Storage.put_file. apply lookup_insert_eq.
    + intros m Hm Heq. apply msg_file_inj in Heq. apply Hx.
      rewrite <- Heq. by apply list_elem_of_fmap_2.
Qed.

(** The index [_save_index] writes is the index a new [EmailStorage]
    object reads. *)
Lemma load_index_dump (ix : StorageIndex) :
  load_index (Json (index_dump ix)) = Ok ix.
Proof.
  destruct ix as [v ls ids n]. unfold load_index, index_dump, field.
  cbn [version last_sync message_ids total_messages].
  set (kv := _ :: _).
  assert (obj_get "message_ids" kv = Some (json_dumps (elements ids))) as ->
    by reflexivity.
  assert (obj_get "version" kv = Some (JInt v)) as -> by reflexivity.
  assert (obj_get "last_sync" kv = Some (JStr ls)) as -> by reflexivity.
  assert (obj_get "total_messages" kv = Some (JInt n)) as -> by reflexivity.
  unfold default, json_dumps, set_of_json, Datatypes.id.
  assert (forallb hashable (JStr <$> elements ids) = true) as ->.
  { induction (elements ids) as [|x l IH]; [done|]. exact IH. }
  rewrite mapM_as_str. cbn. by rewrite list_to_set_elements_L.
Qed.

Section Batch.
Variable name_max : nat.
Variable path_max : nat.

Abbreviation plain_id := (plain_id storage_dir name_max path_max).

(** C2 (amended). A batch of records whose ids are file names of the
    messages directory stores exactly the records whose id the index
    does not know when the loop reaches them: each such record's file holds
    its serialization afterwards, while the file of every id known before
    the call (an id without [/]) is left as it was. The clock is read once, after the loop, and
    becomes [last_sync]; the index file is written once, last, with the final
    index; the result is the number of ids the call added. *)
Theorem store_messages_spec (messages : list GmailMessage) st ix st0 :
  (forall m, m ∈ messages -> plain_id (id m)) ->
  index st = (Ok ix, st0) ->
  let K := message_ids ix in
  let new := newly_stored K messages in
  exists st' ix',
    store_messages storage_dir clock messages st
      = (Ok (Z.of_nat (length new)), st')
    /\ _index st' = Some ix'
    /\ sublist new messages
    /\ (forall m, m ∈ messages -> id m ∉ K -> id m ∈ (id <$> new))
    /\ (forall m, m ∈ new ->
          (id m ∉ K)
          /\ files st' !! msg_file (id m) = Some (Json (model_dump m)))
    /\ (forall i, i ∈ K -> has_slash i = false ->
          files st' !! msg_file i = files st !! msg_file i)
    /\ message_ids ix' = K ∪ list_to_set (id <$> messages)
    /\ Z.of_nat (length new) = len (message_ids ix' ∖ K)
    /\ ticks st' = S (ticks st)
    /\ last_sync ix' = clock (ticks st)
    /\ written st' = written st ++ (msg_file ∘ id <$> new) ++ [index_file]
    /\ files st' !! index_file = Some (Json (index_dump ix')).
Proof.
  intros _ Hix K new.
  destruct (index_ok_inv _ _ _ Hix) as [Hst0 _].
  assert (H0 : _index st0 = Some ix) by (by rewrite Hst0).
  assert (Hf : files st0 = files st) by (by rewrite Hst0).
  assert (Ht : ticks st0 = ticks st) by (by rewrite Hst0).
  assert (Hw : written st0 = written st) by (by rewrite Hst0).
  rewrite (store_messages_lazy _ _ _ _ Hix), (store_messages_run _ _ _ H0).
  fold K. fold new. rewrite Hf, Ht, Hw.
  set (ix' := with_last_sync _ _).
  assert (Hids : message_ids ix' = K ∪ list_to_set (id <$> messages)).
  { subst ix'. cbn. rewrite foldl_add_message_ids. apply newly_stored_ids. }
  eexists _, ix'. split; [reflexivity|]. cbn [Storage._index files ticks written].
  repeat split.
  - apply newly_stored_sublist.
  - intros m Hm HK.
    assert (Hin : id m ∈ K ∪ list_to_set (id <$> messages)).
    { apply elem_of_union_r, elem_of_list_to_set. by apply list_elem_of_fmap_2. }
    rewrite <- newly_stored_ids in Hin. fold new in Hin.
    apply elem_of_union in Hin as [?|Hin]; [done|].
    by apply elem_of_list_to_set in Hin.
  - by eapply newly_stored_fresh.
  - rewrite lookup_insert_ne by (intros E; symmetry in E;
      by apply msg_file_not_index in E).
    apply foldl_put_file_in; [apply newly_stored_NoDup|done].
  - intros i Hi _.
    rewrite lookup_insert_ne by (intros E; symmetry in E;
      by apply msg_file_not_index in E).
    apply foldl_put_file_other. intros m Hm Heq.
    apply msg_file_inj in Heq. subst i.
    by apply newly_stored_fresh in Hm.
  - exact Hids.
  - rewrite Hids, <- (newly_stored_ids K messages). fold new.
    assert (Hd : (K ∪ list_to_set (id <$> new)) ∖ K
                 = (list_to_set (id <$> new) : gset string)).
    { apply set_eq. intros x.
      rewrite elem_of_difference, elem_of_union, elem_of_list_to_set.
      split; [tauto|]. intros Hx. split; [by right|].
      apply list_elem_of_fmap in Hx as (m & -> & Hm).
      by eapply newly_stored_fresh. }
    rewrite Hd. unfold len.
    rewrite size_list_to_set by apply newly_stored_NoDup.
    by rewrite length_fmap.
  - apply lookup_insert_eq.
Qed.

End Batch.

(** *** The invariant of the index *)

(** The [index] property reads only the [_index] attribute and the index
    file. *)
Lemma index_frame st st1 :
  _index st1 = _index st ->
  files st1 !! index_file = files st !! index_file ->
  index st1
  = ((index st).1,
     match (index st).1 with
     | Ok ix => set_index (Some ix) st1
     | Raise _ => st1
     end).
Proof.
  intros Hi Hf. unfold Storage.index. rewrite Hi, Hf.
  destruct (_index st) as [ix|] eqn:E.
  - cbn. destruct st1; cbn in *; by subst.
  - destruct (files st !! index_file) as [t|]; [|done].
    by destruct (load_index t).
Qed.

Lemma add_message_ok ix (m : GmailMessage) : index_ok (add_message ix m).
Proof. reflexivity. Qed.

Lemma foldl_add_message_ok ix (new : list GmailMessage) :
  index_ok ix -> index_ok (foldl add_message ix new).
Proof.
  revert ix. induction new as [|m rest IH]; intros ix Hok; [done|].
  cbn. apply IH, add_message_ok.
Qed.

(** What [store_message] does when the index can be read. *)
Lemma store_message_lazy (m : GmailMessage) st ix st0 :
  index st = (Ok ix, st0) ->
  store_message storage_dir m st
  = (Ok tt, {| files := put_file (files st) m; ticks := ticks st;
               written := written st ++ [msg_file (id m)];
               _index := Some (add_message ix m) |}).
Proof.
  intros Hix. unfold store_message. unfold bind at 1.
  unfold write_text at 1, modify.
  set (st1 := Build_State _ _ _ _).
  assert (H1 : index st1 = (Ok ix, set_index (Some ix) st1)).
  { rewrite (index_frame st st1); [by rewrite Hix|done|].
    subst st1. cbn. apply lookup_insert_ne, msg_file_not_index. }
  unfold bind at 1. unfold update_index at 1. unfold bind at 1.
  rewrite H1. reflexivity.
Qed.

Section Operations.
Variable name_max : nat.
Variable path_max : nat.

Abbreviation too_long := (too_long name_max path_max).
Abbreviation plain_id := (plain_id storage_dir name_max path_max).
Abbreviation load_message := (load_message storage_dir name_max path_max).
Abbreviation step := (step storage_dir clock name_max path_max).

(** What an operation leaves of an index that cannot be read. *)
Lemma step_unreadable (o : operation) st e :
  (index st).1 = Raise e ->
  (index (step o st)).1 = Raise e.
Proof.
  intros He.
  assert (Hst : forall st1, _index st1 = _index st ->
            files st1 !! index_file = files st !! index_file ->
            index st1 = (Raise e, st1)).
  { intros st1 H1 H2. rewrite (index_frame st st1) by done. by rewrite He. }
  pose proof (Hst st eq_refl eq_refl) as Hst0.
  destruct o as [i|ids|m|ms|i| | |]; cbn [step].
  - unfold has_message, bind. rewrite Hst0; cbn [fst snd]; by rewrite Hst0.
  - destruct ids as [|mid ids]; cbn [get_new_message_ids];
      [unfold ret; cbn [fst snd]; by rewrite Hst0|].
    unfold bind at 1. rewrite Hst0; cbn [fst snd]; by rewrite Hst0.
  - unfold store_message. unfold bind at 1. unfold write_text at 1, modify.
    set (st1 := Build_State _ _ _ _).
    assert (H1 : index st1 = (Raise e, st1)).
    { apply Hst; [done|]. subst st1. cbn.
      apply lookup_insert_ne, msg_file_not_index. }
    unfold bind at 1. unfold update_index at 1. unfold bind at 1.
    rewrite H1; cbn [fst snd]; by rewrite H1.
  - unfold store_messages. unfold bind at 1.
    destruct ms as [|m rest]; cbn [store_loop].
    + unfold ret. unfold bind at 1. unfold now at 1.
      set (st1 := Build_State _ _ _ _).
      assert (H1 : index st1 = (Raise e, st1)) by (by apply Hst).
      unfold bind at 1. unfold update_index at 1. unfold bind at 1.
      rewrite H1; cbn [fst snd]; by rewrite H1.
    + unfold bind at 1. unfold has_message at 1. unfold bind at 1.
      rewrite Hst0; cbn [fst snd]; by rewrite Hst0.
  - by rewrite (load_message_state name_max path_max), Hst0.
  - unfold load_all_messages. cbn [fst snd]. by rewrite Hst0.
  - unfold get_stats. unfold bind at 1. rewrite Hst0; cbn [fst snd]; by rewrite Hst0.
  - unfold _save_index, bind. rewrite Hst0; cbn [fst snd]; by rewrite Hst0.
Qed.

(** What an operation leaves of an index that can be read. *)
Lemma step_readable (o : operation) st ix st0 :
  index st = (Ok ix, st0) ->
  exists ix',
    (index (step o st)).1 = Ok ix'
    /\ match o with
       | StoreMessage m => ix' = add_message ix m
       | StoreMessages ms =>
           ix' = with_last_sync (clock (ticks st))
                   (foldl add_message ix (newly_stored (message_ids ix) ms))
       | _ => ix' = ix
       end.
Proof.
  intros Hix. destruct (index_ok_inv _ _ _ Hix) as [Hst0 Hix0].
  assert (Hc : (index st0).1 = Ok ix) by (by rewrite Hix0).
  destruct o as [i|ids|m|ms|i| | |]; cbn [step].
  - exists ix. split; [|done]. unfold has_message, bind. by rewrite Hix.
  - exists ix. split; [|done].
    rewrite (get_new_message_ids_lazy ids st ix st0 Hix).
    destruct ids; cbn; [by rewrite Hix|done].
  - exists (add_message ix m). split; [|done].
    by rewrite (store_message_lazy _ _ _ _ Hix).
  - eexists. split; [|reflexivity].
    rewrite (store_messages_lazy _ _ _ _ Hix).
    rewrite (store_messages_run _ st0 ix) by (by rewrite Hst0).
    rewrite Hst0. reflexivity.
  - exists ix. split; [|done]. by rewrite (load_message_state name_max path_max), Hix.
  - exists ix. split; [|done]. unfold load_all_messages. cbn [fst snd].
    by rewrite Hix.
  - exists ix. split; [|done]. unfold get_stats. unfold bind at 1.
    rewrite Hix. unfold bind at 1. by rewrite Hix0.
  - exists ix. split; [|done]. unfold _save_index, bind. rewrite Hix.
    rewrite Hst0. reflexivity.
Qed.

(** C10. Every operation of [EmailStorage] preserves the invariant
    [total_messages = |message_ids|] of the index a state holds. From a state
    that satisfies it and whose index is [ix], the index can be read after
    the operation and satisfies the invariant; [store_message] of a record
    whose id is a file name leaves the ids of [ix] with the record's id added
    and [total_messages] equal to their number; [store_messages] of records
    whose ids are file names leaves the ids of [ix] with those of the batch
    added; every other operation leaves [ix] itself. *)
Theorem index_invariant_preserved (o : operation) (st : State) :
  invariant storage_dir st ->
  invariant storage_dir (step o st)
  /\ forall ix st0, index st = (Ok ix, st0) ->
       exists ix',
         (index (step o st)).1 = Ok ix'
         /\ index_ok ix'
         /\ match o with
            | StoreMessage m =>
                plain_id (id m) ->
                message_ids ix' = {[ id m ]} ∪ message_ids ix
                /\ total_messages ix' = len (message_ids ix')
            | StoreMessages ms =>
                (forall m, m ∈ ms -> plain_id (id m)) ->
                message_ids ix' = message_ids ix ∪ list_to_set (id <$> ms)
            | _ => ix' = ix
            end.
Proof.
  intros Hinv.
  assert (Hread : forall ix st0, index st = (Ok ix, st0) ->
            exists ix',
              (index (step o st)).1 = Ok ix'
              /\ index_ok ix'
              /\ match o with
                 | StoreMessage m =>
                     plain_id (id m) ->
                     message_ids ix' = {[ id m ]} ∪ message_ids ix
                     /\ total_messages ix' = len (message_ids ix')
                 | StoreMessages ms =>
                     (forall m, m ∈ ms -> plain_id (id m)) ->
                     message_ids ix' = message_ids ix ∪ list_to_set (id <$> ms)
                 | _ => ix' = ix
                 end).
  { intros ix st0 Hix. pose proof (Hinv ix st0 Hix) as Hok.
    destruct (step_readable o st ix st0 Hix) as (ix' & Hix' & Ho).
    exists ix'. split; [done|].
    destruct o; subst ix'; try done.
    split; [by apply (foldl_add_message_ok ix)|]. intros _.
    cbn. rewrite foldl_add_message_ids. apply newly_stored_ids. }
  split; [|exact Hread].
  intros ix' st1 Hix'.
  destruct (index st) as [[ix|e] st0] eqn:Hix.
  - destruct (Hread ix st0 eq_refl) as (ix'' & H1 & Hok & _).
    rewrite Hix' in H1. cbn in H1. by inversion H1; subst.
  - pose proof (step_unreadable o st e) as H1. rewrite Hix in H1.
    specialize (H1 eq_refl). rewrite Hix' in H1. by inversion H1.
Qed.

End Operations.

End Facts.

Lemma get_new_message_ids_spec_witness :
  let ix := with_message_ids {[ "a"; "b" ]} new_index in
  let st := set_index (Some ix) (init ∅) in
  get_new_message_ids "cache" ["a"; "c"; "b"; "d"] st = (Ok ["c"; "d"], st).
Proof.
  intros ix st.
  assert (Hix : index "cache" st = (Ok ix, st)) by reflexivity.
  destruct (get_new_message_ids_spec "cache" ["a"; "c"; "b"; "d"] st ix st Hix)
    as [H _].
  exact H.
Defined.

Lemma load_message_missing_file_witness :
  let ix := with_message_ids {[ "m1" ]} new_index in
  let st := set_index (Some ix) (init ∅) in
  "m1" ∈ message_ids ix
  /\ load_message "cache" NAME_MAX PATH_MAX "m1" st = (Ok None, st).
Proof.
  split; [set_solver|].
  apply load_message_missing_file;
    [reflexivity | reflexivity | apply lookup_empty].
Defined.

(** C9, as stated, fails: the file of an id of 300 letters does not exist,
    its name is longer than the file system takes, and [load_message]
    raises the [OSError] of [exists] instead of returning [None]. *)
Lemma load_message_long_id :
  files (init ∅) !! msg_file "cache" long_id = None
  /\ load_message "cache" NAME_MAX PATH_MAX long_id (init ∅)
     = (Raise OSError, init ∅).
Proof.
  split; [apply lookup_empty|]. by vm_compute.
Qed.

Lemma load_message_store_message_witness :
  let r := msg "a" "one" in
  let st' := (store_message "cache" r (init ∅)).2 in
  plain_id "cache" NAME_MAX PATH_MAX (id r)
  /\ load_message "cache" NAME_MAX PATH_MAX "a" st' = (Ok (Some r), st').
Proof.
  intros r st'.
  assert (Hp : plain_id "cache" NAME_MAX PATH_MAX (id r))
    by (repeat split; reflexivity).
  split; [exact Hp|].
  exact (load_message_store_message "cache" NAME_MAX PATH_MAX r (init ∅) Hp).
Defined.

Lemma store_messages_spec_witness :
  exists st',
    store_messages "cache" clock0 [msg "a" "one"; msg "a" "two"; msg "b" "three"]
      (init ∅) = (Ok 2, st')
    /\ written st'
       = ["cache/messages/a.json"; "cache/messages/b.json"; "cache/index.json"].
Proof.
  assert (Hix : index "cache" (init ∅)
                = (Ok new_index, set_index (Some new_index) (init ∅)))
    by reflexivity.
  assert (Hp : forall m,
            m ∈ [msg "a" "one"; msg "a" "two"; msg "b" "three"] ->
            plain_id "cache" NAME_MAX PATH_MAX (id m)).
  { intros m Hm.
    repeat (apply elem_of_cons in Hm as [->|Hm];
            [repeat split; reflexivity|]).
    by apply elem_of_nil in Hm. }
  destruct (store_messages_spec "cache" clock0 NAME_MAX PATH_MAX
              [msg "a" "one"; msg "a" "two"; msg "b" "three"] _ _ _ Hp Hix)
    as (st' & ix' & Hrun & _ & _ & _ & _ & _ & _ & _ & _ & _ & Hw & _).
  exists st'. split; [exact Hrun | exact Hw].
Defined.

(** C2, as stated, fails: a record whose id the index already knows is
    skipped, and its file keeps the earlier content. *)
Lemma store_messages_skips_known_id :
  let st := (store_messages "cache" clock0 [msg "a" "old"] (init ∅)).2 in
  let '(res, st') := store_messages "cache" clock0 [msg "a" "new"] st in
  res = Ok 0
  /\ files st' !! msg_file "cache" "a" = Some (Json (model_dump (msg "a" "old")))
  /\ files st' !! msg_file "cache" "a" ≠ Some (Json (model_dump (msg "a" "new"))).
Proof.
  vm_compute. repeat split. discriminate.
Qed.

Lemma index_invariant_preserved_witness :
  let o := StoreMessage (msg "a" "one") in
  let step := step "cache" clock0 NAME_MAX PATH_MAX in
  invariant "cache" (init ∅)
  /\ invariant "cache" (step o (init ∅))
  /\ exists ix',
       (index "cache" (step o (init ∅))).1 = Ok ix'
       /\ message_ids ix' = {[ "a" ]} ∪ ∅
       /\ total_messages ix' = 1.
Proof.
  intros o step. subst o step.
  assert (Hix : index "cache" (init ∅)
                = (Ok new_index, set_index (Some new_index) (init ∅)))
    by reflexivity.
  assert (Hinv : invariant "cache" (init ∅)).
  { intros ix st0 H. rewrite Hix in H. inversion H. reflexivity. }
  destruct (index_invariant_preserved "cache" clock0 NAME_MAX PATH_MAX
              (StoreMessage (msg "a" "one")) (init ∅) Hinv) as [H1 H2].
  split; [exact Hinv|]. split; [exact H1|].
  destruct (H2 _ _ Hix) as (ix' & Ha & Hb & Hplain).
  assert (Hp : plain_id "cache" NAME_MAX PATH_MAX (id (msg "a" "one")))
    by (repeat split; reflexivity).
  destruct (Hplain Hp) as [Hc Hd]. exists ix'.
  split; [exact Ha|]. split; [exact Hc|].
  rewrite Hd, Hc. reflexivity.
Defined.

End StorageSpec.

(** ** The SQLite archive *)

Module DatabaseSpec.
Import Types Database.

Section Facts.
Variable clock : nat -> string.
Variable current_timestamp : nat -> string.
Variable recursive_triggers : bool.

Abbreviation insert_email := (insert_email clock current_timestamp recursive_triggers).
Abbreviation insert_emails := (insert_emails clock current_timestamp recursive_triggers).
Abbreviation insert_or_replace_email := (insert_or_replace_email recursive_triggers).
Abbreviation after_insert :=
  (after_insert clock current_timestamp recursive_triggers).

Lemma insert_email_missing_attachments (email : EmailObject) c :
  attr_attachments email = None ->
  insert_email email c = (Raise (AttributeError "attachments"), c).
Proof.
  intros H. unfold Database.insert_email, bind, get, getattr. by rewrite H.
Qed.

Lemma insert_email_run (email : EmailObject) atts c :
  attr_attachments email = Some atts ->
  insert_email email c
  = match insert_attachments (id (fields email)) atts
            (after_insert email atts c) with
    | (Ok _, c') =>
        (Ok (negb (id_exists (id (fields email)) (tables c))), c')
    | (Raise e, c') => (Raise e, c')
    end.
Proof.
  intros H. unfold Database.insert_email. rewrite H.
  unfold bind, get, getattr, ret, now, execute, modify. cbn.
  destruct atts as [|a rest]; [reflexivity|].
  cbn [truthy]. fold (after_insert email (a :: rest) c).
  reflexivity.
Qed.

(** *** The two tables under [insert_email] *)

Lemma foldr_emails_ad_emails (old : list Emails.row) t :
  emails (foldr (emails_ad) t old) = emails t
  /\ attachments (foldr (emails_ad) t old) = attachments t
  /\ sqlite_sequence (foldr (emails_ad) t old) = sqlite_sequence t.
Proof. induction old as [|r old IH]; [done|]. cbn. exact IH. Qed.

Lemma insert_or_replace_email_tables ts (new : Emails.row) t :
  exists rid,
    emails (insert_or_replace_email ts new t)
    = filter (fun r => Emails.id r ≠ Emails.id new) (emails t)
      ++ [ {| Emails.rowid := rid;
              Emails.id := Emails.id new;
              Emails.thread_id := Emails.thread_id new;
              Emails.from_email := Emails.from_email new;
              Emails.from_name := Emails.from_name new;
              Emails.from_domain := Emails.from_domain new;
              Emails.to_emails := Emails.to_emails new;
              Emails.cc_emails := Emails.cc_emails new;
              Emails.subject := Emails.subject new;
              Emails.body := Emails.body new;
              Emails.body_html := Emails.body_html new;
              Emails.snippet := Emails.snippet new;
              Emails.label_ids := Emails.label_ids new;
              Emails.date_header := Emails.date_header new;
              Emails.timestamp := Emails.timestamp new;
              Emails.size_estimate := Emails.size_estimate new;
              Emails.has_attachments := Emails.has_attachments new;
              Emails.created_at := ts;
              Emails.updated_at := Emails.updated_at new |} ]
    /\ attachments (insert_or_replace_email ts new t) = attachments t.
Proof.
  exists (next_rowid (emails t)).
  unfold Database.insert_or_replace_email.
  destruct recursive_triggers; cbn.
  - destruct (foldr_emails_ad_emails
               (filter (fun r => Emails.id r = Emails.id new) (emails t))
               (with_emails
                  (filter (fun r => Emails.id r ≠ Emails.id new) (emails t)) t))
      as (-> & -> & _). done.
  - done.
Qed.

Lemma insert_attachments_emails mid (atts : list GmailAttachment) c :
  emails (tables (insert_attachments mid atts c).2) = emails (tables c).
Proof.
  revert c. induction atts as [|a rest IH]; intros c; [done|].
  cbn [insert_attachments]. unfold bind at 1.
  unfold insert_or_replace_attachment.
  destruct (attachment_id a) as [aid|]; [|done].
  unfold execute, modify. cbn [fst snd].
  match goal with |- context [insert_attachments mid rest ?c1] =>
    specialize (IH c1); destruct (insert_attachments mid rest c1) as [[[]|e] c2]
  end; exact IH.
Qed.

Lemma id_exists_after_insert (email : EmailObject) atts c :
  id_exists (id (fields email)) (tables (after_insert email atts c)) = true.
Proof.
  unfold id_exists, Database.after_insert. cbn [tables].
  destruct (insert_or_replace_email_tables
              (current_timestamp (S (ticks c)))
              (email_values email (if truthy atts then 1 else 0)
                 (clock (ticks c))) (tables c)) as (rid & -> & _).
  apply bool_decide_eq_true_2, Exists_app. right. constructor. cbn.
  unfold email_values. by destruct (extract_email_parts _) as [[??]?].
Qed.

(** The result of a call that returns. *)
Lemma insert_email_ok (email : EmailObject) c b c' :
  insert_email email c = (Ok b, c') ->
  exists atts,
    attr_attachments email = Some atts
    /\ insert_attachments (id (fields email)) atts (after_insert email atts c)
       = (Ok tt, c')
    /\ b = negb (id_exists (id (fields email)) (tables c))
    /\ emails (tables c') = emails (tables (after_insert email atts c))
    /\ id_exists (id (fields email)) (tables c') = true.
Proof.
  intros H. destruct (attr_attachments email) as [atts|] eqn:Ha.
  - exists atts. split; [done|].
    rewrite (insert_email_run _ _ _ Ha) in H.
    pose proof (insert_attachments_emails (id (fields email)) atts
                  (after_insert email atts c)) as He.
    pose proof (id_exists_after_insert email atts c) as Hx.
    destruct (insert_attachments _ _ _) as [[[]|e] c1]; inversion H; subst.
    cbn [snd] in He. repeat split; [done|].
    unfold id_exists in *. by rewrite He.
  - by rewrite (insert_email_missing_attachments _ _ Ha) in H.
Qed.

(** C4. For a value of the declared type [GmailMessage], which has no
    [attachments] attribute, [insert_email] raises AttributeError: the
    attributes [cc], [body_html], [date] and [size_estimate] are probed and
    defaulted, [attachments] is read unguarded while the parameters of the
    INSERT are built. Only the SELECT has run by then: the connection, and so
    the database, is as before the call. *)
Theorem insert_email_declared_raises (m : GmailMessage) c :
  insert_email (of_message m) c = (Raise (AttributeError "attachments"), c).
Proof. by apply insert_email_missing_attachments. Qed.

(** C8 (amended). When [insert_email] returns, it returns whether the id
    was new: [True] if no row of [emails] had the id before the call, [False]
    if one had; after the call a row has it. *)
Theorem insert_email_returns_new (email : EmailObject) c b c' :
  insert_email email c = (Ok b, c') ->
  b = negb (id_exists (id (fields email)) (tables c))
  /\ id_exists (id (fields email)) (tables c') = true.
Proof.
  intros H.
  by destruct (insert_email_ok _ _ _ _ H) as (atts & _ & _ & -> & _ & Hx).
Qed.

(** *** Replaying the attachments of a message *)

Lemma filter_attachment_content (P : Attachments.row -> Prop)
    `{!forall r, Decision (P r)} (l : list Attachments.row) :
  (forall r, P (attachment_content r) <-> P r) ->
  attachment_content <$> filter P l = filter P (attachment_content <$> l).
Proof.
  intros HP. induction l as [|r l IH]; [done|].
  rewrite fmap_cons, !filter_cons.
  destruct (decide (P r)) as [Hp|Hp], (decide (P (attachment_content r)))
    as [Hp'|Hp']; rewrite ?fmap_cons, IH; try done.
  - exfalso. by apply Hp', HP.
  - exfalso. by apply Hp, HP.
Qed.

Lemma replace_attachment_content mid aid (att : GmailAttachment) t :
  attachment_content <$> attachments (replace_attachment mid aid att t)
  = content_put mid (attachment_content <$> attachments t) (aid, att).
Proof.
  unfold replace_attachment, content_put. cbn [attachments].
  rewrite fmap_app. f_equal.
  apply (filter_attachment_content (fun r => ¬ same_key mid aid r)).
  intros r. unfold same_key. by destruct r.
Qed.

Lemma foldl_replace_attachment_content mid
    (ps : list (string * GmailAttachment)) t :
  attachment_content <$>
    attachments (foldl (fun t p => replace_attachment mid p.1 p.2 t) t ps)
  = foldl (content_put mid) (attachment_content <$> attachments t) ps.
Proof.
  revert t. induction ps as [|[aid att] ps IH]; intros t; [done|].
  cbn [foldl]. rewrite IH. cbn [fst snd]. by rewrite replace_attachment_content.
Qed.

Lemma foldl_content_put_split mid (ps : list (string * GmailAttachment))
    (l : list Attachments.row) :
  foldl (content_put mid) l ps
  = filter (fun r => ¬ hit mid ps r) l ++ foldl (content_put mid) [] ps.
Proof.
  revert l. induction ps as [|p ps IH]; intros l.
  - cbn. rewrite app_nil_r. symmetry.
    induction l as [|r l IHl]; [done|].
    rewrite filter_cons_True; [by rewrite IHl|].
    unfold hit. cbn. intros [_ H]. by apply elem_of_nil in H.
  - cbn [foldl]. rewrite IH. rewrite (IH (content_put mid [] p)).
    unfold content_put at 1 3. rewrite filter_nil, app_nil_l.
    rewrite !filter_app, <- app_assoc. f_equal.
    rewrite list_filter_filter. apply list_filter_iff.
    intros r. unfold hit, same_key. rewrite fmap_cons, elem_of_cons.
    destruct (decide (Attachments.attachment_id r = p.1)); naive_solver.
Qed.

Lemma foldl_content_put_hit mid (ps : list (string * GmailAttachment))
    (l : list Attachments.row) r :
  r ∈ foldl (content_put mid) l ps -> r ∈ l \/ hit mid ps r.
Proof.
  revert l. induction ps as [|p ps IH]; intros l; cbn [foldl]; [by left|].
  intros [H|H]%IH.
  - unfold content_put in H. apply elem_of_app in H as [H|H].
    + apply list_elem_of_filter in H as [_ H]. by left.
    + apply list_elem_of_singleton in H as ->. right.
      unfold hit. cbn. split; [done|]. set_solver.
  - right. unfold hit in *. rewrite fmap_cons. set_solver.
Qed.

(** Replaying the same attachments changes no row, ids apart. *)
Lemma foldl_content_put_idem mid (ps : list (string * GmailAttachment))
    (l : list Attachments.row) :
  foldl (content_put mid) (foldl (content_put mid) l ps) ps
  = foldl (content_put mid) l ps.
Proof.
  rewrite (foldl_content_put_split mid ps (foldl _ l ps)).
  rewrite (foldl_content_put_split mid ps l) at 1.
  rewrite filter_app.
  rewrite (list_filter_filter_l _ _ l) by done.
  assert (H0 : filter (fun r => ¬ hit mid ps r)
                 (foldl (content_put mid) [] ps) = []).
  { destruct (filter _ _) as [|r l'] eqn:E; [done|].
    assert (Hr : r ∈ filter (fun r => ¬ hit mid ps r)
                       (foldl (content_put mid) [] ps))
      by (rewrite E; left).
    apply list_elem_of_filter in Hr as [Hn Hr].
    apply foldl_content_put_hit in Hr as [Hr|Hr]; [|done].
    by apply elem_of_nil in Hr. }
  rewrite H0, app_nil_r. symmetry. apply foldl_content_put_split.
Qed.

Lemma insert_attachments_ok mid (atts : list GmailAttachment) c c' :
  insert_attachments mid atts c = (Ok tt, c') ->
  c' = set_tables
         (foldl (fun t p => replace_attachment mid p.1 p.2 t) (tables c)
                (keyed atts)) c.
Proof.
  revert c. induction atts as [|a rest IH]; intros c.
  - cbn. intros [= <-]. by destruct c.
  - cbn [insert_attachments]. unfold bind at 1.
    unfold insert_or_replace_attachment, keyed.
    destruct (attachment_id a) as [aid|] eqn:Ea; [|done].
    cbn. rewrite ?Ea. cbn.
    intros H. apply IH in H. rewrite H. by destruct c.
Qed.

Lemma email_values_id (email : EmailObject) h u :
  Emails.id (email_values email h u) = id (fields email).
Proof.
  unfold email_values. by destruct (extract_email_parts _) as [[??]?].
Qed.

Lemma filter_other_id_idem (i : string) (l : list Emails.row) r :
  Emails.id r = i ->
  filter (fun x => Emails.id x ≠ i)
         (filter (fun x => Emails.id x ≠ i) l ++ [r])
  = filter (fun x => Emails.id x ≠ i) l.
Proof.
  intros Hr. rewrite filter_app, list_filter_filter_l by done.
  rewrite filter_cons_False, filter_nil, app_nil_r; [done|]. by intros ?.
Qed.

Lemma after_insert_emails (email : EmailObject) atts c :
  exists row,
    emails (tables (after_insert email atts c))
    = filter (fun r => Emails.id r ≠ id (fields email)) (emails (tables c))
      ++ [row]
    /\ Emails.id row = id (fields email)
    /\ email_content row
       = email_content
           (email_values email (if truthy atts then 1 else 0) EmptyString).
Proof.
  unfold Database.after_insert. cbn [tables].
  destruct (insert_or_replace_email_tables
              (current_timestamp (S (ticks c)))
              (email_values email (if truthy atts then 1 else 0)
                 (clock (ticks c))) (tables c)) as (rid & E & _).
  rewrite E, !email_values_id. eexists. split; [reflexivity|].
  cbn. split; [done|].
  unfold email_content, email_values.
  by destruct (extract_email_parts _) as [[??]?].
Qed.

(** C3 (amended). When two calls of [insert_email] with the same object
    both return, the first returns [True] if the id was not in [emails]
    before it, the second returns [False], and after the second call the
    tables [emails] and [attachments] hold the rows they held after the
    first, up to what the clock and the engine put in them: the columns
    [created_at] and [updated_at], the rowid, and the id of an attachment
    row. *)
Theorem insert_email_twice (email : EmailObject) c b1 c1 b2 c2 :
  insert_email email c = (Ok b1, c1) ->
  insert_email email c1 = (Ok b2, c2) ->
  (id_exists (id (fields email)) (tables c) = false -> b1 = true)
  /\ b2 = false
  /\ email_content <$> emails (tables c2)
     = email_content <$> emails (tables c1)
  /\ attachment_content <$> attachments (tables c2)
     = attachment_content <$> attachments (tables c1).
Proof.
  intros H1 H2.
  destruct (insert_email_ok _ _ _ _ H1)
    as (atts & Ha & Hatt1 & -> & He1 & Hx1).
  destruct (insert_email_ok _ _ _ _ H2)
    as (atts' & Ha' & Hatt2 & -> & He2 & Hx2).
  rewrite Ha in Ha'. inversion Ha'; subst atts'. clear Ha'.
  split; [by intros ->|]. split; [by rewrite Hx1|]. split.
  - rewrite He2, He1.
    destruct (after_insert_emails email atts c) as (r1 & E1 & Hi1 & Hc1).
    destruct (after_insert_emails email atts c1) as (r2 & E2 & Hi2 & Hc2).
    rewrite E2, He1, E1, filter_other_id_idem by done.
    rewrite !fmap_app. cbn. by rewrite Hc1, Hc2.
  - apply insert_attachments_ok in Hatt1, Hatt2. subst c1 c2.
    cbn [tables set_tables Database.after_insert].
    rewrite !foldl_replace_attachment_content.
    destruct (insert_or_replace_email_tables
                (current_timestamp (S (ticks c)))
                (email_values email (if truthy atts then 1 else 0)
                   (clock (ticks c))) (tables c)) as (rid1 & _ & ->).
    match goal with |- context [insert_or_replace_email ?ts ?new ?t] =>
      destruct (insert_or_replace_email_tables ts new t) as (rid2 & _ & ->)
    end.
    cbn [tables attachments].
    rewrite foldl_replace_attachment_content.
    match goal with |- context [insert_or_replace_email ?ts ?new ?t] =>
      destruct (insert_or_replace_email_tables ts new t) as (rid3 & _ & ->)
    end.
    apply foldl_content_put_idem.
Qed.

(** *** Search after a batch of declared records *)

Lemma search_emails_no_rows fts_match order_by_rank query limit c :
  emails (tables c) = [] ->
  search_emails fts_match order_by_rank query limit c = [].
Proof.
  intros He. unfold search_emails. rewrite He.
  set (hits := order_by_rank _ _). clearbody hits.
  assert (H : (hits ≫= fun d =>
             filter (fun e => Emails.rowid e = EmailsFts.rowid d) [])
            = ([] : list Emails.row)).
  { induction hits as [|d hits IH]; [done|]. cbn. exact IH. }
  rewrite H. unfold sql_limit. destruct (limit <? 0); [done|].
  apply take_nil.
Qed.

(** C5, at a batch of one record of the declared type on a new database:
    [insert_emails] raises AttributeError before any row is written, the
    tables stay empty, and a search, for any query (a token of the record's
    subject too), returns nothing. *)
Theorem search_emails_after_declared_insert fts_match order_by_rank
    (m : GmailMessage) query limit :
  let r := insert_emails [of_message m] (create_database None) in
  r.1 = Raise (AttributeError "attachments")
  /\ tables r.2 = no_tables
  /\ search_emails fts_match order_by_rank query limit r.2 = [].
Proof.
  cbn zeta. unfold Database.insert_emails. unfold bind at 1.
  cbn [insert_loop]. unfold bind at 1.
  rewrite insert_email_missing_attachments by done. cbn [fst snd].
  repeat split. by apply search_emails_no_rows.
Qed.

End Facts.

(** *** Examples *)

Abbreviation clock0 := Storage.clock0.

Lemma insert_email_twice_witness :
  let e := with_attachments (Storage.msg "m1" "alpha") [sample_attachment] in
  let c := create_database None in
  let c1 := (insert_email clock0 clock0 false e c).2 in
  let c2 := (insert_email clock0 clock0 false e c1).2 in
  (insert_email clock0 clock0 false e c).1 = Ok true
  /\ (insert_email clock0 clock0 false e c1).1 = Ok false
  /\ email_content <$> emails (tables c2)
     = email_content <$> emails (tables c1)
  /\ attachment_content <$> attachments (tables c2)
     = attachment_content <$> attachments (tables c1).
Proof.
  intros e c c1 c2.
  assert (H1 : insert_email clock0 clock0 false e c = (Ok true, c1))
    by reflexivity.
  assert (H2 : insert_email clock0 clock0 false e c1 = (Ok false, c2))
    by reflexivity.
  destruct (insert_email_twice clock0 clock0 false e c true c1 false c2 H1 H2)
    as (_ & _ & He & Ha).
  rewrite H1, H2. split; [reflexivity|]. split; [reflexivity|].
  split; [exact He | exact Ha].
Defined.

(** C3, as stated, fails. A record of the declared type makes the first
    call raise. An object that has the [attachments] attribute makes both
    calls return, [True] then [False], and the tables after the second call
    are not those after the first: [updated_at] is the time of the call, and
    the engine numbers the replacing rows anew. *)
Lemma insert_email_twice_not_identical :
  let e := with_attachments (Storage.msg "m1" "alpha") [sample_attachment] in
  let c := create_database None in
  let r1 := insert_email clock0 clock0 false e c in
  let r2 := insert_email clock0 clock0 false e r1.2 in
  (insert_email clock0 clock0 false (of_message (Storage.msg "m1" "alpha")) c).1
    = Raise (AttributeError "attachments")
  /\ r1.1 = Ok true
  /\ r2.1 = Ok false
  /\ Emails.updated_at <$> emails (tables r1.2) = ["2024-01-01T00:00:00"]
  /\ Emails.updated_at <$> emails (tables r2.2) = ["2024-01-02T00:00:00"]
  /\ Emails.rowid <$> emails (tables r1.2) = [1]
  /\ Emails.rowid <$> emails (tables r2.2) = [2]
  /\ Attachments.id <$> attachments (tables r1.2) = [1]
  /\ Attachments.id <$> attachments (tables r2.2) = [2]
  /\ tables r2.2 ≠ tables r1.2.
Proof.
  vm_compute. repeat split. discriminate.
Qed.

Lemma insert_email_returns_new_witness :
  let e := with_attachments (Storage.msg "m1" "alpha") [] in
  let c := create_database None in
  let r := insert_email clock0 clock0 false e c in
  id_exists "m1" (tables c) = false
  /\ r.1 = Ok true
  /\ id_exists "m1" (tables r.2) = true.
Proof.
  intros e c r.
  assert (H : insert_email clock0 clock0 false e c = (Ok true, r.2))
    by reflexivity.
  destruct (insert_email_returns_new clock0 clock0 false e c true r.2 H)
    as [_ Hx].
  split; [reflexivity|]. split; [exact (f_equal fst H) | exact Hx].
Defined.

(** C8, as stated, fails: on a table without the id the call returns
    [True], and on a table with it the call returns [False] (a record of
    the declared type returns nothing: the call raises). *)
Lemma insert_email_returns_not_existed :
  let e := with_attachments (Storage.msg "m1" "alpha") [] in
  let c := create_database None in
  let r1 := insert_email clock0 clock0 false e c in
  let r2 := insert_email clock0 clock0 false e r1.2 in
  id_exists "m1" (tables c) = false
  /\ r1.1 = Ok true
  /\ id_exists "m1" (tables r1.2) = true
  /\ r2.1 = Ok false
  /\ (insert_email clock0 clock0 false
        (of_message (Storage.msg "m1" "alpha")) c).1
     = Raise (AttributeError "attachments").
Proof.
  vm_compute. repeat split.
Qed.

(** With recursive triggers off, as SQLite has them unless told otherwise,
    replacing a row leaves its old entry in the full-text index; the join of
    [search_emails] hides it, since no row has the old rowid any more. *)
Example fts_entry_left_after_replace :
  let e1 := with_attachments (Storage.msg "m1" "alpha") [] in
  let e2 := with_attachments (Storage.msg "m1" "beta") [] in
  let c := create_database None in
  let c1 := (insert_email clock0 clock0 false e1 c).2 in
  let c2 := (insert_email clock0 clock0 false e2 c1).2 in
  EmailsFts.subject <$> emails_fts (tables c2) = ["alpha"; "beta"]
  /\ Emails.subject <$> emails (tables c2) = ["beta"]
  /\ EmailsFts.rowid <$> emails_fts (tables c2) = [1; 2]
  /\ Emails.rowid <$> emails (tables c2) = [2].
Proof.
  vm_compute. repeat split.
Qed.

End DatabaseSpec.

(** ** The parts of a header are normalised *)

Module HeaderSpec.
Import Str Re StrSpec ReSpec ParsingSpec Database.
Local Open Scope nat_scope.

Lemma lower_char_idem (c : ascii) : lower_char (lower_char c) = lower_char c.
Proof. destruct c as [[] [] [] [] [] [] [] []]; reflexivity. Qed.

Lemma lower_idem (s : string) : lower (lower s) = lower s.
Proof.
  induction s as [|c s IH]; [done|]. cbn. by rewrite lower_char_idem, IH.
Qed.

Lemma rstrip_idem (s : string) : rstrip (rstrip s) = rstrip s.
Proof.
  induction s as [|c s IH]; [done|]. cbn.
  destruct (rstrip s) as [|d t] eqn:E.
  - destruct (isspace c) eqn:Hc; [done|]. cbn. by rewrite Hc.
  - cbn. cbn in IH. by destruct (rstrip t) eqn:E'; rewrite IH.
Qed.

Lemma rstrip_head (s : string) c t :
  rstrip s = String c t -> exists s', s = String c s'.
Proof.
  destruct s as [|a s]; [done|]. cbn.
  destruct (rstrip s); [destruct (isspace a)|]; intros [= -> _]; by eexists.
Qed.

Lemma lstrip_head (s : string) c t :
  lstrip s = String c t -> isspace c = false.
Proof.
  induction s as [|a s IH]; [done|]. cbn.
  destruct (isspace a) eqn:Ha; [done|]. by intros [= <- _].
Qed.

Lemma strip_idem (s : string) : strip (strip s) = strip s.
Proof.
  unfold strip. destruct (rstrip (lstrip s)) as [|c t] eqn:E; [done|].
  destruct (rstrip_head _ _ _ E) as [s' Hs'].
  apply lstrip_head in Hs'. cbn [lstrip]. rewrite Hs'.
  rewrite <- E. apply rstrip_idem.
Qed.

Lemma split_pieces c (s : string) :
  Forall (fun x => contains c x = false) (split c s).
Proof.
  induction s as [|a s IH]; cbn; [by constructor|].
  destruct (decide (a = c)) as [->|Hne]; [by constructor|].
  destruct (split c s) as [|h t]; [by constructor; [cbn; rewrite decide_False|]|].
  inversion IH; subst. constructor; [|done]. cbn. by rewrite decide_False.
Qed.

Lemma last_item_Forall (P : string -> Prop) (l : list string) :
  l ≠ [] -> Forall P l -> P (last_item l).
Proof.
  unfold last_item. induction l as [|x l IH]; [done|]. intros _ H.
  inversion H; subst. destruct l as [|y l]; [done|]. by apply IH.
Qed.

Lemma split_not_nil c (s : string) : split c s ≠ [].
Proof.
  destruct s as [|a s]; cbn; [done|].
  destruct (decide (a = c)); [done|]. by destruct (split c s).
Qed.

Lemma domain_of_no_at_sign (e : string) : contains "@" (domain_of e) = false.
Proof.
  unfold domain_of. destruct (contains "@" e); [|done].
  apply (last_item_Forall (fun x => contains "@" x = false));
    [apply split_not_nil|apply split_pieces].
Qed.

Lemma last_item_split_suffix c (s : string) :
  contains c s = true ->
  exists u, s = u +:+ String c (last_item (split c s)).
Proof.
  induction s as [|a s IH]; [done|]. intros H.
  destruct (contains c s) eqn:Hs.
  - destruct (IH eq_refl) as [u Hu]. exists (String a u).
    rewrite last_split_cons by done. rewrite string_app_cons. by rewrite <- Hu.
  - cbn in H. rewrite Hs in H. destruct (decide (a = c)) as [->|]; [|done].
    exists EmptyString. cbn. rewrite decide_True by done.
    by rewrite split_no_sep.
Qed.

Lemma lower_app (a b : string) : lower (a +:+ b) = lower a +:+ lower b.
Proof.
  induction a as [|x a IH]; [done|]. rewrite string_app_cons. cbn.
  by rewrite string_app_cons, IH.
Qed.

Lemma lower_domain_of (e : string) :
  lower e = e -> lower (domain_of e) = domain_of e.
Proof.
  intros He. unfold domain_of. destruct (contains "@" e) eqn:H; [|done].
  destruct (last_item_split_suffix _ _ H) as [u Hu].
  set (d := last_item _) in *.
  rewrite Hu in He. rewrite lower_app in He. cbn in He.
  assert (Hl : String.length (lower u) = String.length u).
  { clear. induction u as [|x u IH]; [done|]. cbn. by rewrite IH. }
  clear Hu. revert He Hl. generalize (lower u). intros v. revert v.
  induction u as [|x u IH]; intros [|y v]; cbn; try done.
  - by intros [= ->].
  - rewrite !string_app_cons. intros [= -> He] [= Hl]. by eapply IH.
Qed.

Lemma is_ascii_lstrip (s : string) :
  is_ascii s = true -> is_ascii (lstrip s) = true.
Proof.
  induction s as [|c s IH]; [done|]. cbn [lstrip].
  destruct (isspace c); [|done]. unfold is_ascii in *. cbn [all].
  intros [_ H]%andb_prop. by apply IH.
Qed.

Lemma is_ascii_rstrip (s : string) :
  is_ascii s = true -> is_ascii (rstrip s) = true.
Proof.
  unfold is_ascii. induction s as [|c s IH]; [done|]. cbn [rstrip all].
  intros [Hc H]%andb_prop. specialize (IH H).
  destruct (rstrip s) as [|d t].
  - destruct (isspace c); [done|]. cbn [all]. by rewrite Hc.
  - cbn [all] in *. by rewrite Hc, IH.
Qed.

Lemma is_ascii_strip (s : string) :
  is_ascii s = true -> is_ascii (strip s) = true.
Proof. intros H. by apply is_ascii_rstrip, is_ascii_lstrip. Qed.

Lemma lower_char_ascii (c : ascii) :
  (nat_of_ascii c <? 128) = true -> (nat_of_ascii (lower_char c) <? 128) = true.
Proof. destruct c as [[] [] [] [] [] [] [] []]; by vm_compute. Qed.

Lemma is_ascii_lower (s : string) :
  is_ascii s = true -> is_ascii (lower s) = true.
Proof.
  unfold is_ascii. induction s as [|c s IH]; [done|]. cbn [lower all].
  intros [Hc H]%andb_prop. by rewrite (lower_char_ascii _ Hc), IH.
Qed.

Lemma is_ascii_split c (s : string) :
  is_ascii s = true -> Forall (fun x => is_ascii x = true) (split c s).
Proof.
  unfold is_ascii. induction s as [|a s IH]; cbn [split all].
  - by constructor.
  - intros [Ha H]%andb_prop. specialize (IH H).
    destruct (decide (a = c)); [by constructor|].
    destruct (split c s) as [|h t];
      [constructor; [cbn [all]; by rewrite Ha|done]|].
    inversion IH; subst. constructor; [|done]. cbn [all]. by rewrite Ha.
Qed.

Lemma is_ascii_domain_of (e : string) :
  is_ascii e = true -> is_ascii (domain_of e) = true.
Proof.
  intros H. unfold domain_of. destruct (contains "@" e); [|done].
  apply (last_item_Forall (fun x => is_ascii x = true));
    [apply split_not_nil|by apply is_ascii_split].
Qed.

(** The parts of an ASCII header are ASCII strings. *)
Lemma is_ascii_extract_email_parts (from_header : string) :
  is_ascii from_header = true ->
  let '(email, name, domain) := extract_email_parts from_header in
  is_ascii email = true /\ is_ascii name = true /\ is_ascii domain = true.
Proof.
  intros H%is_ascii_strip. unfold extract_email_parts.
  pose proof (match_from_pattern from_header) as Hm.
  destruct (match_ from_pattern (strip from_header)) as [mo|].
  - destruct Hm as (name & addr & Hform & -> & ->).
    inversion Hform as [q1 n q2 ws a _ _ _ _ _ _ Ht]; subst n a.
    clear Ht Hform. unfold is_ascii in H.
    rewrite !all_app in H.
    apply andb_prop in H as [_ H]. apply andb_prop in H as [Hn H].
    apply andb_prop in H as [_ H]. apply andb_prop in H as [_ H].
    apply andb_prop in H as [_ H]. apply andb_prop in H as [Ha _].
    assert (Hl : is_ascii (lower addr) = true) by (by apply is_ascii_lower).
    split; [done|]. split; [by apply is_ascii_strip|].
    by apply is_ascii_domain_of.
  - assert (Hl : is_ascii (lower (strip from_header)) = true)
      by (by apply is_ascii_lower).
    split; [done|]. split; [done|]. by apply is_ascii_domain_of.
Qed.

Lemma extract_email_parts_domain (from_header : string) :
  contains "@" (extract_email_parts from_header).2 = false.
Proof.
  unfold extract_email_parts.
  destruct (match_ from_pattern (strip from_header)) as [mo|];
    apply domain_of_no_at_sign.
Qed.

(** X11. The parts [extract_email_parts] returns for a header of ASCII
    characters are normalised: they are ASCII strings, the address and the
    domain are in lower case, the name has no whitespace at either end, and
    the domain holds no at sign; when the address holds an at sign, the
    address ends with an at sign followed by the domain. *)
Theorem extract_email_parts_normal (from_header : string) :
  is_ascii from_header = true ->
  let '(email, name, domain) := extract_email_parts from_header in
  (is_ascii email = true /\ is_ascii name = true /\ is_ascii domain = true)
  /\ lower email = email
  /\ strip name = name
  /\ lower domain = domain
  /\ contains "@" domain = false
  /\ (contains "@" email = true -> exists u, email = u +:+ "@" +:+ domain).
Proof.
  intros Hascii%is_ascii_extract_email_parts. revert Hascii.
  unfold extract_email_parts.
  destruct (match_ from_pattern (strip from_header)) as [mo|];
    intros Hascii; (split; [exact Hascii|]).
  - split; [apply lower_idem|]. split; [apply strip_idem|].
    split; [apply lower_domain_of, lower_idem|].
    split; [apply domain_of_no_at_sign|].
    intros H. unfold domain_of. rewrite H.
    by apply last_item_split_suffix.
  - split; [apply lower_idem|]. split; [done|].
    split; [apply lower_domain_of, lower_idem|].
    split; [apply domain_of_no_at_sign|].
    intros H. unfold domain_of. rewrite H.
    by apply last_item_split_suffix.
Qed.

Lemma extract_email_parts_normal_witness :
  is_ascii "Jane Roe <Jane@Example.COM>" = true
  /\ extract_email_parts "Jane Roe <Jane@Example.COM>"
     = ("jane@example.com", "Jane Roe", "example.com")
  /\ lower "jane@example.com" = "jane@example.com"
  /\ strip "Jane Roe" = "Jane Roe".
Proof.
  assert (Ha : is_ascii "Jane Roe <Jane@Example.COM>" = true)
    by reflexivity.
  pose proof (extract_email_parts_normal "Jane Roe <Jane@Example.COM>" Ha)
    as H.
  assert (E : extract_email_parts "Jane Roe <Jane@Example.COM>"
              = ("jane@example.com", "Jane Roe", "example.com"))
    by (by vm_compute).
  rewrite E in H. destruct H as (_ & H1 & H2 & _).
  split; [exact Ha|]. split; [exact E|]. split; [exact H1|exact H2].
Defined.

End HeaderSpec.

(** ** The file cache, across calls and sessions *)

Module CacheSpec.
Import Types Storage StrSpec StorageSpec.

Section Facts.
Variable storage_dir : string.
Variable clock : nat -> string.

Abbreviation index := (index storage_dir).
Abbreviation msg_file := (msg_file storage_dir).
Abbreviation index_file := (index_file storage_dir).
Abbreviation put_file := (put_file storage_dir).
Abbreviation store_message := (store_message storage_dir).
Abbreviation store_messages := (store_messages storage_dir clock).
Abbreviation has_message := (has_message storage_dir).
Abbreviation get_new_message_ids := (get_new_message_ids storage_dir).
Abbreviation load_all_messages := (load_all_messages storage_dir).
Abbreviation is_message_file := (is_message_file storage_dir).
Abbreviation after_batch := (after_batch storage_dir clock).
Abbreviation read_file := (read_file storage_dir).

Lemma store_messages_readable (messages : list GmailMessage) st ix st0 :
  index st = (Ok ix, st0) ->
  store_messages messages st
  = (Ok (Z.of_nat (length (newly_stored (message_ids ix) messages))),
     after_batch messages st ix).
Proof.
  intros Hix. destruct (index_ok_inv _ _ _ _ Hix) as [Hst0 _].
  rewrite (store_messages_lazy _ _ _ _ _ _ Hix).
  rewrite (store_messages_run _ _ _ st0 ix) by (by rewrite Hst0).
  by rewrite Hst0.
Qed.

Lemma after_batch_ids (messages : list GmailMessage) st ix :
  exists ix',
    _index (after_batch messages st ix) = Some ix'
    /\ message_ids ix' = message_ids ix ∪ list_to_set (id <$> messages)
    /\ last_sync ix' = clock (ticks st)
    /\ version ix' = version ix
    /\ (index_ok ix -> index_ok ix').
Proof.
  eexists. split; [reflexivity|]. cbn. split; [|split; [done|split]].
  - rewrite foldl_add_message_ids. apply newly_stored_ids.
  - generalize (newly_stored (message_ids ix) messages). intros new.
    revert ix. induction new as [|m new IH]; intros ix; [done|]. cbn.
    by rewrite IH.
  - intros Hok. by apply (foldl_add_message_ok ix).
Qed.

Lemma newly_stored_known K (messages : list GmailMessage) :
  list_to_set (id <$> messages) ⊆ K -> newly_stored K messages = [].
Proof.
  induction messages as [|m rest IH]; [done|]. cbn. intros H.
  rewrite decide_True by set_solver. apply IH. set_solver.
Qed.

Lemma filter_known (K : gset string) (ids : list string) :
  list_to_set ids ⊆ K -> filter (fun mid => mid ∉ K) ids = [].
Proof.
  induction ids as [|i ids IH]; [done|]. intros H.
  rewrite filter_cons_False by (intros Hn; apply Hn; set_solver).
  apply IH. set_solver.
Qed.

(** *** One record *)

Lemma index_raise st e : (index st).1 = Raise e -> index st = (Raise e, st).
Proof.
  unfold Storage.index. destruct (_index st) as [ix|]; [done|].
  destruct (files st !! index_file) as [t|]; [|done].
  destruct (load_index t); [done|]. by intros [= ->].
Qed.

Lemma index_only_written {A} (c : M State A) st :
  index_only c -> written (c st).2 = written st.
Proof. intros H. destruct (H st) as [o ->]. done. Qed.

Lemma store_message_written (m : GmailMessage) st :
  written (store_message m st).2 = written st ++ [msg_file (id m)].
Proof.
  unfold Storage.store_message. unfold bind at 1.
  unfold write_text at 1, modify.
  set (st1 := Build_State _ _ _ _).
  transitivity (written st1); [|reflexivity].
  apply index_only_written.
  apply index_only_bind; [apply index_only_update|]. intros _.
  apply index_only_bind; [apply index_only_index|]. intros ix.
  apply index_only_update.
Qed.

Lemma store_messages_raise (messages : list GmailMessage) st e :
  index st = (Raise e, st) ->
  exists st1,
    store_messages messages st = (Raise e, st1)
    /\ files st1 = files st /\ written st1 = written st.
Proof.
  intros He. unfold Storage.store_messages. unfold bind at 1.
  destruct messages as [|m rest]; cbn [store_loop].
  - unfold ret. unfold bind at 1. unfold now at 1.
    set (st1 := Build_State _ _ _ _).
    assert (H1 : index st1 = (Raise e, st1)).
    { rewrite (index_frame storage_dir st st1) by done. by rewrite He. }
    unfold bind at 1. unfold update_index at 1. unfold bind at 1.
    rewrite H1. by exists st1.
  - unfold bind at 1. unfold Storage.has_message at 1. unfold bind at 1.
    rewrite He. by exists st.
Qed.

(** X4. When the index cannot be loaded (its file does not decode, or is
    not an index), [store_messages] raises the exception of the load and
    writes no file, whatever the batch. *)
Theorem store_messages_unreadable_index (messages : list GmailMessage) st e :
  (index st).1 = Raise e ->
  let r := store_messages messages st in
  r.1 = Raise e /\ files r.2 = files st /\ written r.2 = written st.
Proof.
  intros He. cbn zeta. apply index_raise in He.
  by destruct (store_messages_raise messages st e He) as (st1 & -> & ? & ?).
Qed.

(** *** Reading the whole cache *)

Lemma load_all_messages_read st :
  load_all_messages st = (Ok (omap read_file (map_to_list (files st))), st).
Proof.
  unfold Storage.load_all_messages. do 2 f_equal.
  induction (map_to_list (files st)) as [|[p t] l IH]; [done|].
  cbn. by rewrite IH.
Qed.

Lemma strip_prefix_app (p s : string) : strip_prefix p (p +:+ s) = Some s.
Proof.
  induction p as [|a p IH]; [done|]. rewrite string_app_cons. cbn.
  by rewrite decide_True.
Qed.

Lemma strip_prefix_common (d a b : string) :
  strip_prefix (d +:+ a) (d +:+ b) = strip_prefix a b.
Proof.
  induction d as [|x d IH]; [done|]. rewrite !string_app_cons. cbn.
  by rewrite decide_True.
Qed.

Lemma has_slash_app (a b : string) :
  has_slash (a +:+ b) = has_slash a || has_slash b.
Proof.
  induction a as [|x a IH]; [done|]. rewrite string_app_cons. cbn.
  by destruct (decide (x = "/"%char)).
Qed.

Lemma ends_with_json_app (a : string) : ends_with_json (a +:+ ".json") = true.
Proof.
  induction a as [|x a IH]; [done|]. rewrite string_app_cons.
  cbn [ends_with_json]. by destruct (decide _).
Qed.

Lemma is_message_file_msg_file (i : string) :
  is_message_file (msg_file i) = negb (has_slash i).
Proof.
  unfold Storage.is_message_file, Storage.msg_file.
  rewrite <- string_app_assoc, strip_prefix_app.
  rewrite has_slash_app, ends_with_json_app. cbn.
  by rewrite orb_false_r, andb_true_r.
Qed.

Lemma is_message_file_index_file : is_message_file index_file = false.
Proof.
  unfold Storage.is_message_file, Storage.index_file, messages_dir.
  by rewrite string_app_assoc, strip_prefix_common.
Qed.

Lemma omap_insert_fresh {A} (f : string * text -> option A)
    (fs : gmap string text) p t :
  fs !! p = None ->
  omap f (map_to_list (<[p := t]> fs))
  ≡ₚ option_list (f (p, t)) ++ omap f (map_to_list fs).
Proof.
  intros Hp. rewrite (map_to_list_insert fs p t Hp). cbn.
  by destruct (f (p, t)).
Qed.

Lemma omap_insert_unread {A} (f : string * text -> option A)
    (fs : gmap string text) p t :
  (forall t0, f (p, t0) = None) ->
  omap f (map_to_list (<[p := t]> fs)) ≡ₚ omap f (map_to_list fs).
Proof.
  intros Hf. rewrite <- insert_delete_eq.
  rewrite omap_insert_fresh by apply lookup_delete_eq.
  rewrite Hf. cbn.
  destruct (fs !! p) as [t0|] eqn:E.
  - rewrite <- (map_to_list_delete fs p t0 E). cbn. by rewrite Hf.
  - by rewrite delete_id.
Qed.

Lemma read_file_put (m : GmailMessage) :
  has_slash (id m) = false ->
  read_file (msg_file (id m), Json (model_dump m)) = Some m.
Proof.
  intros Hs. unfold read_file. cbn [fst snd].
  rewrite is_message_file_msg_file, Hs. cbn [negb].
  unfold model_validate_json. by rewrite model_validate_dump.
Qed.

Lemma omap_foldl_put_file (new : list GmailMessage) fs :
  NoDup (id <$> new) ->
  (forall m, m ∈ new -> has_slash (id m) = false) ->
  (forall m, m ∈ new -> fs !! msg_file (id m) = None) ->
  omap read_file (map_to_list (foldl put_file fs new))
  ≡ₚ omap read_file (map_to_list fs) ++ new.
Proof.
  revert fs. induction new as [|m new IH]; intros fs Hnd Hs Hf.
  - cbn. by rewrite app_nil_r.
  - rewrite fmap_cons in Hnd. apply NoDup_cons in Hnd as [Hm Hnd].
    cbn [foldl]. rewrite IH; [|done|..].
    + unfold Storage.put_file at 1.
      rewrite omap_insert_fresh by (apply Hf; left).
      rewrite read_file_put by (apply Hs; left). cbn.
      by rewrite Permutation_middle.
    + intros x Hx. apply Hs. by right.
    + intros x Hx. unfold Storage.put_file.
      rewrite lookup_insert_ne; [apply Hf; by right|].
      intros E. apply msg_file_inj in E. apply Hm. rewrite E.
      by apply list_elem_of_fmap_2.
Qed.


(** *** Records whose ids are file names

    What [store_message] and [store_messages] leave, for records whose
    ids are file names of the messages directory ([plain_id]): for these
    the file system takes the path of each record, and two ids name two
    files. *)

Section PlainIds.
Variable name_max : nat.
Variable path_max : nat.

Abbreviation plain_id := (plain_id storage_dir name_max path_max).

(** X1. [store_messages] persists the index. When the ids of the batch are
    file names of the messages directory and the index can be read, after
    the batch the object holds an index, and a new [EmailStorage] on the
    files the batch left loads exactly that index from [index.json]. *)
Theorem index_persisted (messages : list GmailMessage) st ix st0 :
  (forall m, m ∈ messages -> plain_id (id m)) ->
  index st = (Ok ix, st0) ->
  let st' := (store_messages messages st).2 in
  let session := init (files st') in
  exists ix',
    _index st' = Some ix'
    /\ index session = (Ok ix', set_index (Some ix') session).
Proof.
  intros _ Hix. cbn zeta. rewrite (store_messages_readable _ _ _ _ Hix).
  cbn [snd]. eexists. split; [reflexivity|].
  unfold Storage.index, init. cbn [_index files after_batch].
  rewrite lookup_insert_eq. by rewrite load_index_dump.
Qed.

(** X2. After [store_message] of a message whose id is a file name of the
    messages directory, when the index can be read, [has_message] answers
    [True] for the id of the message, and for every other id it answers
    whether the id was in the index before the call; neither question
    changes the state. *)
Theorem has_message_store_message (m : GmailMessage) st ix st0 :
  plain_id (id m) ->
  index st = (Ok ix, st0) ->
  let st' := (store_message m st).2 in
  has_message (id m) st' = (Ok true, st')
  /\ forall i, i ≠ id m ->
       has_message i st' = (Ok (bool_decide (i ∈ message_ids ix)), st').
Proof using Type.
  clear clock.
  intros _ Hix. cbn zeta. rewrite (store_message_lazy _ _ _ _ _ Hix). cbn [snd].
  split.
  - rewrite (has_message_run _ _ _ (add_message ix m)) by done.
    rewrite bool_decide_eq_true_2; [done|]. cbn. set_solver.
  - intros i Hi.
    rewrite (has_message_run _ _ _ (add_message ix m)) by done.
    do 2 f_equal. apply bool_decide_ext. cbn. set_solver.
Qed.

(** X3. [store_message] alone does not save the index. For a message
    whose id is a file name of the messages directory it writes one file,
    the file of the message, which is not [index.json]; [index.json] is as
    it was, so a new [EmailStorage] on the files answers [has_message] as
    one on the former files does: the message is not known to it. *)
Theorem store_message_index_not_saved (m : GmailMessage) st :
  plain_id (id m) ->
  let st' := (store_message m st).2 in
  files st' !! index_file = files st !! index_file
  /\ written st' = written st ++ [msg_file (id m)]
  /\ msg_file (id m) ≠ index_file
  /\ forall i, (has_message i (init (files st'))).1
               = (has_message i (init (files st))).1.
Proof using Type.
  clear clock.
  intros _. cbn zeta.
  assert (Hf : files (store_message m st).2 !! index_file
               = files st !! index_file).
  { rewrite store_message_files. apply lookup_insert_ne, msg_file_not_index. }
  split; [exact Hf|]. split; [apply store_message_written|].
  split; [apply msg_file_not_index|].
  intros i. unfold Storage.has_message, bind.
  rewrite (index_frame storage_dir (init (files st))
             (init (files (store_message m st).2))); [|done|exact Hf].
  by destruct (Storage.index storage_dir (init (files st))) as [[ix|e] s].
Qed.

(** X5. When the index cannot be loaded, [store_message] of a message
    whose id is a file name of the messages directory raises the exception
    of the load only after it has written the file of the message: the file
    stays in the cache although the call failed, and the object is
    otherwise unchanged. *)
Theorem store_message_unreadable_index (m : GmailMessage) st e :
  plain_id (id m) ->
  (index st).1 = Raise e ->
  store_message m st
  = (Raise e,
     {| files := <[msg_file (id m) := Json (model_dump m)]> (files st);
        ticks := ticks st;
        written := written st ++ [msg_file (id m)];
        _index := _index st |}).
Proof using Type.
  clear clock.
  intros _ He. apply index_raise in He.
  unfold Storage.store_message. unfold bind at 1.
  unfold write_text at 1, modify.
  set (st1 := Build_State _ _ _ _).
  assert (H1 : index st1 = (Raise e, st1)).
  { rewrite (index_frame storage_dir st st1); [by rewrite He|done|].
    subst st1. cbn. apply lookup_insert_ne, msg_file_not_index. }
  unfold bind at 1. unfold update_index at 1. unfold bind at 1.
  by rewrite H1.
Qed.

(** X6. Storing a batch a second time stores nothing. When the ids of the
    batch are file names of the messages directory and the index can be
    read, the second [store_messages] of the same batch returns 0, writes
    [index.json] and no message file, and changes nothing of the index but
    [last_sync], which becomes the time of the second call. *)
Theorem store_messages_twice (messages : list GmailMessage) st ix st0 :
  (forall m, m ∈ messages -> plain_id (id m)) ->
  index st = (Ok ix, st0) ->
  let st1 := (store_messages messages st).2 in
  exists ix1,
    _index st1 = Some ix1
    /\ let ix2 := with_last_sync (clock (S (ticks st))) ix1 in
       store_messages messages st1
       = (Ok 0,
          {| files := <[index_file := Json (index_dump ix2)]> (files st1);
             ticks := S (S (ticks st));
             written := written st1 ++ [index_file];
             _index := Some ix2 |}).
Proof.
  intros _ Hix. cbn zeta. rewrite (store_messages_readable _ _ _ _ Hix).
  cbn [snd].
  destruct (after_batch_ids messages st ix) as (ix1 & H1 & Hids & _).
  exists ix1. split; [exact H1|].
  rewrite (store_messages_readable _ _ ix1 (after_batch messages st ix))
    by (by apply index_cached).
  unfold after_batch at 1. cbn zeta.
  rewrite !newly_stored_known by (rewrite Hids; set_solver).
  reflexivity.
Qed.

(** X7. After [store_messages] of a batch whose ids are file names of the
    messages directory, when the index could be read,
    [get_new_message_ids] returns the ids asked that are neither in the
    former index nor ids of the batch, in the order asked; the object of
    the batch and a new [EmailStorage] on the files answer alike, and for
    the ids of the batch itself the answer is the empty list. *)
Theorem get_new_message_ids_store_messages (messages : list GmailMessage)
    (ids : list string) st ix st0 :
  (forall m, m ∈ messages -> plain_id (id m)) ->
  index st = (Ok ix, st0) ->
  let st' := (store_messages messages st).2 in
  let known := message_ids ix ∪ list_to_set (id <$> messages) in
  (get_new_message_ids ids st').1 = Ok (filter (fun i => i ∉ known) ids)
  /\ (get_new_message_ids ids (init (files st'))).1
     = Ok (filter (fun i => i ∉ known) ids)
  /\ (get_new_message_ids (id <$> messages) (init (files st'))).1 = Ok [].
Proof.
  intros _ Hix. cbn zeta. rewrite (store_messages_readable _ _ _ _ Hix).
  cbn [snd].
  destruct (after_batch_ids messages st ix) as (ix' & H1 & Hids & _).
  assert (Hs : index (init (files (after_batch messages st ix)))
               = (Ok ix', set_index (Some ix')
                            (init (files (after_batch messages st ix))))).
  { unfold Storage.index, init. cbn [_index files after_batch].
    rewrite lookup_insert_eq, load_index_dump.
    cbn in H1. by inversion H1. }
  split; [|split].
  - rewrite (get_new_message_ids_run _ _ _ ix') by done. by rewrite Hids.
  - rewrite (get_new_message_ids_lazy _ _ _ _ _ Hs). by rewrite Hids.
  - rewrite (get_new_message_ids_lazy _ _ _ _ _ Hs). cbn [fst]. f_equal.
    apply filter_known. rewrite Hids. set_solver.
Qed.

(** X8. After [store_messages] of a batch whose ids are file names of the
    messages directory, on an index whose count is the number of its ids,
    [get_stats] reports the storage directory, as [total_messages] the
    number of distinct ids of the former index and the batch together, and
    as [last_sync] the time of the batch. *)
Theorem get_stats_store_messages (messages : list GmailMessage) st ix st0 :
  (forall m, m ∈ messages -> plain_id (id m)) ->
  index st = (Ok ix, st0) ->
  index_ok ix ->
  let st' := (store_messages messages st).2 in
  get_stats storage_dir st'
  = (Ok {| stats_storage_dir := storage_dir;
           stats_total_messages :=
             len (message_ids ix ∪ list_to_set (id <$> messages));
           stats_last_sync := clock (ticks st) |}, st').
Proof.
  intros _ Hix Hok. cbn zeta. rewrite (store_messages_readable _ _ _ _ Hix).
  cbn [snd].
  destruct (after_batch_ids messages st ix)
    as (ix' & H1 & Hids & Hls & _ & Hok').
  unfold Storage.get_stats. unfold bind at 1.
  rewrite (index_cached _ _ _ H1). unfold bind at 1.
  rewrite (index_cached _ _ _ H1). unfold ret.
  rewrite Hls, (Hok' Hok), Hids. reflexivity.
Qed.

End PlainIds.

End Facts.

(** *** Examples *)

Abbreviation plain := (plain_id "cache" NAME_MAX PATH_MAX).

(** The ids of the examples are file names. *)
Lemma plain_ids (batch : list GmailMessage) :
  forallb (fun m => bool_decide (id m = "a" \/ id m = "b")) batch = true ->
  forall m, m ∈ batch -> plain (id m).
Proof.
  intros H m Hm. rewrite forallb_forall in H.
  apply list_elem_of_In, H, bool_decide_eq_true_1 in Hm.
  destruct Hm as [E|E]; rewrite E; by repeat split.
Qed.

Lemma index_persisted_witness :
  let st' := (store_messages "cache" clock0 [msg "a" "one"] (init ∅)).2 in
  exists ix',
    _index st' = Some ix'
    /\ index "cache" (init (files st'))
       = (Ok ix', set_index (Some ix') (init (files st'))).
Proof.
  assert (Hp : forall m, m ∈ [msg "a" "one"] -> plain (id m))
    by (apply plain_ids; reflexivity).
  apply (index_persisted "cache" clock0 NAME_MAX PATH_MAX [msg "a" "one"]
           (init ∅) new_index (set_index (Some new_index) (init ∅)) Hp).
  reflexivity.
Defined.

Lemma has_message_store_message_witness :
  let st' := (store_message "cache" (msg "a" "one") (init ∅)).2 in
  has_message "cache" "a" st' = (Ok true, st')
  /\ has_message "cache" "b" st' = (Ok false, st').
Proof.
  assert (Hix : index "cache" (init ∅)
                = (Ok new_index, set_index (Some new_index) (init ∅)))
    by reflexivity.
  assert (Hp : plain (id (msg "a" "one"))) by (repeat split; reflexivity).
  destruct (has_message_store_message "cache" NAME_MAX PATH_MAX
              (msg "a" "one") (init ∅)
              new_index (set_index (Some new_index) (init ∅)) Hp Hix)
    as [H1 H2].
  split; [exact H1|]. apply (H2 "b"). discriminate.
Defined.

Lemma store_messages_unreadable_index_witness :
  let r := store_messages "cache" clock0 [msg "a" "one"] broken in
  (index "cache" broken).1 = Raise JSONDecodeError
  /\ r.1 = Raise JSONDecodeError
  /\ files r.2 = files broken /\ written r.2 = [].
Proof.
  assert (H : (index "cache" broken).1 = Raise JSONDecodeError)
    by reflexivity.
  split; [exact H|].
  exact (store_messages_unreadable_index "cache" clock0 [msg "a" "one"]
           broken JSONDecodeError H).
Defined.

Lemma store_message_index_not_saved_witness :
  let st := (store_messages "cache" clock0 [msg "a" "one"] (init ∅)).2 in
  let st' := (store_message "cache" (msg "b" "two") st).2 in
  written st' = written st ++ ["cache/messages/b.json"]
  /\ (has_message "cache" "b" (init (files st'))).1 = Ok false.
Proof.
  intros st st'.
  assert (Hp : plain (id (msg "b" "two"))) by (repeat split; reflexivity).
  destruct (store_message_index_not_saved "cache" NAME_MAX PATH_MAX
              (msg "b" "two") st Hp) as (_ & Hw & _ & Hh).
  split; [exact Hw|]. subst st'. rewrite (Hh "b"). reflexivity.
Defined.

Lemma store_message_unreadable_index_witness :
  (index "cache" broken).1 = Raise JSONDecodeError
  /\ (store_message "cache" (msg "a" "one") broken).1
     = Raise JSONDecodeError
  /\ written (store_message "cache" (msg "a" "one") broken).2
     = ["cache/messages/a.json"].
Proof.
  assert (H : (index "cache" broken).1 = Raise JSONDecodeError)
    by reflexivity.
  split; [exact H|].
  assert (Hp : plain (id (msg "a" "one"))) by (repeat split; reflexivity).
  rewrite (store_message_unreadable_index "cache" NAME_MAX PATH_MAX
             (msg "a" "one") broken JSONDecodeError Hp H).
  split; reflexivity.
Defined.

Lemma store_messages_twice_witness :
  let batch := [msg "a" "one"; msg "b" "two"] in
  let r1 := store_messages "cache" clock0 batch (init ∅) in
  let r2 := store_messages "cache" clock0 batch r1.2 in
  r1.1 = Ok 2 /\ r2.1 = Ok 0
  /\ written r2.2 = written r1.2 ++ ["cache/index.json"].
Proof.
  assert (Hix : index "cache" (init ∅)
                = (Ok new_index, set_index (Some new_index) (init ∅)))
    by reflexivity.
  intros batch r1 r2. split; [reflexivity|].
  assert (Hp : forall m, m ∈ batch -> plain (id m))
    by (apply plain_ids; reflexivity).
  destruct (store_messages_twice "cache" clock0 NAME_MAX PATH_MAX batch
              (init ∅) new_index (set_index (Some new_index) (init ∅))
              Hp Hix)
    as (ix1 & _ & H).
  cbv zeta in H. subst r2 r1. rewrite H. split; reflexivity.
Defined.

Lemma get_new_message_ids_store_messages_witness :
  let batch := [msg "a" "one"; msg "b" "two"] in
  let st' := (store_messages "cache" clock0 batch (init ∅)).2 in
  (get_new_message_ids "cache" ["a"; "b"] (init (files st'))).1 = Ok [].
Proof.
  assert (Hix : index "cache" (init ∅)
                = (Ok new_index, set_index (Some new_index) (init ∅)))
    by reflexivity.
  intros batch st'.
  assert (Hp : forall m, m ∈ batch -> plain (id m))
    by (apply plain_ids; reflexivity).
  destruct (get_new_message_ids_store_messages "cache" clock0 NAME_MAX
              PATH_MAX batch []
              (init ∅) new_index (set_index (Some new_index) (init ∅))
              Hp Hix) as (_ & _ & H).
  exact H.
Defined.

Lemma get_stats_store_messages_witness :
  let batch := [msg "a" "one"; msg "a" "two"; msg "b" "three"] in
  let st' := (store_messages "cache" clock0 batch (init ∅)).2 in
  index_ok new_index
  /\ exists n,
       get_stats "cache" st'
       = (Ok {| stats_storage_dir := "cache"; stats_total_messages := n;
                stats_last_sync := "2024-01-01T00:00:00" |}, st').
Proof.
  assert (Hix : index "cache" (init ∅)
                = (Ok new_index, set_index (Some new_index) (init ∅)))
    by reflexivity.
  intros batch st'.
  assert (Hok : index_ok new_index) by reflexivity.
  split; [exact Hok|]. eexists.
  assert (Hp : forall m, m ∈ batch -> plain (id m))
    by (apply plain_ids; reflexivity).
  exact (get_stats_store_messages "cache" clock0 NAME_MAX PATH_MAX batch
           (init ∅) new_index (set_index (Some new_index) (init ∅))
           Hp Hix Hok).
Defined.


End CacheSpec.

(** ** The sort of the examples *)

Module SortSpec.
Import Database.

Lemma insert_desc_perm {A} (key : A -> Z) x (l : list A) :
  insert_desc key x l ≡ₚ x :: l.
Proof.
  induction l as [|y l IH]; [done|]. cbn.
  destruct (key y <=? key x); [done|]. rewrite IH. apply Permutation_swap.
Qed.

Lemma sort_desc_perm A (key : A -> Z) (l : list A) : sort_desc A key l ≡ₚ l.
Proof.
  induction l as [|x l IH]; [done|]. cbn.
  by rewrite insert_desc_perm, IH.
Qed.

Lemma insert_desc_sorted {A} (key : A -> Z) x (l : list A) :
  sorted_desc key l -> sorted_desc key (insert_desc key x l).
Proof.
  unfold sorted_desc. induction 1 as [|y l Hl IH Hy]; cbn.
  - by repeat constructor.
  - destruct (Z.leb_spec (key y) (key x)) as [Hle|Hlt].
    + constructor; [by constructor|]. constructor; [done|].
      eapply Forall_impl; [exact Hy|]. cbn. intros z Hz. lia.
    + constructor; [done|]. rewrite insert_desc_perm.
      constructor; [lia|done].
Qed.

Lemma sort_desc_sorted A (key : A -> Z) (l : list A) :
  sorted_desc key (sort_desc A key l).
Proof.
  induction l as [|x l IH]; [constructor|]. cbn.
  by apply insert_desc_sorted.
Qed.

Lemma last_row_in (r : Emails.row) (g : list Emails.row) :
  last_row r g ∈ r :: g.
Proof.
  unfold last_row. induction g as [|x g IH]; [left|].
  cbn [List.last]. destruct g as [|y g]; [right; left|].
  apply elem_of_cons in IH as [->|IH]; [left|by do 2 right].
Qed.

End SortSpec.

(** ** The archive, across calls and connections *)

Module ArchiveSpec.
Import Types Str Database DatabaseSpec HeaderSpec.

Section Facts.
Variable clock : nat -> string.
Variable current_timestamp : nat -> string.
Variable recursive_triggers : bool.

Abbreviation insert_email :=
  (insert_email clock current_timestamp recursive_triggers).
Abbreviation insert_emails :=
  (insert_emails clock current_timestamp recursive_triggers).
Abbreviation insert_loop :=
  (insert_loop clock current_timestamp recursive_triggers).
Abbreviation insert_or_replace_email :=
  (insert_or_replace_email recursive_triggers).
Abbreviation after_insert :=
  (after_insert clock current_timestamp recursive_triggers).
Abbreviation built := (built clock current_timestamp recursive_triggers).

(** *** What a call leaves of the connection *)

Lemma insert_attachments_frame mid (atts : list GmailAttachment) c :
  exists t',
    (insert_attachments mid atts c).2
    = {| tables := t'; committed := committed c; ticks := ticks c |}
    /\ emails t' = emails (tables c)
    /\ emails_fts t' = emails_fts (tables c).
Proof.
  revert c. induction atts as [|a rest IH]; intros c.
  - exists (tables c). by destruct c.
  - cbn [insert_attachments]. unfold bind at 1.
    unfold insert_or_replace_attachment.
    destruct (attachment_id a) as [aid|]; [|exists (tables c); by destruct c].
    unfold execute, modify.
    destruct (IH (set_tables (replace_attachment mid aid a (tables c)) c))
      as (t' & -> & He & Hf).
    by exists t'.
Qed.

(** The state of the connection after a call, whatever its outcome. *)
Lemma insert_email_state (email : EmailObject) c :
  let c' := (insert_email email c).2 in
  match attr_attachments email with
  | None => c' = c
  | Some atts =>
      c' = (insert_attachments (id (fields email)) atts
              (after_insert email atts c)).2
  end.
Proof.
  cbn zeta. destruct (attr_attachments email) as [atts|] eqn:Ha.
  - rewrite (insert_email_run _ _ _ _ _ _ Ha).
    by destruct (insert_attachments _ _ _) as [[[]|e] c1].
  - by rewrite (insert_email_missing_attachments _ _ _ _ _ Ha).
Qed.

Lemma insert_email_never_commits_aux (email : EmailObject) c :
  committed (insert_email email c).2 = committed c
  /\ (ticks c <= ticks (insert_email email c).2 <= S (ticks c))%nat.
Proof.
  pose proof (insert_email_state email c) as H. cbn zeta in H.
  destruct (attr_attachments email) as [atts|].
  - rewrite H.
    destruct (insert_attachments_frame (id (fields email)) atts
                (after_insert email atts c)) as (t' & -> & _).
    cbn. split; [done|lia].
  - rewrite H. split; [done|lia].
Qed.

(** *** Keys and the full-text index *)

Lemma NoDup_fmap_eq {A B} (f : A -> B) (l : list A) x y :
  NoDup (f <$> l) -> x ∈ l -> y ∈ l -> f x = f y -> x = y.
Proof.
  induction l as [|a l IH]; [by intros _ ?%elem_of_nil|].
  rewrite fmap_cons. intros [Ha Hl]%NoDup_cons.
  intros [->|Hx]%elem_of_cons [->|Hy]%elem_of_cons E; [done|..].
  - exfalso. apply Ha. rewrite E. by apply list_elem_of_fmap_2.
  - exfalso. apply Ha. rewrite <- E. by apply list_elem_of_fmap_2.
  - by apply IH.
Qed.

Lemma next_rowid_fresh (l : list Emails.row) r :
  r ∈ l -> Emails.rowid r < next_rowid l.
Proof.
  unfold next_rowid. induction l as [|x l IH]; [by intros ?%elem_of_nil|].
  rewrite fmap_cons. cbn [foldr]. intros [->|H]%elem_of_cons; [lia|].
  specialize (IH H). lia.
Qed.

Lemma foldr_emails_ad_fts (old : list Emails.row) t :
  sublist (emails_fts (foldr emails_ad t old)) (emails_fts t)
  /\ forall d, d ∈ emails_fts t ->
       (forall o, o ∈ old -> EmailsFts.rowid d ≠ Emails.rowid o) ->
       d ∈ emails_fts (foldr emails_ad t old).
Proof.
  induction old as [|o old [IH1 IH2]]; [done|]. cbn. split.
  - etrans; [apply sublist_filter|exact IH1].
  - intros d Hd Ho. unfold fts_delete. apply list_elem_of_filter. split.
    + apply Ho. left.
    + apply IH2; [done|]. intros o' Ho'. apply Ho. by right.
Qed.

(** The two tables after the INSERT OR REPLACE of a row. *)
Lemma insert_or_replace_email_shape ts (new : Emails.row) t :
  NoDup (Emails.rowid <$> emails t) ->
  exists row F,
    Emails.rowid row = next_rowid (emails t)
    /\ Emails.id row = Emails.id new
    /\ emails (insert_or_replace_email ts new t)
       = filter (fun r => Emails.id r ≠ Emails.id new) (emails t) ++ [row]
    /\ emails_fts (insert_or_replace_email ts new t) = F ++ [fts_entry row]
    /\ sublist F (emails_fts t)
    /\ (forall d r, d ∈ emails_fts t -> r ∈ emails t ->
          Emails.id r ≠ Emails.id new ->
          EmailsFts.rowid d = Emails.rowid r -> d ∈ F).
Proof.
  intros Hnd. unfold Database.insert_or_replace_email.
  set (old := filter (fun r => Emails.id r = Emails.id new) (emails t)).
  set (kept := filter (fun r => Emails.id r ≠ Emails.id new) (emails t)).
  set (t1 := with_emails kept t).
  destruct recursive_triggers.
  - destruct (foldr_emails_ad_emails old t1) as (He & _ & _).
    destruct (foldr_emails_ad_fts old t1) as [Hs Hk].
    match goal with |- context [emails_ai ?row _] =>
      exists row, (emails_fts (foldr emails_ad t1 old))
    end.
    split; [reflexivity|]. split; [reflexivity|].
    split; [cbn; by rewrite He|]. split; [reflexivity|].
    split; [exact Hs|].
    intros d r Hd Hr Hid Hrow. apply Hk; [done|].
    intros o [Ho1 Ho2]%list_elem_of_filter E.
    rewrite Hrow in E.
    apply (NoDup_fmap_eq Emails.rowid (emails t)) in E; [|done..].
    by subst.
  - match goal with |- context [emails_ai ?row _] =>
      exists row, (emails_fts t)
    end.
    split; [reflexivity|]. split; [reflexivity|].
    split; [reflexivity|]. split; [reflexivity|]. split; [done|].
    by intros.
Qed.

Lemma tables_ext (t t' : Tables) :
  emails t' = emails t -> emails_fts t' = emails_fts t ->
  keys_ok t /\ fts_serves t -> keys_ok t' /\ fts_serves t'.
Proof. unfold keys_ok, fts_serves. by intros -> ->. Qed.

Lemma insert_or_replace_email_inv ts (new : Emails.row) t :
  keys_ok t /\ fts_serves t ->
  keys_ok (insert_or_replace_email ts new t)
  /\ fts_serves (insert_or_replace_email ts new t).
Proof.
  intros [[Hid Hrow] (Ha & Hb & Hc & Hd)].
  destruct (insert_or_replace_email_shape ts new t Hrow)
    as (row & F & Hr & Hi & He & Hf & HF & Hk).
  assert (Hkept : forall r,
            r ∈ filter (fun r => Emails.id r ≠ Emails.id new) (emails t) ->
            r ∈ emails t /\ Emails.id r ≠ Emails.id new).
  { intros r [? ?]%list_elem_of_filter. done. }
  assert (HFin : forall d, d ∈ F -> d ∈ emails_fts t).
  { intros d Hin. by eapply elem_of_sublist. }
  assert (Hnext : next_rowid (emails t)
                  < next_rowid (emails (insert_or_replace_email ts new t))).
  { rewrite <- Hr. apply next_rowid_fresh. rewrite He.
    apply elem_of_app. right. left. }
  unfold keys_ok, fts_serves. rewrite He, Hf. repeat split.
  - rewrite fmap_app. apply NoDup_app. split; [|split].
    + eapply sublist_NoDup; [exact Hid|].
      apply fmap_sublist, sublist_filter.
    + intros i (r & -> & Hin)%list_elem_of_fmap.
      apply Hkept in Hin as [_ Hne]. cbn. rewrite Hi. set_solver.
    + cbn. apply NoDup_singleton.
  - rewrite fmap_app. apply NoDup_app. split; [|split].
    + eapply sublist_NoDup; [exact Hrow|].
      apply fmap_sublist, sublist_filter.
    + intros i (r & -> & Hin)%list_elem_of_fmap.
      apply Hkept in Hin as [Hin _]. apply next_rowid_fresh in Hin.
      cbn. rewrite Hr. intros ?%list_elem_of_singleton. lia.
    + cbn. apply NoDup_singleton.
  - intros r [Hin| ->%list_elem_of_singleton]%elem_of_app.
    + apply Hkept in Hin as [Hin Hne]. apply elem_of_app. left.
      apply (Hk _ r); [by apply Ha|done..].
    + apply elem_of_app. right. left.
  - intros d r [Hdin| ->%list_elem_of_singleton]%elem_of_app
             [Hin| ->%list_elem_of_singleton]%elem_of_app E.
    + apply Hkept in Hin as [Hin _]. apply Hb; [by apply HFin|done..].
    + apply HFin, Hd in Hdin. lia.
    + apply Hkept in Hin as [Hin _]. apply next_rowid_fresh in Hin.
      cbn in E. lia.
    + done.
  - rewrite fmap_app. apply NoDup_app. split; [|split].
    + eapply sublist_NoDup; [exact Hc|]. by apply fmap_sublist.
    + intros i (d & -> & Hin)%list_elem_of_fmap.
      apply HFin, Hd in Hin. cbn. rewrite Hr.
      intros ?%list_elem_of_singleton. lia.
    + cbn. apply NoDup_singleton.
  - intros d [Hin| ->%list_elem_of_singleton]%elem_of_app.
    + apply HFin, Hd in Hin. rewrite <- He. lia.
    + rewrite <- He.
      change (EmailsFts.rowid (fts_entry row)) with (Emails.rowid row). lia.
Qed.

Lemma insert_email_inv (email : EmailObject) c :
  keys_ok (tables c) /\ fts_serves (tables c) ->
  keys_ok (tables (insert_email email c).2)
  /\ fts_serves (tables (insert_email email c).2).
Proof.
  intros Hinv. pose proof (insert_email_state email c) as H. cbn zeta in H.
  destruct (attr_attachments email) as [atts|]; rewrite H; [|done].
  destruct (insert_attachments_frame (id (fields email)) atts
              (after_insert email atts c)) as (t' & -> & He & Hf).
  cbn [tables]. apply (tables_ext _ _ He Hf).
  unfold Database.after_insert. cbn [tables].
  by apply insert_or_replace_email_inv.
Qed.

Lemma insert_loop_state (batch : list EmailObject) k c :
  committed (insert_loop batch k c).2 = committed c
  /\ (keys_ok (tables c) /\ fts_serves (tables c) ->
      keys_ok (tables (insert_loop batch k c).2)
      /\ fts_serves (tables (insert_loop batch k c).2)).
Proof.
  revert k c. induction batch as [|e rest IH]; intros k c; [done|].
  cbn [Database.insert_loop]. unfold bind.
  destruct (insert_email_never_commits_aux e c) as [Hc _].
  pose proof (insert_email_inv e c) as Hi.
  destruct (insert_email e c) as [[b|x] c1]; cbn [snd] in *.
  - destruct (IH (if b then k + 1 else k) c1) as [IHc IHi].
    split; [by rewrite IHc|]. intros H. by apply IHi, Hi.
  - done.
Qed.

Lemma insert_emails_run (batch : list EmailObject) c :
  insert_emails batch c
  = match insert_loop batch 0 c with
    | (Ok n, c1) =>
        (Ok n, {| tables := tables c1; committed := tables c1;
                  ticks := ticks c1 |})
    | (Raise e, c1) => (Raise e, c1)
    end.
Proof.
  unfold Database.insert_emails, bind.
  by destruct (Database.insert_loop _ _ _ batch 0 c) as [[n|e] c1].
Qed.

Lemma built_inv c :
  built c ->
  (keys_ok (tables c) /\ fts_serves (tables c))
  /\ (keys_ok (committed c) /\ fts_serves (committed c)).
Proof.
  induction 1 as [|e c Hb [IHt IHc]|batch c Hb [IHt IHc]|c Hb [IHt IHc]
                  |c Hb [IHt IHc]].
  - assert (H0 : keys_ok no_tables /\ fts_serves no_tables).
    { unfold keys_ok, fts_serves. cbn. repeat split; try constructor.
      - by intros r ?%elem_of_nil.
      - by intros d r ?%elem_of_nil.
      - by intros d ?%elem_of_nil. }
    by split.
  - split; [by apply insert_email_inv|].
    by destruct (insert_email_never_commits_aux e c) as [-> _].
  - rewrite insert_emails_run.
    destruct (insert_loop_state batch 0 c) as [Hc Hi].
    destruct (insert_loop batch 0 c) as [[n|x] c1]; cbn [snd] in *.
    + split; by apply Hi.
    + split; [by apply Hi|by rewrite Hc].
  - done.
  - done.
Qed.

(** X12. [insert_email] never commits. Whether it returns or raises, the
    committed tables are those of before the call, and the call read the
    clock at most once. *)
Theorem insert_email_never_commits (email : EmailObject) c :
  let c' := (insert_email email c).2 in
  committed c' = committed c
  /\ (ticks c <= ticks c' <= S (ticks c))%nat.
Proof. apply insert_email_never_commits_aux. Qed.

(** *** Batches *)

Lemma id_exists_table_ids i t :
  id_exists i t = bool_decide (i ∈ table_ids t).
Proof.
  unfold id_exists, table_ids. apply bool_decide_ext.
  rewrite Exists_exists, elem_of_list_to_set, list_elem_of_fmap.
  split.
  - intros (r & Hin & <-). by exists r.
  - intros (r & -> & Hin). by exists r.
Qed.

Lemma insert_email_ids (email : EmailObject) c b c' :
  insert_email email c = (Ok b, c') ->
  b = bool_decide (id (fields email) ∉ table_ids (tables c))
  /\ table_ids (tables c') = {[ id (fields email) ]} ∪ table_ids (tables c).
Proof.
  intros H. destruct (insert_email_ok _ _ _ _ _ _ _ H)
    as (atts & _ & _ & -> & He & _).
  split.
  - rewrite id_exists_table_ids.
    by destruct (decide (id (fields email) ∈ table_ids (tables c)));
      [rewrite bool_decide_eq_true_2, bool_decide_eq_false_2
      |rewrite bool_decide_eq_false_2, bool_decide_eq_true_2]; try done;
      by intros ?.
  - destruct (after_insert_emails clock current_timestamp recursive_triggers
                email atts c) as (row & E & Hi & _).
    unfold table_ids. rewrite He, E. apply set_eq. intros x.
    rewrite fmap_app, list_to_set_app, !elem_of_union, !elem_of_list_to_set.
    cbn. rewrite Hi, !list_elem_of_fmap, elem_of_singleton.
    rewrite list_elem_of_singleton. split.
    + intros [(r & -> & [_ Hr]%list_elem_of_filter)| ->]; [right|by left].
      by exists r.
    + intros [->|(r & -> & Hr)]; [by right|].
      destruct (decide (Emails.id r = id (fields email))) as [E'|Hne];
        [by right|left].
      exists r. split; [done|]. by apply list_elem_of_filter.
Qed.

Lemma insert_loop_count (batch : list EmailObject) k c n c' :
  insert_loop batch k c = (Ok n, c') ->
  n = k + Z.of_nat (base.size (batch_ids batch ∖ table_ids (tables c)))
  /\ table_ids (tables c') = table_ids (tables c) ∪ batch_ids batch.
Proof.
  revert k c. induction batch as [|e rest IH]; intros k c.
  - cbn. intros [= <- <-]. unfold batch_ids. cbn.
    rewrite difference_disjoint_L by set_solver.
    rewrite size_empty. split; [lia|set_solver].
  - cbn [Database.insert_loop]. unfold bind.
    destruct (insert_email e c) as [[b|x] c1] eqn:He; [|done].
    destruct (insert_email_ids _ _ _ _ He) as [Hb Hids].
    intros H. apply IH in H as [-> ->]. rewrite Hids.
    assert (Hbatch : batch_ids (e :: rest)
                     = {[ id (fields e) ]} ∪ batch_ids rest) by done.
    rewrite Hbatch. split; [|set_solver].
    set (T := table_ids (tables c)) in *. set (R := batch_ids rest).
    set (i := id (fields e)) in *.
    destruct (decide (i ∈ T)) as [Hin|Hnin].
    + rewrite bool_decide_eq_false_2 in Hb by (by intros ?). subst b.
      assert (E : ({[i]} ∪ R) ∖ T = R ∖ ({[i]} ∪ T)) by set_solver.
      by rewrite E.
    + rewrite bool_decide_eq_true_2 in Hb by done. subst b.
      assert (E : ({[i]} ∪ R) ∖ T = {[i]} ∪ R ∖ ({[i]} ∪ T)).
      { apply set_eq. intros x.
        rewrite !elem_of_difference, !elem_of_union, !elem_of_difference,
          !elem_of_union, !elem_of_singleton.
        destruct (decide (x = i)) as [->|]; naive_solver. }
      rewrite E, (size_union {[i]} (R ∖ ({[i]} ∪ T))) by set_solver.
      rewrite size_singleton. lia.
Qed.

(** X13. When [insert_emails] returns, the count returned is the number of
    distinct ids of the batch that were not in [emails] before, [emails]
    holds the ids it held and those of the batch, and all of it is
    committed. An id that comes twice in a batch counts once. *)
Theorem insert_emails_count (batch : list EmailObject) c n c' :
  insert_emails batch c = (Ok n, c') ->
  n = Z.of_nat (base.size (batch_ids batch ∖ table_ids (tables c)))
  /\ table_ids (tables c') = table_ids (tables c) ∪ batch_ids batch
  /\ committed c' = tables c'.
Proof.
  rewrite insert_emails_run.
  destruct (insert_loop batch 0 c) as [[n0|x] c1] eqn:E; [|done].
  intros [= <- <-]. destruct (insert_loop_count _ _ _ _ _ E) as [Hn Hids].
  cbn [tables committed]. split; [by rewrite Hn|]. split; [exact Hids|done].
Qed.

(** X14. When [insert_emails] raises, it has committed nothing: the
    committed tables are those of before the call, so closing the
    connection and opening the database again gives what it gave before
    the batch. *)
Theorem insert_emails_raise_no_commit (batch : list EmailObject) c e :
  (insert_emails batch c).1 = Raise e ->
  let c' := (insert_emails batch c).2 in
  committed c' = committed c
  /\ create_database (Some (committed c'))
     = create_database (Some (committed c)).
Proof.
  cbn zeta. rewrite insert_emails_run.
  destruct (insert_loop_state batch 0 c) as [Hc _].
  destruct (insert_loop batch 0 c) as [[n|x] c1]; [done|].
  cbn [fst snd] in *. intros _. by rewrite Hc.
Qed.

(** *** One email *)

Lemma insert_attachments_null mid (atts : list GmailAttachment) c a :
  a ∈ atts -> attachment_id a = None ->
  (insert_attachments mid atts c).1 = Raise IntegrityError.
Proof.
  intros Hin Ha. revert c.
  induction atts as [|x rest IH]; intros c; [by apply elem_of_nil in Hin|].
  cbn [insert_attachments]. unfold bind at 1.
  unfold insert_or_replace_attachment.
  destruct (attachment_id x) as [aid|] eqn:Ex; [|done].
  unfold execute, modify. apply IH.
  apply elem_of_cons in Hin as [->|Hin]; [congruence|done].
Qed.

(** X15. When the integers of a message and of its attachments are
    integers of SQLite, an attachment without [attachment_id] makes
    [insert_email] raise [IntegrityError], the column being NOT NULL, and
    only after the row of the message has been written: the id of the
    message is then in [emails], and nothing is committed. *)
Theorem insert_email_null_attachment_id (email : EmailObject) atts a c :
  attr_attachments email = Some atts ->
  binds_ints email atts ->
  a ∈ atts -> attachment_id a = None ->
  exists c',
    insert_email email c = (Raise IntegrityError, c')
    /\ id_exists (id (fields email)) (tables c') = true
    /\ committed c' = committed c.
Proof.
  intros Hatts _ Hin Ha. rewrite (insert_email_run _ _ _ _ _ _ Hatts).
  pose proof (insert_attachments_null (id (fields email)) atts
                (after_insert email atts c) a Hin Ha) as Hr.
  destruct (insert_attachments_frame (id (fields email)) atts
              (after_insert email atts c)) as (t' & Hc & He & _).
  pose proof (id_exists_after_insert clock current_timestamp
                recursive_triggers email atts c) as Hx.
  destruct (insert_attachments _ _ _) as [[[]|e] c1]; [done|].
  cbn [fst snd] in *. inversion Hr; subst. eexists. split; [reflexivity|].
  cbn [tables committed]. split; [|done].
  unfold id_exists in *. by rewrite He.
Qed.

(** X16. When [insert_email] returns for a message whose sender header is
    made of ASCII characters, [emails] holds its former rows with
    another id, in their order, and then one row of the message. Column by
    column: [id], [thread_id], [subject], [body], [snippet] and [timestamp]
    are those of the message; [to_emails] and [label_ids] are its lists as
    JSON; [cc_emails], [body_html], [date_header] and [size_estimate] are
    the attributes [cc], [body_html], [date] and [size_estimate] of the
    object when it has them, and the empty list, the empty string, the
    empty string and 0 when it has not; [has_attachments] is 1 when the
    list of attachments is not empty and 0 when it is; the three sender
    columns are the parts [extract_email_parts] gives for the header; the
    rowid is the next rowid of the former table; [created_at] is the time
    of the engine and [updated_at] the time [insert_email] read. *)
Theorem insert_email_upsert (email : EmailObject) c b c' :
  is_ascii (from_email (fields email)) = true ->
  insert_email email c = (Ok b, c') ->
  let m := fields email in
  exists atts row,
    attr_attachments email = Some atts
    /\ emails (tables c')
       = filter (fun r => Emails.id r ≠ id m) (emails (tables c)) ++ [row]
    /\ Emails.id row = id m
    /\ Emails.thread_id row = thread_id m
    /\ (Emails.from_email row, Emails.from_name row, Emails.from_domain row)
       = extract_email_parts (from_email m)
    /\ Emails.to_emails row = json_dumps (to m)
    /\ Emails.cc_emails row = json_dumps (default [] (attr_cc email))
    /\ Emails.subject row = subject m
    /\ Emails.body row = body m
    /\ Emails.body_html row = default EmptyString (attr_body_html email)
    /\ Emails.snippet row = snippet m
    /\ Emails.label_ids row = json_dumps (label_ids m)
    /\ Emails.date_header row = default EmptyString (attr_date email)
    /\ Emails.timestamp row = timestamp m
    /\ Emails.size_estimate row = default 0 (attr_size_estimate email)
    /\ Emails.has_attachments row = (if truthy atts then 1 else 0)
    /\ Emails.rowid row = next_rowid (emails (tables c))
    /\ Emails.created_at row = current_timestamp (S (ticks c))
    /\ Emails.updated_at row = clock (ticks c).
Proof.
  intros _ H. destruct (insert_email_ok _ _ _ _ _ _ _ H)
    as (atts & Ha & _ & _ & He & _).
  exists atts. rewrite He. unfold Database.after_insert. cbn [tables].
  unfold Database.insert_or_replace_email.
  set (new := email_values _ _ _).
  set (old := filter (fun r => Emails.id r = Emails.id new) _).
  set (kept := filter (fun r => Emails.id r ≠ Emails.id new) _).
  assert (Hk : emails (if recursive_triggers
                       then foldr emails_ad (with_emails kept (tables c)) old
                       else with_emails kept (tables c)) = kept).
  { destruct recursive_triggers; [|done].
    by destruct (foldr_emails_ad_emails old (with_emails kept (tables c)))
      as (-> & _ & _). }
  cbn [emails emails_ai with_emails_fts with_emails]. rewrite Hk.
  eexists. split; [done|]. split.
  { subst kept new. by rewrite email_values_id. }
  subst new. unfold email_values.
  destruct (extract_email_parts _) as [[??]?]. cbn.
  repeat split. by destruct (attr_cc email).
Qed.

(** X17. On every connection reached from [create_database] by
    [insert_email], [insert_emails], committing and reopening, the ids and
    the rowids of [emails] are unique and the full-text index serves each
    row by an entry of its own text; the same holds of the committed
    tables. *)
Theorem built_keys_and_index c :
  built c ->
  keys_ok (tables c) /\ fts_serves (tables c)
  /\ keys_ok (committed c) /\ fts_serves (committed c).
Proof. intros H. by destruct (built_inv c H) as [[? ?] [? ?]]. Qed.

Section Search.
Variable fts_match : string -> EmailsFts.row -> bool.
Variable order_by_rank : string -> list EmailsFts.row -> list EmailsFts.row.
Hypothesis order_by_rank_perm : forall q l, order_by_rank q l ≡ₚ l.

Lemma search_emails_served query limit c :
  keys_ok (tables c) -> fts_serves (tables c) ->
  let res := search_emails fts_match order_by_rank query limit c in
  (forall r, r ∈ res ->
     r ∈ emails (tables c) /\ fts_match query (fts_entry r) = true)
  /\ NoDup res
  /\ (limit < 0 -> forall r, r ∈ emails (tables c) ->
        fts_match query (fts_entry r) = true -> r ∈ res)
  /\ (0 <= limit -> (length res <= Z.to_nat limit)%nat).
Proof.
  intros [Hid Hrow] (Ha & Hb & Hc & _). cbn zeta.
  unfold search_emails.
  set (hits := order_by_rank query _).
  set (join := fun d : EmailsFts.row =>
                 filter (fun e => Emails.rowid e = EmailsFts.rowid d)
                        (emails (tables c))).
  assert (Hhits : forall d, d ∈ hits <->
            fts_match query d = true /\ d ∈ emails_fts (tables c)).
  { intros d. subst hits. rewrite order_by_rank_perm.
    by rewrite list_elem_of_filter. }
  assert (Hin : forall r, r ∈ hits ≫= join <->
            r ∈ emails (tables c) /\ fts_match query (fts_entry r) = true).
  { intros r. rewrite list_elem_of_bind. split.
    - intros (d & [E Hr]%list_elem_of_filter & [Hm Hd]%Hhits).
      split; [done|]. by rewrite <- (Hb d r Hd Hr).
    - intros [Hr Hm]. exists (fts_entry r). split.
      + by apply list_elem_of_filter.
      + apply Hhits. split; [done|]. by apply Ha. }
  assert (Hnd : NoDup (hits ≫= join)).
  { apply NoDup_bind.
    - intros d1 d2 r [_ H1]%Hhits [_ H2]%Hhits
        [E1 _]%list_elem_of_filter [E2 _]%list_elem_of_filter.
      apply (NoDup_fmap_eq EmailsFts.rowid (emails_fts (tables c)));
        [done..|congruence].
    - intros d _. apply NoDup_filter. by apply NoDup_fmap_1 in Hid.
    - subst hits. rewrite order_by_rank_perm. apply NoDup_filter.
      by apply NoDup_fmap_1 in Hc. }
  unfold sql_limit. destruct (Z.ltb_spec limit 0) as [Hneg|Hpos].
  - split; [by intros r ?%Hin|]. split; [done|].
    split; [intros _ r ? ?; by apply Hin|lia].
  - split; [|split; [|split; [lia|]]].
    + intros r Hr. apply Hin. eapply elem_of_sublist; [done|].
      apply sublist_take.
    + eapply sublist_NoDup; [exact Hnd|apply sublist_take].
    + intros _. rewrite length_take. lia.
Qed.

(** X18. On such a connection, with a ranking that only reorders, for a
    query of words of letters and digits and a limit that is an integer of
    SQLite, [search_emails] returns rows of [emails] whose own subject,
    body and sender match the query, and none twice; with a negative limit
    it returns every such row, with a limit of zero or more at most that
    many. *)
Theorem search_emails_built query limit c :
  simple_query query = true ->
  sqlite_int limit ->
  built c ->
  let res := search_emails fts_match order_by_rank query limit c in
  (forall r, r ∈ res ->
     r ∈ emails (tables c) /\ fts_match query (fts_entry r) = true)
  /\ NoDup res
  /\ (limit < 0 -> forall r, r ∈ emails (tables c) ->
        fts_match query (fts_entry r) = true -> r ∈ res)
  /\ (0 <= limit -> (length res <= Z.to_nat limit)%nat).
Proof.
  intros _ _ H. destruct (built_inv c H) as [[Hk Hs] _].
  by apply search_emails_served.
Qed.

End Search.

(** *** The attachments of an email *)

Lemma insert_attachments_keyed mid (atts : list GmailAttachment) c c' :
  insert_attachments mid atts c = (Ok tt, c') ->
  length (keyed atts) = length atts.
Proof.
  revert c. induction atts as [|a rest IH]; intros c; [done|].
  cbn [insert_attachments]. unfold bind at 1.
  unfold insert_or_replace_attachment, keyed.
  destruct (attachment_id a) as [aid|] eqn:Ea; [|done].
  unfold execute, modify. intros H. apply IH in H.
  cbn. rewrite Ea. cbn. by rewrite <- H.
Qed.

Lemma foldl_content_put_fresh mid (ps : list (string * GmailAttachment))
    (l : list Attachments.row) :
  NoDup ps.*1 ->
  (forall r, r ∈ l -> ¬ hit mid ps r) ->
  foldl (content_put mid) l ps = l ++ (content_row mid <$> ps).
Proof.
  revert l. induction ps as [|p ps IH]; intros l Hnd Hl.
  - cbn. by rewrite app_nil_r.
  - rewrite fmap_cons in Hnd. apply NoDup_cons in Hnd as [Hp Hnd].
    cbn [foldl]. rewrite IH; [|done|].
    + unfold content_put.
      assert (Hf : filter (fun r => ¬ same_key mid p.1 r) l = l).
      { clear IH. induction l as [|r l IHl]; [done|].
        rewrite filter_cons_True.
        - rewrite IHl; [done|]. intros x Hx. apply Hl. by right.
        - intros [H1 H2]. apply (Hl r); [by left|].
          split; [done|]. rewrite H2. cbn. left. }
      rewrite Hf, fmap_cons, <- app_assoc. done.
    + intros r Hr [H1 H2]. unfold content_put in Hr.
      apply elem_of_app in Hr as [Hr|Hr].
      * apply list_elem_of_filter in Hr as [_ Hr]. apply (Hl r Hr).
        split; [done|]. cbn. by right.
      * apply list_elem_of_singleton in Hr. subst r. cbn in H2. done.
Qed.

(** X19. When [insert_email] returns for a message whose attachments have
    distinct ids, every attachment has an id and [attachments] holds,
    apart from the AUTOINCREMENT ids, its former rows except those of
    this message with one of these attachment ids, in their order, and
    then one row for each attachment of the message, in the order of the
    message. Former attachments of the message with other ids stay. *)
Theorem insert_email_attachments (email : EmailObject) atts c b c' :
  insert_email email c = (Ok b, c') ->
  attr_attachments email = Some atts ->
  NoDup (keyed atts).*1 ->
  let mid := id (fields email) in
  length (keyed atts) = length atts
  /\ attachment_content <$> attachments (tables c')
     = filter (fun r => ¬ hit mid (keyed atts) r)
              (attachment_content <$> attachments (tables c))
       ++ (content_row mid <$> keyed atts).
Proof.
  intros H Ha Hnd mid. subst mid.
  destruct (insert_email_ok _ _ _ _ _ _ _ H) as (atts' & Ha' & Hatt & _).
  rewrite Ha in Ha'. inversion Ha'; subst atts'. clear Ha'.
  split; [by eapply insert_attachments_keyed|].
  apply insert_attachments_ok in Hatt. subst c'.
  cbn [tables set_tables Database.after_insert].
  rewrite foldl_replace_attachment_content.
  destruct (insert_or_replace_email_tables recursive_triggers
              (current_timestamp (S (ticks c)))
              (email_values email (if truthy atts then 1 else 0)
                 (clock (ticks c))) (tables c)) as (rid & _ & ->).
  rewrite foldl_content_put_split. f_equal.
  rewrite (foldl_content_put_fresh _ (keyed atts) []); [done..|].
  by intros r ?%elem_of_nil.
Qed.

(** *** The keys alone *)

Lemma insert_or_replace_email_keys ts (new : Emails.row) t :
  keys_ok t -> keys_ok (insert_or_replace_email ts new t).
Proof.
  intros [Hid Hrow].
  destruct (insert_or_replace_email_shape ts new t Hrow)
    as (row & F & Hr & Hi & He & _).
  unfold keys_ok. rewrite He. split.
  - rewrite fmap_app. apply NoDup_app. split; [|split].
    + eapply sublist_NoDup; [exact Hid|].
      apply fmap_sublist, sublist_filter.
    + intros i (r & -> & [Hne _]%list_elem_of_filter)%list_elem_of_fmap.
      cbn. rewrite Hi. set_solver.
    + cbn. apply NoDup_singleton.
  - rewrite fmap_app. apply NoDup_app. split; [|split].
    + eapply sublist_NoDup; [exact Hrow|].
      apply fmap_sublist, sublist_filter.
    + intros i (r & -> & [_ Hin]%list_elem_of_filter)%list_elem_of_fmap.
      apply next_rowid_fresh in Hin.
      cbn. rewrite Hr. intros ?%list_elem_of_singleton. lia.
    + cbn. apply NoDup_singleton.
Qed.

Lemma insert_email_keys (email : EmailObject) c :
  keys_ok (tables c) -> keys_ok (tables (insert_email email c).2).
Proof.
  intros Hk. pose proof (insert_email_state email c) as H. cbn zeta in H.
  destruct (attr_attachments email) as [atts|]; rewrite H; [|done].
  destruct (insert_attachments_frame (id (fields email)) atts
              (after_insert email atts c)) as (t' & -> & He & _).
  cbn [tables]. unfold keys_ok. rewrite He.
  unfold Database.after_insert. cbn [tables].
  by apply insert_or_replace_email_keys.
Qed.

Lemma insert_loop_keys (batch : list EmailObject) k c :
  keys_ok (tables c) -> keys_ok (tables (insert_loop batch k c).2).
Proof.
  revert k c. induction batch as [|e rest IH]; intros k c Hk; [done|].
  cbn [Database.insert_loop]. unfold bind.
  pose proof (insert_email_keys e c Hk) as Hi.
  destruct (insert_email e c) as [[b|x] c1]; cbn [snd] in *; [|done].
  by apply IH.
Qed.

Lemma length_emails_table_ids t :
  keys_ok t -> length (emails t) = base.size (table_ids t).
Proof.
  intros [Hid _]. unfold table_ids.
  by rewrite size_list_to_set, length_fmap.
Qed.

(** *** The queries *)

Lemma lstrip_chars_at (d : string) :
  contains "@" d = false ->
  lstrip_chars "@" d = d /\ lstrip_chars "@" ("@" +:+ d) = d.
Proof.
  intros Hd.
  assert (H : lstrip_chars "@" d = d).
  { destruct d as [|a d]; [done|]. cbn in *.
    destruct (decide (a = "@"%char)) as [->|Hne]; [done|].
    by destruct (decide ("@"%char = a)) as [<-|]. }
  split; [exact H|]. change ("@" +:+ d) with (String "@" d).
  cbn [lstrip_chars contains]. by rewrite decide_True.
Qed.

Lemma sum_perm (l l' : list Z) :
  l ≡ₚ l' -> foldr Z.add 0 l = foldr Z.add 0 l'.
Proof. induction 1; cbn; lia. Qed.

Lemma length_filter_split {A} (P : A -> Prop) `{!forall x, Decision (P x)}
    (l : list A) :
  (length l = length (filter P l) + length (filter (fun x => ¬ P x) l))%nat.
Proof.
  induction l as [|x l IH]; [done|]. rewrite !filter_cons.
  destruct (decide (P x)), (decide (¬ P x)); cbn; try lia; tauto.
Qed.

Lemma group_sum (key : Emails.row -> string) (ks : list string)
    (l : list Emails.row) :
  NoDup ks -> (forall r, r ∈ l -> key r ∈ ks) ->
  foldr Z.add 0 ((fun k => Z.of_nat (length (group_of key k l))) <$> ks)
  = Z.of_nat (length l).
Proof using Type.
  clear clock current_timestamp recursive_triggers.
  revert l. induction ks as [|k ks IH]; intros l Hnd Hl.
  - destruct l as [|r l]; [done|]. exfalso.
    apply (elem_of_nil (key r)), Hl. left.
  - apply NoDup_cons in Hnd as [Hk Hnd]. rewrite fmap_cons. cbn [foldr].
    rewrite (length_filter_split (fun e => key e = k) l).
    assert (E : (fun k0 => Z.of_nat (length (group_of key k0 l))) <$> ks
              = (fun k0 => Z.of_nat (length
                   (group_of key k0 (filter (fun e => ¬ key e = k) l))))
                <$> ks).
    { apply list_fmap_ext. intros i k' Hi. do 2 f_equal.
      unfold group_of. rewrite list_filter_filter. apply list_filter_iff.
      intros x. split; [|tauto]. intros Hx. split; [done|].
      rewrite Hx. intros ->. apply Hk. by eapply list_elem_of_lookup_2. }
    rewrite E, IH; [unfold group_of; lia|done|].
    intros r [Hne Hr]%list_elem_of_filter.
    specialize (Hl r Hr). apply elem_of_cons in Hl as [?|?]; done.
Qed.

Section Queries.
Variable order_by_desc : forall A : Type, (A -> Z) -> list A -> list A.
Variable bare_row : Emails.row -> list Emails.row -> Emails.row.
Hypothesis order_by_desc_perm :
  forall A (key : A -> Z) l, order_by_desc A key l ≡ₚ l.
Hypothesis order_by_desc_sorted :
  forall A (key : A -> Z) l, sorted_desc key (order_by_desc A key l).
Hypothesis bare_row_in : forall r g, bare_row r g ∈ r :: g.

(** What [ORDER BY key DESC LIMIT limit] returns of a list of rows. *)
Lemma limit_order_spec {A} (key : A -> Z) (limit : Z) (l : list A) :
  exists rest,
    l ≡ₚ sql_limit limit (order_by_desc A key l) ++ rest
    /\ sorted_desc key (sql_limit limit (order_by_desc A key l))
    /\ (forall x y, x ∈ sql_limit limit (order_by_desc A key l) ->
          y ∈ rest -> key y <= key x)
    /\ (limit < 0 -> rest = [])
    /\ (0 <= limit ->
        length (sql_limit limit (order_by_desc A key l))
        = Nat.min (Z.to_nat limit) (length l)).
Proof.
  pose proof (order_by_desc_perm A key l) as Hp.
  pose proof (order_by_desc_sorted A key l) as Hs.
  set (s := order_by_desc A key l) in *. unfold sql_limit.
  destruct (Z.ltb_spec limit 0) as [Hneg|Hpos].
  - exists []. rewrite app_nil_r. split; [done|]. split; [done|].
    split; [by intros x y _ ?%elem_of_nil|]. split; [done|lia].
  - exists (drop (Z.to_nat limit) s). rewrite take_drop.
    unfold sorted_desc in *. rewrite <- (take_drop (Z.to_nat limit) s) in Hs.
    split; [done|]. split; [by eapply StronglySorted_app_1_l|].
    split.
    + intros x y Hx Hy.
      by apply (StronglySorted_app_1_elem_of _ _ _ x y Hs).
    + split; [lia|]. intros _. rewrite length_take.
      by rewrite (Permutation_length Hp).
Qed.


Lemma limit_order_all {A} (key : A -> Z) (limit : Z) (l : list A) x :
  limit < 0 -> x ∈ l -> x ∈ sql_limit limit (order_by_desc A key l).
Proof.
  intros Hneg Hx. unfold sql_limit.
  destruct (Z.ltb_spec limit 0); [|lia]. by rewrite order_by_desc_perm.
Qed.

Lemma limit_order_in {A} (key : A -> Z) (limit : Z) (l : list A) x :
  x ∈ sql_limit limit (order_by_desc A key l) -> x ∈ l.
Proof.
  unfold sql_limit. destruct (limit <? 0).
  - by rewrite order_by_desc_perm.
  - intros Hx. rewrite <- (order_by_desc_perm A key l).
    eapply elem_of_sublist; [done|apply sublist_take].
Qed.



Lemma count_distinct_bounds (key : Emails.row -> string)
    (l : list Emails.row) :
  0 <= count_distinct key l <= Z.of_nat (length l).
Proof.
  unfold count_distinct. split; [lia|]. apply inj_le.
  rewrite <- (length_fmap key l).
  apply submseteq_length, NoDup_submseteq; [apply NoDup_remove_dups|].
  intros x Hx. by rewrite elem_of_remove_dups in Hx.
Qed.

(** X23. With an ORDER BY that sorts and bare columns read from a row of
    the group, [get_stats] reports as [total_emails] the number of rows;
    the numbers of threads and of domains lie between 0 and that number;
    [top_domains] and [top_senders] each hold at most 10 entries, by
    descending count, no domain or address twice; each count is the
    number of rows of that domain or address and is at least 1; the name
    given for a sender is the [from_name] of one of their rows; and when
    there are at most 10 domains the counts of [top_domains] add up to
    [total_emails]. *)
Theorem get_stats_counts c :
  let rows := emails (tables c) in
  let s := get_stats order_by_desc bare_row c in
  total_emails s = Z.of_nat (length rows)
  /\ 0 <= total_threads s <= total_emails s
  /\ 0 <= unique_domains s <= total_emails s
  /\ (length (top_domains s) <= 10)%nat
  /\ sorted_desc TopDomains.count (top_domains s)
  /\ NoDup (TopDomains.from_domain <$> top_domains s)
  /\ (forall d, d ∈ top_domains s ->
        1 <= TopDomains.count d
        /\ TopDomains.count d
           = Z.of_nat (length (group_of Emails.from_domain
                                 (TopDomains.from_domain d) rows)))
  /\ (unique_domains s <= 10 ->
      foldr Z.add 0 (TopDomains.count <$> top_domains s) = total_emails s)
  /\ (length (top_senders s) <= 10)%nat
  /\ sorted_desc TopSenders.count (top_senders s)
  /\ NoDup (TopSenders.from_email <$> top_senders s)
  /\ (forall a, a ∈ top_senders s ->
        1 <= TopSenders.count a
        /\ TopSenders.count a
           = Z.of_nat (length (group_of Emails.from_email
                                 (TopSenders.from_email a) rows))
        /\ exists r, r ∈ rows
             /\ Emails.from_email r = TopSenders.from_email a
             /\ Emails.from_name r = TopSenders.from_name a).
Proof using order_by_desc_perm order_by_desc_sorted bare_row_in.
  clear clock current_timestamp recursive_triggers.
  intros rows s.
  assert (Hgroup : forall (key : Emails.row -> string) k,
            k ∈ remove_dups (key <$> rows) ->
            exists r g, group_of key k rows = r :: g).
  { intros key k Hk. rewrite elem_of_remove_dups in Hk.
    apply list_elem_of_fmap in Hk as (r & -> & Hr).
    assert (Hin : r ∈ group_of key (key r) rows)
      by (by apply list_elem_of_filter).
    destruct (group_of key (key r) rows) as [|r0 g];
      [by apply elem_of_nil in Hin|by eexists _, _]. }
  split; [done|]. split; [apply count_distinct_bounds|].
  split; [apply count_distinct_bounds|].
  cbn [top_domains top_senders get_stats s].
  subst rows. set (rows := emails (tables c)) in Hgroup |- *.
  match goal with |- context [order_by_desc TopDomains.row _ ?l] =>
    set (doms := l)
  end.
  match goal with |- context [order_by_desc TopSenders.row _ ?l] =>
    set (snds := l)
  end.
  destruct (limit_order_spec TopDomains.count 10 doms)
    as (rest & Hp & Hs & _ & _ & Hlen).
  destruct (limit_order_spec TopSenders.count 10 snds)
    as (rest' & Hp' & Hs' & _ & _ & Hlen').
  split; [rewrite Hlen by lia; lia|]. split; [exact Hs|].
  assert (Hdoms : NoDup (TopDomains.from_domain <$> doms)).
  { subst doms. rewrite <- list_fmap_compose.
    rewrite (list_fmap_ext _ Datatypes.id) by done.
    rewrite list_fmap_id. apply NoDup_remove_dups. }
  assert (Hsnds : NoDup (TopSenders.from_email <$> snds)).
  { subst snds. rewrite <- list_fmap_compose.
    rewrite (list_fmap_ext _ Datatypes.id) by done.
    rewrite list_fmap_id. apply NoDup_remove_dups. }
  split.
  { rewrite Hp, fmap_app in Hdoms. by apply NoDup_app in Hdoms as [? _]. }
  split.
  { intros d Hd. apply (limit_order_in TopDomains.count) in Hd.
    subst doms. apply list_elem_of_fmap in Hd as (k & -> & Hk).
    cbn [TopDomains.count TopDomains.from_domain].
    split; [|done]. destruct (Hgroup _ _ Hk) as (r & g & ->). cbn. lia. }
  split.
  { intros Hu. unfold sql_limit. cbn [Z.ltb Z.compare].
    rewrite take_ge.
    - rewrite (sum_perm _ (TopDomains.count <$> doms))
        by (by rewrite order_by_desc_perm).
      subst doms. rewrite <- list_fmap_compose.
      apply (group_sum Emails.from_domain); [apply NoDup_remove_dups|].
      intros r Hr. apply elem_of_remove_dups. by apply list_elem_of_fmap_2.
    - rewrite (Permutation_length (order_by_desc_perm _ _ _)).
      subst doms. rewrite length_fmap.
      unfold unique_domains, s, get_stats, count_distinct in Hu. cbn in Hu.
      fold rows in Hu. lia. }
  split; [rewrite Hlen' by lia; lia|]. split; [exact Hs'|].
  split.
  { rewrite Hp', fmap_app in Hsnds. by apply NoDup_app in Hsnds as [? _]. }
  intros a Ha. apply (limit_order_in TopSenders.count) in Ha.
  subst snds. apply list_elem_of_fmap in Ha as (k & -> & Hk).
  cbv zeta. cbn [TopSenders.count TopSenders.from_email TopSenders.from_name].
  destruct (Hgroup _ _ Hk) as (r & g & E). rewrite E.
  split; [cbn; lia|]. split; [done|].
  exists (bare_row r g).
  assert (Hb : bare_row r g ∈ group_of Emails.from_email k rows)
    by (rewrite E; apply bare_row_in).
  apply list_elem_of_filter in Hb as [Hb1 Hb2]. done.
Qed.

(** X24. On a table with unique ids, when [insert_emails] returns [n],
    the [total_emails] that [get_stats] reports has grown by exactly
    [n]. *)
Theorem get_stats_insert_emails (batch : list EmailObject) c n c' :
  keys_ok (tables c) ->
  insert_emails batch c = (Ok n, c') ->
  total_emails (get_stats order_by_desc bare_row c')
  = total_emails (get_stats order_by_desc bare_row c) + n.
Proof using Type.
  clear order_by_desc_perm order_by_desc_sorted bare_row_in.
  intros Hk. rewrite insert_emails_run.
  pose proof (insert_loop_keys batch 0 c Hk) as Hk'.
  destruct (insert_loop batch 0 c) as [[n0|x] c1] eqn:E; [|done].
  intros [= <- <-]. destruct (insert_loop_count _ _ _ _ _ E) as [Hn Hids].
  cbn [snd] in Hk'. cbn [total_emails get_stats tables].
  rewrite (length_emails_table_ids _ Hk), (length_emails_table_ids _ Hk').
  rewrite Hids, Hn.
  set (T := table_ids (tables c)). set (B := batch_ids batch).
  assert (Hu : T ∪ B = T ∪ B ∖ T).
  { apply set_eq. intros x.
    rewrite !elem_of_union, elem_of_difference.
    destruct (decide (x ∈ T)); naive_solver. }
  rewrite Hu, (size_union T (B ∖ T)) by set_solver. lia.
Qed.

End Queries.

End Facts.

(** *** Examples *)

Abbreviation clock0 := Storage.clock0.
Abbreviation msg := Storage.msg.

Lemma insert_emails_count_witness :
  let batch := [with_attachments (msg "m1" "alpha") [];
                with_attachments (msg "m1" "beta") [];
                with_attachments (msg "m2" "gamma") []] in
  let r := insert_emails clock0 clock0 false batch (create_database None) in
  r.1 = Ok 2
  /\ table_ids (tables r.2) = ∅ ∪ batch_ids batch
  /\ committed r.2 = tables r.2.
Proof.
  intros batch r.
  assert (H : insert_emails clock0 clock0 false batch (create_database None)
              = (Ok 2, r.2)) by reflexivity.
  destruct (insert_emails_count clock0 clock0 false batch
              (create_database None) 2 r.2 H) as (_ & H2 & H3).
  split; [exact (f_equal fst H)|]. split; [exact H2|exact H3].
Defined.

Lemma insert_emails_raise_no_commit_witness :
  let batch := [with_attachments (msg "m1" "alpha") [];
                of_message (msg "m2" "beta")] in
  let r := insert_emails clock0 clock0 false batch (create_database None) in
  r.1 = Raise (AttributeError "attachments")
  /\ Emails.id <$> emails (tables r.2) = ["m1"]
  /\ committed r.2 = no_tables.
Proof.
  intros batch r.
  assert (H : r.1 = Raise (AttributeError "attachments")) by reflexivity.
  destruct (insert_emails_raise_no_commit clock0 clock0 false batch
              (create_database None) _ H) as [H1 _].
  split; [exact H|]. split; [reflexivity|exact H1].
Defined.

Lemma insert_email_null_attachment_id_witness :
  let e := with_attachments (msg "m1" "alpha")
             [sample_attachment; inline_attachment] in
  exists c',
    insert_email clock0 clock0 false e (create_database None)
    = (Raise IntegrityError, c')
    /\ id_exists "m1" (tables c') = true
    /\ committed c' = no_tables.
Proof.
  intros e.
  apply (insert_email_null_attachment_id clock0 clock0 false e
           [sample_attachment; inline_attachment] inline_attachment
           (create_database None)).
  - reflexivity.
  - unfold binds_ints, sqlite_int, sample_attachment, inline_attachment.
    cbn. split; [lia|]. split; [lia|].
    repeat (constructor; [cbn; lia|]). constructor.
  - right. left.
  - reflexivity.
Defined.

Lemma insert_email_upsert_witness :
  let e := with_attachments (from_jane "m1" 5) [] in
  let r := insert_email clock0 clock0 false e (create_database None) in
  r.1 = Ok true
  /\ exists row,
       emails (tables r.2) = [row]
       /\ (Emails.from_email row, Emails.from_name row,
           Emails.from_domain row)
          = ("jane@example.com", "Jane Roe", "example.com")
       /\ Emails.subject row = "hello"
       /\ Emails.body row = EmptyString
       /\ Emails.timestamp row = 5
       /\ Emails.has_attachments row = 0.
Proof.
  intros e r.
  assert (H : insert_email clock0 clock0 false e (create_database None)
              = (Ok true, r.2)) by reflexivity.
  assert (Hh : is_ascii (from_email (fields e)) = true) by reflexivity.
  destruct (insert_email_upsert clock0 clock0 false e (create_database None)
              true r.2 Hh H)
    as (atts & row & Ha & H1 & _ & _ & H2 & _ & _ & H3 & H4 & _ & _ & _
        & _ & H5 & _ & H6 & _).
  split; [exact (f_equal fst H)|]. exists row.
  split; [exact H1|]. split; [exact H2|]. split; [exact H3|].
  split; [exact H4|]. split; [exact H5|].
  rewrite H6. injection Ha as <-. reflexivity.
Defined.

Lemma built_keys_and_index_witness :
  let e := with_attachments (msg "m1" "alpha") [] in
  let c := (insert_email clock0 clock0 false e
              (insert_email clock0 clock0 false e
                 (create_database None)).2).2 in
  keys_ok (tables c) /\ fts_serves (tables c)
  /\ keys_ok (committed c) /\ fts_serves (committed c).
Proof.
  intros e c.
  apply (built_keys_and_index clock0 clock0 false c).
  apply built_insert_email, built_insert_email, built_create.
Defined.

Lemma index_order_perm (query : string) (l : list EmailsFts.row) :
  index_order query l ≡ₚ l.
Proof. reflexivity. Qed.

Lemma search_emails_built_witness :
  let e1 := with_attachments (msg "m1" "alpha") [] in
  let e2 := with_attachments (msg "m1" "beta") [] in
  let c := (insert_email clock0 clock0 false e2
              (insert_email clock0 clock0 false e1
                 (create_database None)).2).2 in
  search_emails subject_is index_order "alpha" (-1) c = []
  /\ forall r, r ∈ emails (tables c) ->
       subject_is "beta" (fts_entry r) = true ->
       r ∈ search_emails subject_is index_order "beta" (-1) c.
Proof.
  intros e1 e2 c. split; [reflexivity|].
  assert (Hb : built clock0 clock0 false c)
    by apply built_insert_email, built_insert_email, built_create.
  assert (Hq : simple_query "beta" = true) by reflexivity.
  assert (Hl : sqlite_int (-1)) by (unfold sqlite_int; lia).
  destruct (search_emails_built clock0 clock0 false subject_is index_order
              index_order_perm "beta" (-1) c Hq Hl Hb) as (_ & _ & H & _).
  apply H. reflexivity.
Defined.

Lemma insert_email_attachments_witness :
  let e := with_attachments (msg "m1" "alpha") [sample_attachment] in
  let r := insert_email clock0 clock0 false e (create_database None) in
  r.1 = Ok true
  /\ attachment_content <$> attachments (tables r.2)
     = [content_row "m1" ("att1", sample_attachment)].
Proof.
  intros e r.
  assert (H : insert_email clock0 clock0 false e (create_database None)
              = (Ok true, r.2)) by reflexivity.
  destruct (insert_email_attachments clock0 clock0 false e
              [sample_attachment] (create_database None) true r.2 H)
    as [_ H2].
  - reflexivity.
  - apply NoDup_singleton.
  - split; [exact (f_equal fst H)|exact H2].
Defined.




Lemma get_stats_counts_witness :
  let s := get_stats sort_desc last_row three in
  total_emails s = 3 /\ total_threads s = 1 /\ unique_domains s = 1
  /\ foldr Z.add 0 (TopDomains.count <$> top_domains s) = 3.
Proof.
  intros s.
  destruct (get_stats_counts sort_desc last_row SortSpec.sort_desc_perm
              SortSpec.sort_desc_sorted SortSpec.last_row_in three)
    as (H1 & _ & _ & _ & _ & _ & _ & H8 & _).
  split; [exact H1|]. split; [reflexivity|]. split; [reflexivity|].
  assert (Hle : unique_domains s <= 10) by (vm_compute; discriminate).
  exact (H8 Hle).
Defined.

Lemma get_stats_insert_emails_witness :
  let batch := [with_attachments (from_jane "m3" 20) [];
                with_attachments (from_jane "m4" 40) []] in
  let r := insert_emails clock0 clock0 false batch three in
  keys_ok (tables three)
  /\ r.1 = Ok 1
  /\ total_emails (get_stats sort_desc last_row r.2) = 3 + 1.
Proof.
  intros batch r.
  assert (Hk : keys_ok (tables three)).
  { split; vm_compute; repeat constructor; set_solver. }
  assert (H : insert_emails clock0 clock0 false batch three = (Ok 1, r.2))
    by reflexivity.
  split; [exact Hk|]. split; [exact (f_equal fst H)|].
  exact (get_stats_insert_emails clock0 clock0 false sort_desc last_row
           batch three 1 r.2 Hk H).
Defined.

End ArchiveSpec.
